(** * fuzzyset.ts: a shallow embedding of [FuzzySearch] and its properties

    The development follows [src/fuzzyset.ts] function by function.

    - Strings are sequences of UTF-16 code units in the source.  Here a
      string is a [string] whose characters are the code units 0..255
      (Basic Latin and Latin-1 Supplement); on that range
      [String.prototype.toLowerCase] is the map [lower_char] below.
    - Numbers are IEEE-754 binary64 values in the source.  Scores, vector
      norms and thresholds are kept as primitive [float]s with the same
      operations; gram counts, lengths, indices and edit distances are
      natural numbers (a double holds them exactly below 2^53) and are turned
      into a [float] by [float_of_nat] where the source does arithmetic that
      leaves the integers (square root, division).
    - Plain objects used as dictionaries ([exactSet], [matchDict], [items],
      the gram counter and the [matches] accumulator) are finite maps or
      association lists of their own properties; the [in] operator also sees
      the properties a plain object inherits from [Object.prototype].
    - A [TypeError] raised inside a method is an outcome of its own. *)

From Stdlib Require Import ZArith Floats Uint63 Ascii String.
From stdpp Require Import gmap strings list fin_maps sorting.

Local Open Scope string_scope.
Local Open Scope nat_scope.
Local Open Scope list_scope.

(** ** Characters and strings *)

Module Str.

Definition code (c : ascii) : nat := nat_of_ascii c.

(** [toLowerCase] on one code unit below 256: A-Z and the Latin-1 capitals
    U+00C0..U+00DE (the multiplication sign U+00D7 apart) move up by 32. *)
Definition lower_char (c : ascii) : ascii :=
  let n := code c in
  if ((65 <=? n) && (n <=? 90)) || ((192 <=? n) && (n <=? 222) && negb (n =? 215))
  then ascii_of_nat (n + 32) else c.

Fixpoint toLowerCase (s : string) : string :=
  match s with
  | EmptyString => EmptyString
  | String c s' => String (lower_char c) (toLowerCase s')
  end.

(** [s.slice(i, j)] for [0 <= i <= j]. *)
Definition slice (s : string) (i j : nat) : string := substring i (j - i) s.

Fixpoint repeat_char (c : ascii) (n : nat) : string :=
  match n with
  | 0 => EmptyString
  | S n' => String c (repeat_char c n')
  end.

Fixpoint forall_chars (p : ascii → bool) (s : string) : bool :=
  match s with
  | EmptyString => true
  | String c s' => p c && forall_chars p s'
  end.

Fixpoint drop (n : nat) (s : string) : string :=
  match n, s with
  | 0, _ => s
  | S n', String _ s' => drop n' s'
  | S _, EmptyString => EmptyString
  end.

End Str.

(** ** Regular expressions of the shape used by [_nonWordRe] *)

Module Regex.

(** A character class is a list of inclusive code-unit ranges. *)
Definition class := list (nat * nat).

Definition in_class (cl : class) (c : ascii) : bool :=
  existsb (λ r, (fst r <=? Str.code c) && (Str.code c <=? snd r)) cl.

(** The atoms the pattern is built from: [^], [$] and [[^...]+]. *)
Inductive atom :=
| Bol
| Eol
| NegClassPlus (cl : class).

Definition pattern := list atom.

(** [plus cl k i rest]: [[^cl]+] at offset [i], then the rest of the
    pattern, [k]: the longest run first, then shorter ones.  The result is
    the number of code units consumed. *)
Fixpoint plus (cl : class) (k : nat → string → option nat) (i : nat) (rest : string)
  : option nat :=
  match rest with
  | EmptyString => None
  | String c rest' =>
      if in_class cl c then None
      else match plus cl k (S i) rest' with
           | Some n => Some (S n)
           | None => S <$> k (S i) rest'
           end
  end.

(** [match_at p i rest]: the pattern is tried at offset [i] of the subject,
    [rest] being the subject from [i] on. *)
Fixpoint match_at (p : pattern) (i : nat) (rest : string) {struct p} : option nat :=
  match p with
  | [] => Some 0
  | Bol :: k => if i =? 0 then match_at k i rest else None
  | Eol :: k => match rest with EmptyString => match_at k i rest | _ => None end
  | NegClassPlus cl :: k => plus cl (match_at k) i rest
  end.

(** [subject.replace(re, by)] for a pattern with the [g] flag: the subject
    is scanned from the left; a match is replaced and the scan goes on
    behind it (one code unit further after an empty match). *)
Fixpoint replace_from (fuel : nat) (p : pattern) (by_ : string) (i : nat) (rest : string) : string :=
  match fuel with
  | 0 => rest
  | S fuel' =>
      match match_at p i rest with
      | Some 0 =>
          by_ +:+ match rest with
                  | EmptyString => EmptyString
                  | String c rest' => String c (replace_from fuel' p by_ (S i) rest')
                  end
      | Some n => by_ +:+ replace_from fuel' p by_ (i + n) (Str.drop n rest)
      | None =>
          match rest with
          | EmptyString => EmptyString
          | String c rest' => String c (replace_from fuel' p by_ (S i) rest')
          end
      end
  end.

Definition replace (p : pattern) (by_ : string) (s : string) : string :=
  replace_from (S (String.length s)) p by_ 0 s.

End Regex.

(** ** The gram extractor *)

(** [/^[^a-zA-Z0-9À-ÿء-ي٠-٩, ]+$/g] *)
Definition wordClass : Regex.class :=
  [(97, 122); (65, 90); (48, 57); (192, 255); (1569, 1610); (1632, 1641); (44, 44); (32, 32)].

Definition _nonWordRe : Regex.pattern :=
  [Regex.Bol; Regex.NegClassPlus wordClass; Regex.Eol].

(** [gramSize || 2] *)
Definition orTwo (gramSize : nat) : nat := if gramSize =? 0 then 2 else gramSize.

Definition simplify (value : string) : string :=
  "-" +:+ Regex.replace _nonWordRe "" (Str.toLowerCase value) +:+ "-".

Definition padTo (gramSize : nat) (simplified : string) : string :=
  simplified +:+ Str.repeat_char "-" (gramSize - String.length simplified).

Definition _iterateGrams (value : string) (gramSize : nat) : list string :=
  let gramSize := orTwo gramSize in
  let simplified := padTo gramSize (simplify value) in
  map (λ i, Str.slice simplified i (i + gramSize))
      (seq 0 (String.length simplified + 1 - gramSize)).

(** ** Numbers *)

Definition float_of_nat (n : nat) : float := PrimFloat.of_uint63 (Uint63.of_Z (Z.of_nat n)).

(** [a >= b] on doubles. *)
Definition geb (a b : float) : bool := PrimFloat.leb b a.

(** ** Exceptions *)

Inductive exn :=
| TypeError
| Error (message : string).

Inductive outcome (A : Type) :=
| Ret (a : A)
| Throw (e : exn).
Arguments Ret {A} a.
Arguments Throw {A} e.

Global Instance outcome_ret : MRet outcome := λ A a, Ret a.
Global Instance outcome_bind : MBind outcome :=
  λ A B f m, match m with Ret a => f a | Throw e => Throw e end.

(** A loop whose body may throw: [for (x of xs) st = body(st, x)]. *)
Fixpoint forM {S X : Type} (body : S → X → outcome S) (st : S) (xs : list X) : outcome S :=
  match xs with
  | [] => Ret st
  | x :: xs' => st' ← body st x; forM body st' xs'
  end.

(** ** Plain objects *)

Module Obj.

(** The property names a plain object inherits from [Object.prototype]. *)
Definition prototypeKeys : list string :=
  ["constructor"; "__defineGetter__"; "__defineSetter__"; "hasOwnProperty";
   "__lookupGetter__"; "__lookupSetter__"; "isPrototypeOf"; "propertyIsEnumerable";
   "toString"; "valueOf"; "__proto__"; "toLocaleString"].

Definition inherited (k : string) : bool := bool_decide (k ∈ prototypeKeys).

(** [.length] of the inherited value: the arity of the inherited function;
    [Object.prototype] itself, the value of [__proto__], has none. *)
Definition inheritedLength (k : string) : option nat :=
  if bool_decide (k ∈ ["toString"; "valueOf"; "toLocaleString"]) then Some 0
  else if bool_decide (k ∈ ["__defineGetter__"; "__defineSetter__"]) then Some 2
  else if bool_decide (k = "__proto__") then None
  else Some 1.

(** [k in o] for an object whose own properties are the map [o]. *)
Definition has {V} (o : gmap string V) (k : string) : bool :=
  bool_decide (is_Some (o !! k)) || inherited k.

(** [o[k] = v] on a plain object: the [__proto__] setter ignores a value
    that is neither an object nor null. *)
Definition set {V} (o : gmap string V) (k : string) (v : V) : gmap string V :=
  if bool_decide (k = "__proto__") then o else <[k := v]> o.

(** Own properties as a list [(name, value)] in creation order. *)
Fixpoint lookupA {V} (o : list (string * V)) (k : string) : option V :=
  match o with
  | [] => None
  | (k', v) :: o' => if bool_decide (k' = k) then Some v else lookupA o' k
  end.

Fixpoint setA {V} (o : list (string * V)) (k : string) (v : V) : list (string * V) :=
  match o with
  | [] => [(k, v)]
  | (k', v') :: o' => if bool_decide (k' = k) then (k', v) :: o' else (k', v') :: setA o' k v
  end.

Definition hasA {V} (o : list (string * V)) (k : string) : bool :=
  bool_decide (is_Some (lookupA o k)) || inherited k.

(** An array index is a canonical decimal numeral below 2^32 - 1. *)
Fixpoint digits (acc : N) (s : string) : option N :=
  match s with
  | EmptyString => Some acc
  | String c s' =>
      let n := Str.code c in
      if (48 <=? n) && (n <=? 57) then digits (acc * 10 + N.of_nat (n - 48))%N s' else None
  end.

Definition arrayIndex (k : string) : option N :=
  match k with
  | EmptyString => None
  | String c rest =>
      if bool_decide (c = "0"%char) && negb (bool_decide (rest = EmptyString)) then None
      else match digits 0 k with
           | Some v => if (v <? 4294967295)%N then Some v else None
           | None => None
           end
  end.

Fixpoint insertIndex {V} (x : N * (string * V)) (l : list (N * (string * V))) :=
  match l with
  | [] => [x]
  | y :: l' => if (fst x <? fst y)%N then x :: l else y :: insertIndex x l'
  end.

Definition indexProps {V} (o : list (string * V)) : list (N * (string * V)) :=
  omap (λ kv, (λ i, (i, kv)) <$> arrayIndex (fst kv)) o.

(** The order [for (k in o)] visits the own properties: array indices in
    ascending order, then the other names in creation order. *)
Definition forIn {V} (o : list (string * V)) : list (string * V) :=
  map snd (foldr insertIndex [] (indexProps o))
  ++ filter (λ kv, arrayIndex (fst kv) = None) o.

End Obj.

(** ** The index *)

(** [MatchDictEntry = [index, gramCount]], [ItemsEntry = [vectorNormal, normalizedValue]] *)
Abbreviation MatchDictEntry := (nat * nat)%type.
Abbreviation ItemsEntry := (float * string)%type.

Record FuzzySearch := mkFuzzySearch {
  gramSizeLower : nat;
  gramSizeUpper : nat;
  useLevenshtein : bool;
  exactSet : gmap string string;
  matchDict : gmap string (list MatchDictEntry);
  items : gmap nat (list ItemsEntry);
}.

(** The gram sizes [for (i = gramSizeLower; i <= gramSizeUpper; ++i)] visits. *)
Definition gramSizes (lower upper : nat) : list nat := seq lower (S upper - lower).

(** A gram count is a number, or what [+= 1] makes of an inherited function. *)
Inductive count :=
| Num (n : nat)
| NotNum.

Abbreviation GramCounterResult := (list (string * count)).

Definition countGram (result : GramCounterResult) (gram : string) : GramCounterResult :=
  if Obj.hasA result gram then
    match Obj.lookupA result gram with
    | Some (Num n) => Obj.setA result gram (Num (n + 1))
    | Some NotNum => result
    | None => if bool_decide (gram = "__proto__") then result else Obj.setA result gram NotNum
    end
  else Obj.setA result gram (Num 1).

Definition _gramCounter (value : string) (gramSize : nat) : GramCounterResult :=
  let gramSize := orTwo gramSize in
  fold_left countGram (_iterateGrams value gramSize) [].

Definition _normalizeStr (str : string) : string := Str.toLowerCase str.

(** One turn of the loop over [gramCounts] in [_add]; the state is
    [(sumOfSquareGramCounts, matchDict)]. *)
Definition addGram (index : nat) (acc : nat * gmap string (list MatchDictEntry))
    (kv : string * count) : outcome (nat * gmap string (list MatchDictEntry)) :=
  let '(sumOfSquareGramCounts, matchDict) := acc in
  let '(gram, gramCount) := kv in
  match gramCount with
  | Num gramCount =>
      let sumOfSquareGramCounts := sumOfSquareGramCounts + gramCount ^ 2 in
      if Obj.has matchDict gram then
        match matchDict !! gram with
        | Some postings => Ret (sumOfSquareGramCounts, <[gram := postings ++ [(index, gramCount)]]> matchDict)
        | None => Throw TypeError
        end
      else Ret (sumOfSquareGramCounts, Obj.set matchDict gram [(index, gramCount)])
  | NotNum =>
      (* the sum is NaN from here on; the gram is a name [Object.prototype]
         defines, [gram in this.matchDict] holds and the value found there
         has no [push] *)
      Throw TypeError
  end.

Definition _add (st : FuzzySearch) (value : string) (gramSize : nat) : outcome FuzzySearch :=
  let normalizedValue := _normalizeStr value in
  let items0 := default [] (items st !! gramSize) in
  let index := length items0 in
  let gramCounts := _gramCounter normalizedValue gramSize in
  '(sumOfSquareGramCounts, matchDict') ← forM (addGram index) (0, matchDict st) (Obj.forIn gramCounts);
  let vectorNormal := PrimFloat.sqrt (float_of_nat sumOfSquareGramCounts) in
  Ret {| gramSizeLower := gramSizeLower st;
         gramSizeUpper := gramSizeUpper st;
         useLevenshtein := useLevenshtein st;
         exactSet := Obj.set (exactSet st) normalizedValue value;
         matchDict := matchDict';
         items := <[gramSize := items0 ++ [(vectorNormal, normalizedValue)]]> (items st) |}.

Definition add (st : FuzzySearch) (value : string) : outcome FuzzySearch :=
  let normalizedValue := _normalizeStr value in
  if Obj.has (exactSet st) normalizedValue then Ret st
  else forM (λ st i, _add st value i) st (gramSizes (gramSizeLower st) (gramSizeUpper st)).

(** [new FuzzySearch(arr, useLevenshtein, gramSizeLower, gramSizeUpper)];
    [None] is an argument left out. *)
Definition emptyIndex (useLev : option bool) (lower upper : option nat) : FuzzySearch :=
  let lower := default 2 lower in
  let upper := default 3 upper in
  {| gramSizeLower := lower;
     gramSizeUpper := upper;
     useLevenshtein := default true useLev;
     exactSet := ∅;
     matchDict := ∅;
     items := fold_left (λ its i, <[i := []]> its) (gramSizes lower upper) ∅ |}.

Definition FuzzySet (arr : list string) (useLev : option bool) (lower upper : option nat)
  : outcome FuzzySearch :=
  forM add (emptyIndex useLev lower upper) arr.

Definition length_ (st : FuzzySearch) : nat := size (exactSet st).

Definition isEmpty (st : FuzzySearch) : bool := bool_decide (exactSet st = ∅).

(** ** Edit distance *)

(** The body of the loop over [j]; the state is [(prev, current)]. *)
Definition levInner (str1 str2 : string) (i : nat) (acc : nat * list nat) (j : nat)
  : nat * list nat :=
  let '(prev, current) := acc in
  let value :=
    if bool_decide (String.get (j - 1) str1 = String.get (i - 1) str2) then prev
    else Nat.min (Nat.min (current !!! j) (current !!! (j - 1))) prev + 1 in
  (current !!! j, <[j := value]> current).

(** The body of the loop over [i]. *)
Definition levOuter (str1 str2 : string) (current : list nat) (i : nat) : list nat :=
  let prev := current !!! 0 in
  let current := <[0 := i]> current in
  snd (fold_left (levInner str1 str2 i) (seq 1 (String.length str1)) (prev, current)).

Definition levenshtein (str1 str2 : string) : nat :=
  let current := seq 0 (String.length str1 + 1) in
  let current := fold_left (levOuter str1 str2) (seq 1 (String.length str2)) current in
  current !!! String.length str1.

(** [None] is [null]. *)
Definition _distance (str1 str2 : option string) : outcome float :=
  match str1, str2 with
  | None, None => Throw (Error "Trying to compare two null values")
  | None, Some _ | Some _, None => Ret 0%float
  | Some str1, Some str2 =>
      let distance := float_of_nat (levenshtein str1 str2) in
      Ret (if String.length str2 <? String.length str1
           then (1 - distance / float_of_nat (String.length str1))%float
           else (1 - distance / float_of_nat (String.length str2))%float)
  end.

(** ** Query *)

(** [matches]: the own properties of an object with integer keys, kept in
    ascending key order, which is the order [for..in] visits them.
    [addMatch] is [if (index in matches) matches[index] += v else matches[index] = v]. *)
Fixpoint addMatch (matches : list (nat * nat)) (index v : nat) : list (nat * nat) :=
  match matches with
  | [] => [(index, v)]
  | (i, m) :: rest =>
      if index <? i then (index, v) :: matches
      else if index =? i then (i, m + v) :: rest
      else (i, m) :: addMatch rest index v
  end.

(** One turn of the loop over [gramCounts] in [__get]; the state is
    [(sumOfSquareGramCounts, matches)]. *)
Definition scoreGram (matchDict : gmap string (list MatchDictEntry))
    (acc : nat * list (nat * nat)) (kv : string * count) : outcome (nat * list (nat * nat)) :=
  let '(sumOfSquareGramCounts, matches) := acc in
  let '(gram, gramCount) := kv in
  match gramCount with
  | Num gramCount =>
      let sumOfSquareGramCounts := sumOfSquareGramCounts + gramCount ^ 2 in
      if Obj.has matchDict gram then
        match matchDict !! gram with
        | Some postings =>
            Ret (sumOfSquareGramCounts,
                 fold_left (λ matches '(index, otherGramCount),
                              addMatch matches index (gramCount * otherGramCount))
                           postings matches)
        | None =>
            match Obj.inheritedLength gram with
            | Some (S _) => Throw TypeError
            | _ => Ret (sumOfSquareGramCounts, matches)
            end
        end
      else Ret (sumOfSquareGramCounts, matches)
  | NotNum =>
      (* the gram is a name [Object.prototype] defines and the value found
         under it in [matchDict] holds no posting to destructure *)
      Throw TypeError
  end.

(** [results.sort((a, b) => b[0] - a[0])]: [after a b] says that the
    comparator is positive, so that [a] is to come after [b]; the sort is
    stable. *)
Definition after {W} (a b : float * W) : bool := (0 <? fst b - fst a)%float.

Fixpoint insertSorted {W} (x : float * W) (l : list (float * W)) : list (float * W) :=
  match l with
  | [] => [x]
  | y :: l' => if after x y then y :: insertSorted x l' else x :: l
  end.

Definition sortDesc {W} (l : list (float * W)) : list (float * W) := foldr insertSorted [] l.

Fixpoint mapM {X Y} (f : X → outcome Y) (xs : list X) : outcome (list Y) :=
  match xs with
  | [] => Ret []
  | x :: xs' => y ← f x; ys ← mapM f xs'; Ret (y :: ys)
  end.

(** A result is [[score, this.exactSet[word]]]; [None] is [undefined]. *)
Abbreviation Result := (float * option string)%type.

(** [__get], lines 76-89: the loop over the grams of the query. *)
Definition collectMatches (st : FuzzySearch) (normalizedValue : string) (gramSize : nat)
  : outcome (nat * list (nat * nat)) :=
  let gramCounts := _gramCounter normalizedValue gramSize in
  forM (scoreGram (matchDict st)) (0, []) (Obj.forIn gramCounts).

(** [__get], lines 95-100: one cosine score per match. *)
Definition scoreMatches (items : option (list ItemsEntry)) (sumOfSquareGramCounts : nat)
    (matches : list (nat * nat)) : outcome (list (float * string)) :=
  let vectorNormal := PrimFloat.sqrt (float_of_nat sumOfSquareGramCounts) in
  mapM (λ '(matchIndex, matchScore),
          match items ≫= (.!! matchIndex) with
          | Some (norm, word) =>
              Ret (float_of_nat matchScore / (vectorNormal * norm), word)%float
          | None => Throw TypeError
          end) matches.

(** [__get], lines 104-112: the edit distance of the first fifty. *)
Definition refine (useLevenshtein : bool) (normalizedValue : string)
    (results : list (float * string)) : outcome (list (float * string)) :=
  if useLevenshtein then
    let endIndex := Nat.min 50 (length results) in
    newResults ← mapM (λ r, d ← _distance (Some (snd r)) (Some normalizedValue);
                            Ret (d, snd r))
                      (take endIndex results);
    Ret (sortDesc newResults)
  else Ret results.

(** [__get], lines 114-119: the threshold, and the original strings. *)
Definition finalResults (st : FuzzySearch) (minMatchScore : float)
    (results : list (float * string)) : list Result :=
  map (λ '(score, word), (score, exactSet st !! word))
      (filter (λ r, geb (fst r) minMatchScore = true) results).

Definition __get (st : FuzzySearch) (value : string) (gramSize : nat) (minMatchScore : float)
  : outcome (option (list Result)) :=
  let normalizedValue := _normalizeStr value in
  let items := items st !! gramSize in
  '(sumOfSquareGramCounts, matches) ← collectMatches st normalizedValue gramSize;
  if bool_decide (matches = []) then Ret None
  else
    results ← scoreMatches items sumOfSquareGramCounts matches;
    let results := sortDesc results in
    results ← refine (useLevenshtein st) normalizedValue results;
    Ret (Some (finalResults st minMatchScore results)).

Fixpoint _getLoop (st : FuzzySearch) (value : string) (minMatchScore : float)
    (sizes : list nat) : outcome (option (list Result)) :=
  match sizes with
  | [] => Ret None
  | gramSize :: sizes' =>
      results ← __get st value gramSize minMatchScore;
      match results with
      | Some (r :: rs) => Ret (Some (r :: rs))
      | _ => _getLoop st value minMatchScore sizes'
      end
  end.

(** The gram sizes [for (g = gramSizeUpper; g >= gramSizeLower; --g)] visits. *)
Definition gramSizesDown (lower upper : nat) : list nat := reverse (gramSizes lower upper).

Definition _get (st : FuzzySearch) (value : string) (minMatchScore : float)
  : outcome (option (list Result)) :=
  _getLoop st value minMatchScore (gramSizesDown (gramSizeLower st) (gramSizeUpper st)).

(** What [get] hands back: the result list, the caller's default, or [null]. *)
Inductive GetResult (D : Type) :=
| Results (rs : list Result)
| Default (d : D)
| Null.
Arguments Results {D} rs.
Arguments Default {D} d.
Arguments Null {D}.

(** 0.33 as a double *)
Definition defaultMinMatchScore : float := 0x1.51eb851eb851fp-2%float.

(** [None] is an argument left out ([undefined]). *)
Definition get {D} (st : FuzzySearch) (value : string) (defaultValue : option D)
    (minMatchScore : option float) : outcome (GetResult D) :=
  let minMatchScore := default defaultMinMatchScore minMatchScore in
  result ← _get st value minMatchScore;
  match result, defaultValue with
  | None, Some d => Ret (Default d)
  | None, None => Ret Null
  | Some rs, _ => Ret (Results rs)
  end.


(** ** Specification-side definitions *)

(** The fall-back of [_get] as the specification words it: the first gram
    size (from the largest down) at which [__get] has any candidate decides,
    whatever the threshold filter leaves of it. *)
Fixpoint specGetLoop (st : FuzzySearch) (value : string) (minMatchScore : float)
    (sizes : list nat) : outcome (option (list Result)) :=
  match sizes with
  | [] => Ret None
  | gramSize :: sizes' =>
      results ← __get st value gramSize minMatchScore;
      match results with
      | Some rs => Ret (Some rs)
      | None => specGetLoop st value minMatchScore sizes'
      end
  end.

Definition specGet (st : FuzzySearch) (value : string) (minMatchScore : float)
  : outcome (option (list Result)) :=
  specGetLoop st value minMatchScore (gramSizesDown (gramSizeLower st) (gramSizeUpper st)).

(** [__get] found nothing to return: [null], or a list the filter emptied. *)
Definition nothing (r : outcome (option (list Result))) : Prop :=
  r = Ret None ∨ r = Ret (Some []).

(** The number of results a query returns ([null] counts for none). *)
Definition resultCount (r : outcome (option (list Result))) : nat :=
  match r with
  | Ret (Some rs) => length rs
  | _ => 0
  end.

(** The states an index goes through: a fresh one, then one [add] that
    returns after the other. *)
Inductive reachable : FuzzySearch → Prop :=
| reachable_new useLev lower upper : reachable (emptyIndex useLev lower upper)
| reachable_add st value st' : reachable st → add st value = Ret st' → reachable st'.

(** An index with three entries, queried with ["ab"]. *)
Definition abIndex : outcome FuzzySearch :=
  FuzzySet ["ac"; "cb"; "abzzzzzzzz"] None None None.

(** The number of results [get] hands back. *)
Definition getCount {D} (r : outcome (GetResult D)) : nat :=
  match r with
  | Ret (Results rs) => length rs
  | _ => 0
  end.

(** A fresh index whose only gram size is 11. *)
Definition elevenIndex : FuzzySearch := emptyIndex None (Some 11) (Some 11).

(** The normalizer as the specification words it: lower-case, then drop the
    run of characters outside the allowed set at the start and the one at the
    end. *)
Fixpoint dropOutside (s : string) : string :=
  match s with
  | EmptyString => EmptyString
  | String c s' => if Regex.in_class wordClass c then s else dropOutside s'
  end.

Definition specNormalize (raw : string) : string :=
  String.rev (dropOutside (String.rev (dropOutside (Str.toLowerCase raw)))).

(** A code unit outside the allowed set. *)
Definition outside (c : ascii) : bool := negb (Regex.in_class wordClass c).

(** What [replace(_nonWordRe, '')] makes of a string. *)
Definition stripped (s : string) : string :=
  if negb (bool_decide (s = "")) && Str.forall_chars outside s then "" else s.

(** *** Levenshtein distance *)

Section EditDistance.
Context {A : Type} `{!EqDecision A}.

(** One insertion, deletion or substitution of a single character. *)
Inductive edit1 : list A → list A → Prop :=
| edit1_insert pre x post : edit1 (pre ++ post) (pre ++ x :: post)
| edit1_delete pre x post : edit1 (pre ++ x :: post) (pre ++ post)
| edit1_subst pre x y post : edit1 (pre ++ x :: post) (pre ++ y :: post).

(** [edits n a b]: [n] such steps transform [a] into [b]. *)
Inductive edits : nat → list A → list A → Prop :=
| edits_refl a : edits 0 a a
| edits_step n a b c : edit1 a b → edits n b c → edits (S n) a c.

(** [d] is the least number of steps that transform [a] into [b]. *)
Definition isLevenshtein (a b : list A) (d : nat) : Prop :=
  edits d a b ∧ ∀ n, edits n a b → d ≤ n.

(** The textbook recurrence, from the front of both strings. *)
Fixpoint lev (a b : list A) : nat :=
  match a with
  | [] => length b
  | x :: a' =>
      (fix inner (b : list A) : nat :=
         match b with
         | [] => length a
         | y :: b' =>
             if decide (x = y) then lev a' b'
             else S (Nat.min (Nat.min (inner b') (lev a' b)) (lev a' b'))
         end) b
  end.

End EditDistance.

(** *** The index invariant *)

Definition countValue (c : count) : nat :=
  match c with Num n => n | NotNum => 0 end.

(** [sumOfSquareGramCounts] for a gram counter whose counts are numbers. *)
Definition sumSquares (gramCounts : list (string * count)) : nat :=
  foldr (λ kv acc, countValue (snd kv) ^ 2 + acc) 0 gramCounts.

Definition allNum (gramCounts : list (string * count)) : Prop :=
  ∀ kv, kv ∈ gramCounts → ∃ c, snd kv = Num c.

(** What every reachable index satisfies; [names] are the normalized
    strings in insertion order. *)
Record invariant (st : FuzzySearch) (names : list string) : Prop := {
  inv_nodup : NoDup names;
  inv_range : names = [] ∨ gramSizeLower st ≤ gramSizeUpper st;
  inv_exact : ∀ n, is_Some (exactSet st !! n) ↔ n ∈ names;
  inv_norm : ∀ n v, exactSet st !! n = Some v → _normalizeStr v = n;
  inv_items : ∀ g, gramSizeLower st ≤ g ≤ gramSizeUpper st →
    ∃ l, items st !! g = Some l ∧ map snd l = names ∧
         ∀ e, e ∈ l → fst e = PrimFloat.sqrt (float_of_nat (sumSquares (_gramCounter (snd e) g)));
  inv_counts : ∀ g n, gramSizeLower st ≤ g ≤ gramSizeUpper st → n ∈ names →
    allNum (_gramCounter n g);
  inv_valid : ∀ gram ps e, matchDict st !! gram = Some ps → e ∈ ps → fst e < length names;
  inv_complete : ∀ g i n gram c, gramSizeLower st ≤ g ≤ gramSizeUpper st →
    names !! i = Some n → (gram, Num c) ∈ _gramCounter n g →
    ∃ ps, matchDict st !! gram = Some ps ∧ (i, c) ∈ ps;
}.

(** What the loop of [add] over the gram sizes has done after the sizes
    [seen], for a value whose normalized form [n] is neither a key of
    [exactSet] nor inherited. *)
Definition addLoopInv (st : FuzzySearch) (names : list string) (value : string)
    (seen : list nat) (st' : FuzzySearch) : Prop :=
  let n := _normalizeStr value in
  gramSizeLower st' = gramSizeLower st ∧ gramSizeUpper st' = gramSizeUpper st
  ∧ useLevenshtein st' = useLevenshtein st
  ∧ exactSet st' = match seen with [] => exactSet st | _ => <[n := value]> (exactSet st) end
  ∧ (∀ g, g ∈ seen → ∃ l,
       items st !! g = Some l ∧
       items st' !! g
       = Some (l ++ [(PrimFloat.sqrt (float_of_nat (sumSquares (_gramCounter n g))), n)])
       ∧ allNum (_gramCounter n g))
  ∧ (∀ g, g ∉ seen → items st' !! g = items st !! g)
  ∧ (∀ gram ps, matchDict st !! gram = Some ps →
       ∃ ps', matchDict st' !! gram = Some ps' ∧ ps ⊆ ps')
  ∧ (∀ g gram c, g ∈ seen → (gram, Num c) ∈ _gramCounter n g →
       ∃ ps, matchDict st' !! gram = Some ps ∧ (length names, c) ∈ ps)
  ∧ (∀ gram ps e, matchDict st' !! gram = Some ps → e ∈ ps → fst e < S (length names)).

(** The gram counter holds numbers under names that are not inherited. *)
Definition goodCounts (result : list (string * count)) : Prop :=
  ∀ kv, kv ∈ result → Obj.inherited (fst kv) = false ∧ ∃ c, snd kv = Num c.

(** How many times a gram occurs in a list of grams. *)
Definition occurrences (gram : string) (grams : list string) : nat :=
  length (filter (λ x, x = gram) grams).

(** Every posting stems from a gram of the entry it names, at a configured
    gram size. *)
Definition postingsSound (st : FuzzySearch) (names : list string) : Prop :=
  ∀ gram ps i c, matchDict st !! gram = Some ps → (i, c) ∈ ps →
    ∃ g n, gramSizeLower st ≤ g ≤ gramSizeUpper st ∧ names !! i = Some n
           ∧ (gram, Num c) ∈ _gramCounter n g.

(** The candidates of a query at a gram size: the entries of [matches]. *)
Definition candidates (st : FuzzySearch) (value : string) (gramSize : nat) : list (nat * nat) :=
  match collectMatches st (_normalizeStr value) gramSize with
  | Ret (_, matches) => matches
  | Throw _ => []
  end.

(** The index an outcome holds, a fresh one after an exception. *)
Definition orEmpty (o : outcome FuzzySearch) : FuzzySearch :=
  match o with
  | Ret st => st
  | Throw _ => emptyIndex None None None
  end.

(** The same three entries, indexed at gram size 2 only. *)
Definition bigramIndex : FuzzySearch :=
  Eval vm_compute in orEmpty (FuzzySet ["ac"; "cb"; "abzzzzzzzz"] None (Some 2) (Some 2)).

(** The index after [add("Apple")]. *)
Definition appleIndex : FuzzySearch :=
  Eval vm_compute in orEmpty (add (emptyIndex None None None) "Apple").

(** The weight an index has in a list of [[index, count]] pairs: the sum of
    the counts listed under it, 0 when there are none. *)
Definition weightAt (index : nat) (l : list (nat * nat)) : nat :=
  sum_list_with snd (filter (λ e, fst e = index) l).

(** The sum of [count * f gram] over the entries of a gram counter. *)
Definition weighted (f : string → nat) (gramCounts : list (string * count)) : nat :=
  sum_list_with (λ kv, countValue (snd kv) * f (fst kv)) gramCounts.

(** 1 at [gram], 0 elsewhere. *)
Definition at_ (gram : string) (k : string) : nat := if decide (k = gram) then 1 else 0.

(** The dot product of the gram-count vectors of two lists of grams; a gram
    whose name a plain object inherits is not counted. *)
Definition dot (a b : list string) : nat :=
  sum_list_with (λ x, if Obj.inherited x then 0 else occurrences x b) a.

(** The cosine of the angle between the gram-count vectors. *)
Definition cosine (a b : list string) : float :=
  (float_of_nat (dot a b)
   / (PrimFloat.sqrt (float_of_nat (dot a a)) * PrimFloat.sqrt (float_of_nat (dot b b))))%float.

(** The count the entry [i] has for [gram] at gram size [g]. *)
Definition countAt (names : list string) (i g : nat) (gram : string) : nat :=
  match names !! i with
  | Some n => weighted (at_ gram) (_gramCounter n g)
  | None => 0
  end.

(** The posting lists hold, for each gram and entry, what the entry's gram
    counters hold, summed over the configured gram sizes. *)
Definition postingsExact (st : FuzzySearch) (names : list string) : Prop :=
  ∀ gram i,
    weightAt i (default [] (matchDict st !! gram))
    = sum_list_with (λ g, countAt names i g gram)
                    (gramSizes (gramSizeLower st) (gramSizeUpper st)).

(** A result as cosine search would give it at gram size [g]: an original
    string of the catalog that shares a countable gram with the query, with
    the cosine of the two gram-count vectors as score, at least
    [minMatchScore]. *)
Definition cosineMatch (st : FuzzySearch) (value : string) (g : nat) (minMatchScore : float)
    (r : Result) : Prop :=
  ∃ original,
    snd r = Some original
    ∧ exactSet st !! Str.toLowerCase original = Some original
    ∧ 0 < dot (_iterateGrams value g) (_iterateGrams original g)
    ∧ fst r = cosine (_iterateGrams value g) (_iterateGrams original g)
    ∧ geb (fst r) minMatchScore = true.

(** The three entries of [abIndex], without edit-distance refinement. *)
Definition plainIndex : FuzzySearch :=
  Eval vm_compute in orEmpty (FuzzySet ["ac"; "cb"; "abzzzzzzzz"] (Some false) None None).

(** Fifty-one strings with the same grams: ["ab"] between the blocks [p],
    [q], [r], [s], [t] in fifty-one different orders. *)
Definition blocks51 : list string :=
  map (λ p, fold_right (λ b acc, "ab" +:+ b +:+ acc) "ab" p)
      (take 51 (permutations ["p"; "q"; "r"; "s"; "t"])).

(** Whether [get] returned the original string [w] among its results. *)
Definition returnsWord {D} (r : outcome (GetResult D)) (w : string) : bool :=
  match r with
  | Ret (Results rs) => existsb (λ r, bool_decide (snd r = Some w)) rs
  | _ => false
  end.

(** * Properties *)

(** ** Lower-casing *)

Lemma lower_char_idem c : Str.lower_char (Str.lower_char c) = Str.lower_char c.
Proof. destruct c as [[] [] [] [] [] [] [] []]; reflexivity. Qed.

Lemma toLowerCase_idem s : Str.toLowerCase (Str.toLowerCase s) = Str.toLowerCase s.
Proof. induction s as [|c s IH]; simpl; [done|]. by rewrite lower_char_idem, IH. Qed.

Lemma toLowerCase_length s : String.length (Str.toLowerCase s) = String.length s.
Proof. induction s as [|c s IH]; simpl; congruence. Qed.

(** ** The fall-back across gram sizes *)

Lemma gramSizes_elem lower upper g : g ∈ gramSizes lower upper ↔ lower ≤ g ≤ upper.
Proof. unfold gramSizes. rewrite elem_of_seq. lia. Qed.

Lemma gramSizesDown_elem lower upper g : g ∈ gramSizesDown lower upper ↔ lower ≤ g ≤ upper.
Proof. unfold gramSizesDown. rewrite elem_of_reverse. apply gramSizes_elem. Qed.

Lemma gramSizesDown_cons lower upper :
  lower ≤ upper →
  gramSizesDown lower upper
  = upper :: match upper with 0 => [] | S u => gramSizesDown lower u end.
Proof.
  intros H. unfold gramSizesDown, gramSizes.
  replace (S upper - lower) with (S (upper - lower)) by lia.
  rewrite seq_S, reverse_app. simpl. f_equal; [f_equal; lia|].
  destruct upper as [|u]; [|done].
  replace lower with 0 by lia. done.
Qed.

Lemma gramSizesDown_lookup lower upper i g :
  gramSizesDown lower upper !! i = Some g → g = upper - i ∧ lower ≤ g.
Proof.
  unfold gramSizesDown, gramSizes. intros H.
  assert (Hi : i < S upper - lower).
  { apply lookup_lt_Some in H. by rewrite length_reverse, length_seq in H. }
  rewrite reverse_lookup in H by (by rewrite length_seq).
  rewrite length_seq in H. apply lookup_seq in H. lia.
Qed.

Lemma _getLoop_Some st value m sizes rs :
  _getLoop st value m sizes = Ret (Some rs) ↔
  rs ≠ [] ∧ ∃ before g after_,
    sizes = before ++ g :: after_ ∧
    __get st value g m = Ret (Some rs) ∧
    ∀ g', g' ∈ before → nothing (__get st value g' m).
Proof.
  induction sizes as [|g sizes IH]; simpl.
  - split; [done|]. intros (_ & before & g & a & H & _). by destruct before.
  - destruct (__get st value g m) as [[[|r rs']|]|e] eqn:E; simpl.
    + rewrite IH. split.
      * intros (Hne & before & g' & a & -> & Hg & Hb). split; [done|].
        exists (g :: before), g', a. split_and!; [done..|].
        intros g0 [->|?]%elem_of_cons; [right; done|auto].
      * intros (Hne & before & g' & a & Heq & Hg & Hb). split; [done|].
        destruct before as [|b before]; simplify_eq/=; [congruence|].
        exists before, g', a. split_and!; [done..|].
        intros g0 ?. apply Hb. by right.
    + split.
      * intros [= <-]. split; [done|]. exists [], g, sizes. split_and!; [done..|].
        intros ? []%elem_of_nil.
      * intros (Hne & before & g' & a & Heq & Hg & Hb).
        destruct before as [|b before]; simplify_eq/=; [congruence|].
        destruct (Hb b) as [?|?]; [by left|congruence..].
    + rewrite IH. split.
      * intros (Hne & before & g' & a & -> & Hg & Hb). split; [done|].
        exists (g :: before), g', a. split_and!; [done..|].
        intros g0 [->|?]%elem_of_cons; [left; done|auto].
      * intros (Hne & before & g' & a & Heq & Hg & Hb). split; [done|].
        destruct before as [|b before]; simplify_eq/=; [congruence|].
        exists before, g', a. split_and!; [done..|].
        intros g0 ?. apply Hb. by right.
    + split; [done|].
      intros (Hne & before & g' & a & Heq & Hg & Hb).
      destruct before as [|b before]; simplify_eq/=; [congruence|].
      destruct (Hb b) as [?|?]; [by left|congruence..].
Qed.

Lemma _getLoop_None st value m sizes :
  _getLoop st value m sizes = Ret None ↔
  ∀ g, g ∈ sizes → nothing (__get st value g m).
Proof.
  induction sizes as [|g sizes IH]; simpl.
  - split; [|done]. intros _ ? []%elem_of_nil.
  - destruct (__get st value g m) as [[[|r rs']|]|e] eqn:E; simpl.
    + rewrite IH. split.
      * intros H g0 [->|?]%elem_of_cons; [right; done|auto].
      * intros H g0 ?. apply H. by right.
    + split; [done|]. intros H. destruct (H g) as [?|?]; [by left|congruence..].
    + rewrite IH. split.
      * intros H g0 [->|?]%elem_of_cons; [left; done|auto].
      * intros H g0 ?. apply H. by right.
    + split; [done|]. intros H. destruct (H g) as [?|?]; [by left|congruence..].
Qed.

Lemma gramSizesDown_before lower upper before g after_ :
  gramSizesDown lower upper = before ++ g :: after_ →
  lower ≤ g ≤ upper ∧ ∀ g', g' ∈ before ↔ g < g' ≤ upper.
Proof.
  intros Heq.
  assert (Hg : gramSizesDown lower upper !! length before = Some g).
  { rewrite Heq. by rewrite list_lookup_middle. }
  assert (Hlen : length before < S upper - lower).
  { apply lookup_lt_Some in Hg.
    by unfold gramSizesDown, gramSizes in Hg; rewrite length_reverse, length_seq in Hg. }
  apply gramSizesDown_lookup in Hg as [-> Hl]. split; [lia|].
  intros g'. split.
  - intros (j & Hj)%list_elem_of_lookup.
    assert (j < length before) by (by eapply lookup_lt_Some).
    assert (Hj' : gramSizesDown lower upper !! j = Some g').
    { rewrite Heq. by rewrite lookup_app_l. }
    apply gramSizesDown_lookup in Hj' as [-> _]. lia.
  - intros Hg'.
    assert (Hin : g' ∈ gramSizesDown lower upper) by (apply gramSizesDown_elem; lia).
    apply list_elem_of_lookup in Hin as (j & Hj).
    pose proof Hj as [-> _]%gramSizesDown_lookup.
    assert (j < length before) by lia.
    rewrite Heq, lookup_app_l in Hj by done.
    by eapply list_elem_of_lookup_2.
Qed.

Lemma gramSizesDown_split lower upper g :
  lower ≤ g ≤ upper →
  gramSizesDown lower upper
  = reverse (seq (S g) (upper - g)) ++ g :: reverse (seq lower (g - lower)).
Proof.
  intros H. unfold gramSizesDown, gramSizes.
  replace (S upper - lower) with ((g - lower) + S (upper - g)) by lia.
  rewrite seq_app, reverse_app. simpl seq. rewrite reverse_cons, <- app_assoc.
  replace (lower + (g - lower)) with g by lia. done.
Qed.

(** C1, as amended: [_get] walks the gram sizes from [gramSizeUpper] down to
    [gramSizeLower] and answers with the result list of the first gram size
    at which [__get] returns a non-empty list, that is, at which a candidate
    is left after refinement and the threshold filter.  A gram size whose
    candidates the threshold filter removed altogether is passed over like
    one without candidates, and the answer is [null] exactly when every
    configured gram size ends in one of these two ways. *)
Theorem C1_get_falls_back_until_a_result_survives st value m :
  (∀ rs, _get st value m = Ret (Some rs) ↔
         rs ≠ [] ∧
         ∃ g, gramSizeLower st ≤ g ≤ gramSizeUpper st ∧
              __get st value g m = Ret (Some rs) ∧
              ∀ g', g < g' ≤ gramSizeUpper st → nothing (__get st value g' m))
  ∧ (_get st value m = Ret None ↔
     ∀ g, gramSizeLower st ≤ g ≤ gramSizeUpper st → nothing (__get st value g m)).
Proof.
  unfold _get. split.
  - intros rs. rewrite _getLoop_Some. split.
    + intros (Hne & before & g & a & Heq & Hg & Hb). split; [done|].
      apply gramSizesDown_before in Heq as [Hr Hbefore].
      exists g. split; [done|]. split; [done|]. intros g' Hg'. by apply Hb, Hbefore.
    + intros (Hne & g & Hr & Hg & Hb). split; [done|].
      eexists _, g, _. split; [by apply gramSizesDown_split|]. split; [done|].
      intros g' Hin. apply Hb.
      apply elem_of_reverse, elem_of_seq in Hin. lia.
  - rewrite _getLoop_None. split.
    + intros H g Hg. by apply H, gramSizesDown_elem.
    + intros H g Hg. by apply H, gramSizesDown_elem.
Qed.

(** C1 as stated fails: at gram size 3 the query ["ab"] has a candidate,
    ["abzzzzzzzz"], which the threshold 0.375 removes; the claim makes the
    answer that empty list, while [_get] goes on to gram size 2 and answers
    with the two entries found there. *)
Lemma C1_counterexample :
  (st ← abIndex; __get st "ab" 3 0.375) = Ret (Some [])
  ∧ (st ← abIndex; specGet st "ab" 0.375) = Ret (Some [])
  ∧ (st ← abIndex; _get st "ab" 0.375)
    = Ret (Some [(0.5%float, Some "ac"); (0.5%float, Some "cb")]).
Proof. vm_compute. done. Qed.

(** ** Doubles *)

Lemma SFleb_trans x y z : SFleb x y = true → SFleb y z = true → SFleb x z = true.
Proof.
  unfold SFleb, SFcompare.
  destruct x as [sx|sx| |sx mx ex], y as [sy|sy| |sy my ey], z as [sz|sz| |sz mz ez];
    repeat match goal with b : bool |- _ => destruct b end; try (simpl; congruence);
    intros H1 H2;
    destruct (Z.compare_spec ex ey), (Z.compare_spec ey ez); try discriminate; subst;
    rewrite ?Z.compare_refl;
    try match goal with |- context [(?a ?= ?b)%Z] =>
      destruct (Z.compare_spec a b); try lia end; try reflexivity; subst;
    rewrite ?Pos.compare_cont_spec in *; simpl in *;
    repeat match goal with H : context [(?a ?= ?b)%positive] |- _ =>
      destruct (Pos.compare_spec a b); simpl in H; try discriminate end;
    repeat match goal with |- context [(?a ?= ?b)%positive] =>
      destruct (Pos.compare_spec a b); simpl; try lia end; try reflexivity; try lia.
Qed.

Lemma geb_weaken m1 m2 score :
  (m1 <=? m2)%float = true → geb score m2 = true → geb score m1 = true.
Proof. unfold geb. rewrite !FloatAxioms.leb_spec. apply SFleb_trans. Qed.

(** ** The threshold *)

Lemma filter_length_mono {A} (P Q : A → Prop) `{!∀ x, Decision (P x)} `{!∀ x, Decision (Q x)}
    (l : list A) :
  (∀ x, P x → Q x) → length (filter P l) ≤ length (filter Q l).
Proof.
  intros HPQ. induction l as [|x l IH]; [done|].
  rewrite !filter_cons. destruct (decide (P x)) as [HP|HP].
  - rewrite decide_True by auto. simpl. lia.
  - destruct (decide (Q x)); simpl; lia.
Qed.

Lemma __get_count_mono st value g m1 m2 :
  (m1 <=? m2)%float = true →
  resultCount (__get st value g m2) ≤ resultCount (__get st value g m1).
Proof.
  intros Hm. unfold __get.
  destruct (collectMatches _ _ _) as [[s matches]|e]; simpl; [|done].
  case_bool_decide; simpl; [done|].
  destruct (scoreMatches _ _ _) as [results|e]; simpl; [|done].
  destruct (refine _ _ _) as [refined|e]; simpl; [|done].
  unfold finalResults. rewrite !length_map.
  apply filter_length_mono. intros r. by apply geb_weaken.
Qed.

Lemma _getLoop_single st value m g :
  resultCount (_getLoop st value m [g]) = resultCount (__get st value g m).
Proof. simpl. by destruct (__get st value g m) as [[[|r rs]|]|e]. Qed.

Lemma get_count {D} st value (d : option D) m :
  getCount (get st value d (Some m)) = resultCount (_get st value m).
Proof.
  unfold get. simpl. destruct (_get st value m) as [[rs|]|e]; simpl; [done| |done].
  by destruct d.
Qed.

(** C2, as amended: at every single gram size, raising [minMatchScore]
    never increases the number of results [__get] returns, and so [get] as a
    whole is monotone when the index has one gram size
    ([gramSizeLower = gramSizeUpper]).  Across several gram sizes it is not:
    a threshold that empties the list of a larger gram size sends [get] on to
    a smaller one, which may hold more results. *)
Theorem C2_threshold_monotone_at_one_gram_size st value m1 m2 :
  (m1 <=? m2)%float = true →
  (∀ g, resultCount (__get st value g m2) ≤ resultCount (__get st value g m1))
  ∧ (gramSizeLower st = gramSizeUpper st →
     ∀ D (d : option D),
       getCount (get st value d (Some m2)) ≤ getCount (get st value d (Some m1))).
Proof.
  intros Hm. split; [intros g; by apply __get_count_mono|].
  intros Heq D d. rewrite !get_count. unfold _get.
  rewrite Heq, gramSizesDown_cons by done.
  replace (match gramSizeUpper st with 0 => [] | S u => gramSizesDown (gramSizeUpper st) u end)
    with (@nil nat).
  - rewrite !_getLoop_single. by apply __get_count_mono.
  - destruct (gramSizeUpper st) as [|u]; [done|].
    unfold gramSizesDown, gramSizes. by replace (S u - S u) with 0 by lia.
Qed.

(** C2 as stated fails: on the index of ["ac"], ["cb"] and ["abzzzzzzzz"]
    the query ["ab"] has one result at the threshold 0.125 and two at the
    higher threshold 0.375. *)
Lemma C2_counterexample :
  (0.125 <=? 0.375)%float = true
  ∧ getCount (st ← abIndex; get (D := unit) st "ab" None (Some 0.125%float)) = 1
  ∧ getCount (st ← abIndex; get (D := unit) st "ab" None (Some 0.375%float)) = 2.
Proof. vm_compute. done. Qed.

Lemma C2_witness :
  (∀ g, resultCount (__get bigramIndex "ab" g 0.375) ≤ resultCount (__get bigramIndex "ab" g 0.125))
  ∧ (gramSizeLower bigramIndex = gramSizeUpper bigramIndex →
     ∀ D (d : option D),
       getCount (get bigramIndex "ab" d (Some 0.375%float))
       ≤ getCount (get bigramIndex "ab" d (Some 0.125%float))).
Proof.
  apply (C2_threshold_monotone_at_one_gram_size bigramIndex "ab" 0.125 0.375). reflexivity.
Defined.

(** ** Case *)

Lemma _getLoop_ext st value value' m sizes :
  (∀ g, __get st value g m = __get st value' g m) →
  _getLoop st value m sizes = _getLoop st value' m sizes.
Proof. intros H. induction sizes as [|g sizes IH]; simpl; [done|]. by rewrite H, IH. Qed.

(** C10: a query and its lower-cased form have the same answer, in every
    index state, with every default value and every threshold. *)
Theorem C10_get_ignores_case {D} st value (defaultValue : option D) minMatchScore :
  get st value defaultValue minMatchScore
  = get st (Str.toLowerCase value) defaultValue minMatchScore.
Proof.
  unfold get, _get. f_equal. apply _getLoop_ext. intros g.
  unfold __get, _normalizeStr. by rewrite toLowerCase_idem.
Qed.

(** ** No result *)

Lemma get_no_result {D} st value (d : option D) m :
  _get st value (default defaultMinMatchScore m) = Ret None →
  get st value d m = Ret (match d with Some d => Default d | None => Null end).
Proof. unfold get. intros ->. by destruct d. Qed.

Lemma emptyIndex_isEmpty useLev lower upper :
  isEmpty (emptyIndex useLev lower upper) = true ∧ length_ (emptyIndex useLev lower upper) = 0.
Proof. done. Qed.

(** C9, where the code parts from it: on a fresh index whose gram size is
    11, the query ["constructor"] has the gram ["constructor"], a name every
    plain object inherits; [_gramCounter] and [__get] test it with [in], take
    the inherited function for a count and for a posting list, and the query
    ends in a [TypeError]. *)
Theorem C9_inherited_gram_throws :
  isEmpty elevenIndex = true ∧ length_ elevenIndex = 0
  ∧ get (D := unit) elevenIndex "constructor" None None = Throw TypeError.
Proof. vm_compute. done. Qed.

(** ** The character filter *)

Lemma plus_eol cl i rest :
  Regex.plus cl (Regex.match_at [Regex.Eol]) i rest
  = if negb (bool_decide (rest = "")) && Str.forall_chars (λ c, negb (Regex.in_class cl c)) rest
    then Some (String.length rest) else None.
Proof.
  revert i. induction rest as [|c rest IH]; intros i; [done|].
  simpl. destruct (Regex.in_class cl c); [done|]. simpl.
  rewrite IH. destruct rest as [|c' rest]; [done|].
  simpl. by destruct (negb (Regex.in_class cl c') && _).
Qed.

Lemma match_at_nonWord i rest :
  Regex.match_at _nonWordRe i rest
  = if (i =? 0) && negb (bool_decide (rest = "")) && Str.forall_chars outside rest
    then Some (String.length rest) else None.
Proof.
  unfold _nonWordRe. cbn [Regex.match_at]. destruct (i =? 0); [|done].
  by rewrite plus_eol.
Qed.

Lemma replace_from_later fuel i rest :
  0 < i → String.length rest < fuel →
  Regex.replace_from fuel _nonWordRe "" i rest = rest.
Proof.
  revert i rest. induction fuel as [|fuel IH]; intros i rest Hi Hlen; [lia|].
  cbn [Regex.replace_from]. rewrite match_at_nonWord.
  replace (i =? 0) with false by (symmetry; apply Nat.eqb_neq; lia). simpl.
  destruct rest as [|c rest]; [done|]. simpl in Hlen.
  rewrite IH by lia. done.
Qed.

Lemma drop_all s : Str.drop (String.length s) s = "".
Proof. by induction s. Qed.

Lemma replace_nonWord s : Regex.replace _nonWordRe "" s = stripped s.
Proof.
  unfold Regex.replace, stripped. cbn [Regex.replace_from].
  rewrite match_at_nonWord. simpl (0 =? 0). cbn [andb].
  destruct (negb (bool_decide (s = "")) && Str.forall_chars outside s) eqn:E.
  - destruct s as [|c s]; [done|].
    cbn [String.length]. change (Str.drop (S (String.length s)) (String c s))
      with (Str.drop (String.length s) s).
    rewrite drop_all. cbn [Regex.replace_from]. rewrite match_at_nonWord. done.
  - destruct s as [|c s]; [done|].
    rewrite replace_from_later by (simpl; lia). done.
Qed.

(** C3, as amended: the normalization applied before gram extraction
    lower-cases the string and then removes characters outside the allowed
    set only when the whole string consists of them, leaving the empty
    string; in every other case the lower-cased string is kept as it is, a
    run of such characters at its start or at its end included. *)
Theorem C3_filter_removes_all_or_nothing raw :
  simplify raw = "-" +:+ stripped (Str.toLowerCase raw) +:+ "-"
  ∧ (stripped (Str.toLowerCase raw) = "" ∨ stripped (Str.toLowerCase raw) = Str.toLowerCase raw)
  ∧ (stripped (Str.toLowerCase raw) = "" ↔
     ∀ c, c ∈ list_ascii_of_string (Str.toLowerCase raw) → outside c = true).
Proof.
  split; [unfold simplify; by rewrite replace_nonWord|].
  generalize (Str.toLowerCase raw). intros s. unfold stripped. split.
  - destruct (_ && _); auto.
  - induction s as [|c s IH]; [split; [intros _ ? []%elem_of_nil|done]|].
    change (negb (bool_decide (String c s = ""))) with true. cbn [andb Str.forall_chars].
    destruct (outside c) eqn:Ec; cbn [andb].
    + destruct s as [|c' s].
      * simpl. split; [|done]. intros _ c0 ->%list_elem_of_singleton. done.
      * change (negb (bool_decide (String c' s = ""))) with true in IH. cbn [andb] in IH.
        destruct (Str.forall_chars outside (String c' s)) eqn:Ef.
        -- split; [|done]. intros _ c0 [->|?]%elem_of_cons; [done|]. by apply IH.
        -- split; [done|]. intros H.
           assert (String c' s = "") as [=]. apply IH. intros c0 ?. apply H. by right.
    + split; [done|]. intros H. specialize (H c). rewrite Ec in H.
      discriminate H. by left.
Qed.

(** C3 as stated fails: the two leading exclamation marks of ["!!abc"] stay. *)
Lemma C3_counterexample :
  specNormalize "!!abc" = "abc"
  ∧ Regex.replace _nonWordRe "" (Str.toLowerCase "!!abc") = "!!abc"
  ∧ _iterateGrams "!!abc" 2 = ["-!"; "!!"; "!a"; "ab"; "bc"; "c-"].
Proof. vm_compute. done. Qed.

(** ** Edit distance: the reference *)

Section Edit.
Context {A : Type} `{!EqDecision A}.

Lemma lev_nil_r (a : list A) : lev a [] = length a.
Proof. by destruct a. Qed.

Lemma lev_cons (x : A) (a : list A) (y : A) (b : list A) :
  lev (x :: a) (y :: b)
  = if decide (x = y) then lev a b
    else S (Nat.min (Nat.min (lev (x :: a) b) (lev a (y :: b))) (lev a b)).
Proof. done. Qed.

Lemma lev_refl (a : list A) : lev a a = 0.
Proof. induction a as [|x a IH]; [done|]. by rewrite lev_cons, decide_True. Qed.

Lemma edit1_cons (x : A) (a b : list A) : edit1 a b → edit1 (x :: a) (x :: b).
Proof.
  intros [pre y post|pre y post|pre y z post].
  - apply (edit1_insert (x :: pre)).
  - apply (edit1_delete (x :: pre)).
  - apply (edit1_subst (x :: pre)).
Qed.

Lemma edits_cons n (x : A) (a b : list A) : edits n a b → edits n (x :: a) (x :: b).
Proof.
  induction 1 as [a|n a b c H1 _ IH]; [constructor|].
  eapply edits_step; [by apply edit1_cons|done].
Qed.

Lemma edits_insert_all (b : list A) : edits (length b) [] b.
Proof.
  induction b as [|y b IH]; [constructor|]. simpl.
  eapply edits_step; [apply (edit1_insert [] y [])|]. by apply edits_cons.
Qed.

Lemma edits_delete_all (a : list A) : edits (length a) a [].
Proof.
  induction a as [|x a IH]; [constructor|]. simpl.
  eapply edits_step; [apply (edit1_delete [] x a)|]. done.
Qed.

(** [lev a b] edits lead from [a] to [b]. *)
Lemma lev_edits (a b : list A) : edits (lev a b) a b.
Proof.
  revert b. induction a as [|x a IHa]; intros b; [apply edits_insert_all|].
  induction b as [|y b IHb]; [rewrite lev_nil_r; apply edits_delete_all|].
  rewrite lev_cons. destruct (decide (x = y)) as [->|Hxy]; [by apply edits_cons|].
  destruct (Nat.min_spec (lev (x :: a) b) (lev a (y :: b))) as [[_ ->]|[_ ->]];
    [destruct (Nat.min_spec (lev (x :: a) b) (lev a b)) as [[_ ->]|[_ ->]]
    |destruct (Nat.min_spec (lev a (y :: b)) (lev a b)) as [[_ ->]|[_ ->]]].
  - eapply edits_step; [apply (edit1_insert [] y (x :: a))|]. by apply edits_cons.
  - eapply edits_step; [apply (edit1_subst [] x y a)|]. by apply edits_cons.
  - eapply edits_step; [apply (edit1_delete [] x a)|]. apply IHa.
  - eapply edits_step; [apply (edit1_subst [] x y a)|]. by apply edits_cons.
Qed.

(** One character more or less on either side moves [lev] by at most one. *)
Lemma lev_lipschitz n (a c : list A) :
  length a + length c ≤ n →
  (∀ x, lev a c ≤ S (lev (x :: a) c)) ∧ (∀ y, lev a c ≤ S (lev a (y :: c)))
  ∧ (∀ x, lev (x :: a) c ≤ S (lev a c)) ∧ (∀ y, lev a (y :: c) ≤ S (lev a c)).
Proof.
  revert a c. induction n as [|n IH]; intros a c Hn.
  { destruct a, c; simpl in Hn; try lia. repeat split; intros; simpl; lia. }
  assert (H3 : ∀ x, lev (x :: a) c ≤ S (lev a c)).
  { intros x. destruct c as [|y c]; [rewrite !lev_nil_r; simpl; lia|].
    rewrite lev_cons. destruct (decide (x = y)); [|lia].
    apply (IH a c). simpl in Hn. lia. }
  assert (H4 : ∀ y, lev a (y :: c) ≤ S (lev a c)).
  { intros y. destruct a as [|x a]; [simpl; lia|].
    rewrite lev_cons. destruct (decide (x = y)); [|lia].
    apply (IH a c). simpl in Hn. lia. }
  split_and!; [| |done..].
  - intros x. destruct c as [|y c]; [rewrite !lev_nil_r; simpl; lia|].
    rewrite lev_cons. simpl in Hn.
    destruct (IH a c ltac:(lia)) as (I1 & I2 & I3 & I4).
    destruct (decide (x = y)); [apply I4|].
    specialize (I1 x). specialize (I4 y). lia.
  - intros y. destruct a as [|x a]; [simpl; lia|].
    rewrite lev_cons. simpl in Hn.
    destruct (IH a c ltac:(lia)) as (I1 & I2 & I3 & I4).
    destruct (decide (x = y)); [apply I3|].
    specialize (I2 y). specialize (I3 x). lia.
Qed.

Lemma lev_subst_head (x y : A) (a c : list A) : lev (x :: a) c ≤ S (lev (y :: a) c).
Proof.
  induction c as [|z c IH]; [rewrite !lev_nil_r; simpl; lia|].
  destruct (lev_lipschitz _ a c (Nat.le_refl _)) as (I1 & I2 & I3 & I4).
  destruct (lev_lipschitz _ a (z :: c) (Nat.le_refl _)) as (J1 & J2 & J3 & J4).
  specialize (I4 z). specialize (J3 x).
  assert (lev (x :: a) (z :: c) ≤ S (lev a c)).
  { rewrite lev_cons. destruct (decide (x = z)); lia. }
  assert (lev (x :: a) (z :: c) ≤ S (lev (x :: a) c)).
  { destruct (lev_lipschitz _ (x :: a) c (Nat.le_refl _)) as (_ & _ & _ & K4). apply K4. }
  rewrite (lev_cons y). destruct (decide (y = z)); lia.
Qed.

Lemma lev_cons_mono (z : A) (a b : list A) :
  (∀ c, lev a c ≤ S (lev b c)) → ∀ c, lev (z :: a) c ≤ S (lev (z :: b) c).
Proof.
  intros H c. induction c as [|w c IH].
  - rewrite !lev_nil_r. specialize (H []). rewrite !lev_nil_r in H. simpl. lia.
  - rewrite !lev_cons. pose proof (H c). pose proof (H (w :: c)).
    destruct (decide (z = w)); lia.
Qed.

Lemma lev_edit1 (a b : list A) : edit1 a b → ∀ c, lev a c ≤ S (lev b c).
Proof.
  intros [pre x post|pre x post|pre x y post]; (induction pre as [|z pre IH]; simpl;
    [intros c; destruct (lev_lipschitz _ post c (Nat.le_refl _)) as (I1 & I2 & I3 & I4)
    |by apply lev_cons_mono]).
  - apply I1.
  - apply I3.
  - apply lev_subst_head.
Qed.

(** No sequence of edits from [a] to [b] is shorter than [lev a b]. *)
Lemma lev_least n (a b : list A) : edits n a b → lev a b ≤ n.
Proof.
  induction 1 as [a|n a b c H1 _ IH]; [by rewrite lev_refl|].
  pose proof (lev_edit1 a b H1 c). lia.
Qed.

Lemma lev_isLevenshtein (a b : list A) : isLevenshtein a b (lev a b).
Proof. split; [apply lev_edits|intros n; apply lev_least]. Qed.

Lemma edit1_reverse (a b : list A) : edit1 a b → edit1 (reverse a) (reverse b).
Proof.
  intros [pre x post|pre x post|pre x y post];
    rewrite ?reverse_app, ?reverse_cons, <- ?app_assoc; simpl; constructor.
Qed.

Lemma edits_reverse n (a b : list A) : edits n a b → edits n (reverse a) (reverse b).
Proof.
  induction 1 as [a|n a b c H1 _ IH]; [constructor|].
  eapply edits_step; [by apply edit1_reverse|done].
Qed.

Lemma isLevenshtein_reverse (a b : list A) d :
  isLevenshtein (reverse a) (reverse b) d → isLevenshtein a b d.
Proof.
  intros [H1 H2]. split.
  - apply edits_reverse in H1. by rewrite !reverse_involutive in H1.
  - intros n Hn. by apply H2, edits_reverse.
Qed.

End Edit.

(** ** Edit distance: the rolling row *)

Lemma string_get_lookup s j : String.get j s = list_ascii_of_string s !! j.
Proof. revert j. induction s as [|c s IH]; intros [|j]; simpl; auto. Qed.

Lemma string_length_list s : String.length s = length (list_ascii_of_string s).
Proof. induction s; simpl; auto. Qed.

Section Rows.
Variables str1 str2 : string.
Let l1 := list_ascii_of_string str1.
Let l2 := list_ascii_of_string str2.
Let n := length l1.

(** [table i j]: the distance between the first [j] characters of [str1]
    and the first [i] characters of [str2]. *)
Let table (i j : nat) : nat := lev (reverse (take j l1)) (reverse (take i l2)).

(** The array while row [i] is written: columns up to [k] hold row [i], the
    others still hold row [i - 1]. *)
Let mixed (i k : nat) : list nat :=
  map (λ j, if j <=? k then table i j else table (i - 1) j) (seq 0 (S n)).

Let row (i : nat) : list nat := map (table i) (seq 0 (S n)).

Lemma reverse_take_S {X} (l : list X) j x :
  l !! j = Some x → reverse (take (S j) l) = x :: reverse (take j l).
Proof. intros H. by rewrite (take_S_r _ _ _ H), reverse_app. Qed.

Lemma table_0_l j : j ≤ n → table 0 j = j.
Proof.
  intros H. unfold table. change (reverse (take 0 l2)) with (@nil ascii).
  rewrite lev_nil_r, length_reverse, length_take. lia.
Qed.

Lemma table_0_r i : i ≤ length l2 → table i 0 = i.
Proof.
  intros H. unfold table. change (reverse (take 0 l1)) with (@nil ascii).
  simpl. rewrite length_reverse, length_take. lia.
Qed.

Lemma table_step i j :
  i < length l2 → j < n →
  table (S i) (S j)
  = if bool_decide (String.get j str1 = String.get i str2) then table i j
    else Nat.min (Nat.min (table i (S j)) (table (S i) j)) (table i j) + 1.
Proof.
  intros Hi Hj. rewrite !string_get_lookup. fold l1 l2.
  destruct (lookup_lt_is_Some_2 l1 j Hj) as [x Hx].
  destruct (lookup_lt_is_Some_2 l2 i Hi) as [y Hy].
  rewrite Hx, Hy. unfold table.
  rewrite (reverse_take_S _ _ _ Hx), (reverse_take_S _ _ _ Hy), lev_cons.
  destruct (decide (x = y)) as [->|Hne].
  - by rewrite bool_decide_true.
  - rewrite bool_decide_false by congruence. lia.
Qed.

Lemma mixed_lookup i k j :
  j ≤ n → mixed i k !!! j = if j <=? k then table i j else table (i - 1) j.
Proof.
  intros Hj. apply list_lookup_total_correct. unfold mixed.
  rewrite list_lookup_fmap, lookup_seq_lt by lia. done.
Qed.

Lemma mixed_full i : mixed i n = row i.
Proof.
  unfold mixed, row. apply map_ext_in. intros j [_ Hj]%in_seq.
  destruct (Nat.leb_spec j n); [done|lia].
Qed.

Lemma mixed_start i : 0 < i ≤ length l2 → <[0 := i]> (row (i - 1)) = mixed i 0.
Proof.
  intros Hi. unfold row, mixed. simpl. f_equal; [by rewrite table_0_r by lia|].
  apply map_ext_in. intros j [Hj _]%in_seq.
  destruct (Nat.leb_spec j 0); [lia|done].
Qed.

Lemma mixed_insert i k :
  k < n → <[S k := table i (S k)]> (mixed i k) = mixed i (S k).
Proof.
  intros Hk. apply list_eq. intros j.
  destruct (decide (j = S k)) as [->|Hne].
  - rewrite list_lookup_insert_eq by (unfold mixed; rewrite length_map, length_seq; lia).
    unfold mixed. rewrite list_lookup_fmap, lookup_seq_lt by lia. simpl.
    by rewrite Nat.leb_refl.
  - rewrite list_lookup_insert_ne by done. unfold mixed.
    rewrite !list_lookup_fmap. destruct (seq 0 (S n) !! j) as [j'|] eqn:E; [|done].
    apply lookup_seq in E as [-> _]. simpl. f_equal.
    destruct (Nat.leb_spec j k), (Nat.leb_spec j (S k)); (done || lia).
Qed.

Lemma levInner_step i k :
  i < length l2 → k < n →
  levInner str1 str2 (S i) (table i k, mixed (S i) k) (S k)
  = (table i (S k), mixed (S i) (S k)).
Proof.
  intros Hi Hk. unfold levInner.
  rewrite !mixed_lookup by lia.
  replace (S k - 1) with k by lia. replace (S i - 1) with i by lia.
  rewrite Nat.leb_refl. replace (S k <=? k) with false by (symmetry; apply Nat.leb_gt; lia).
  rewrite <- table_step by done. by rewrite mixed_insert.
Qed.

Lemma levInner_fold i k :
  i < length l2 → k ≤ n →
  fold_left (levInner str1 str2 (S i)) (seq 1 k) (table i 0, mixed (S i) 0)
  = (table i k, mixed (S i) k).
Proof.
  intros Hi. induction k as [|k IH]; intros Hk; [done|].
  rewrite seq_S, fold_left_app, IH by lia. simpl. by apply levInner_step.
Qed.

Lemma levOuter_step i : i < length l2 → levOuter str1 str2 (row i) (S i) = row (S i).
Proof.
  intros Hi. unfold levOuter.
  replace (row i !!! 0) with (table i 0) by done.
  replace (<[0 := S i]> (row i)) with (mixed (S i) 0)
    by (rewrite <- mixed_start by lia; by replace (S i - 1) with i by lia).
  rewrite string_length_list. fold l1 n.
  rewrite levInner_fold by done. simpl. apply mixed_full.
Qed.

Lemma levOuter_fold i :
  i ≤ length l2 → fold_left (levOuter str1 str2) (seq 1 i) (row 0) = row i.
Proof.
  induction i as [|i IH]; intros Hi; [done|].
  rewrite seq_S, fold_left_app, IH by lia. simpl. by apply levOuter_step.
Qed.

Lemma levenshtein_lev : levenshtein str1 str2 = lev (reverse l1) (reverse l2).
Proof.
  unfold levenshtein. rewrite !string_length_list. fold l1 l2 n.
  replace (seq 0 (n + 1)) with (row 0).
  - rewrite levOuter_fold by done. unfold row.
    erewrite list_lookup_total_correct;
      [|rewrite list_lookup_fmap, lookup_seq_lt by lia; done].
    unfold table. by rewrite !take_ge by (unfold n; lia).
  - unfold row. replace (n + 1) with (S n) by lia.
    rewrite <- (map_id (seq 0 (S n))) at 2. apply map_ext_in.
    intros j [_ Hj]%in_seq. apply table_0_l. lia.
Qed.

End Rows.

(** C6: the rolling one-row table computes the Levenshtein distance, the
    least number of single-character insertions, deletions and substitutions
    that turn [a] into [b], and the similarity [_distance] returns for two
    strings is [1 - d / max(len a, len b)] for that distance [d]. *)
Theorem C6_distance_is_normalized_levenshtein a b :
  isLevenshtein (list_ascii_of_string a) (list_ascii_of_string b) (levenshtein a b)
  ∧ _distance (Some a) (Some b)
    = Ret (1 - float_of_nat (levenshtein a b)
               / float_of_nat (Nat.max (String.length a) (String.length b)))%float.
Proof.
  split.
  - rewrite levenshtein_lev. apply isLevenshtein_reverse, lev_isLevenshtein.
  - unfold _distance. destruct (Nat.ltb_spec (String.length b) (String.length a)).
    + by rewrite Nat.max_l by lia.
    + by rewrite Nat.max_r by lia.
Qed.

Lemma levenshtein_refl s : levenshtein s s = 0.
Proof. rewrite levenshtein_lev. apply lev_refl. Qed.

(** ** Loops that may throw *)

Lemma bind_Ret {X Y} (m : outcome X) (f : X → outcome Y) y :
  m ≫= f = Ret y → ∃ x, m = Ret x ∧ f x = Ret y.
Proof. destruct m as [x|e]; [|done]. intros H. by exists x. Qed.

Lemma forM_app {S X} (body : S → X → outcome S) st xs ys :
  forM body st (xs ++ ys) = (forM body st xs ≫= λ st', forM body st' ys).
Proof.
  revert st. induction xs as [|x xs IH]; intros st; simpl; [done|].
  destruct (body st x); simpl; [apply IH|done].
Qed.

(** An invariant of the loop holds after it, when every turn keeps it. *)
Lemma forM_invariant {S X} (body : S → X → outcome S) (P : list X → S → Prop) st xs st' :
  P [] st →
  (∀ done x todo s s',
     xs = done ++ x :: todo → P done s → body s x = Ret s' → P (done ++ [x]) s') →
  forM body st xs = Ret st' → P xs st'.
Proof.
  intros H0 Hstep.
  assert (Hgen : ∀ todo done s, xs = done ++ todo → P done s →
                 forM body s todo = Ret st' → P xs st').
  { induction todo as [|x todo IH]; intros done s Heq HP Hrun.
    - simpl in Hrun. injection Hrun as <-. rewrite app_nil_r in Heq. by subst.
    - simpl in Hrun. apply bind_Ret in Hrun as (s1 & Hb & Hrun).
      apply (IH (done ++ [x]) s1); [by rewrite <- app_assoc|by eapply Hstep|done]. }
  by apply (Hgen xs [] st).
Qed.

Lemma mapM_Ret {X Y} (f : X → outcome Y) xs ys :
  mapM f xs = Ret ys ↔ Forall2 (λ x y, f x = Ret y) xs ys.
Proof.
  revert ys. induction xs as [|x xs IH]; intros ys; simpl.
  - split; [intros [= <-]; constructor|by inversion 1].
  - split.
    + intros (y & Hy & H)%bind_Ret. apply bind_Ret in H as (ys' & Hys & [= <-]).
      constructor; [done|by apply IH].
    + inversion 1 as [|? y ? ys' Hy Hys]; subst. rewrite Hy. simpl.
      apply IH in Hys. by rewrite Hys.
Qed.

Lemma mapM_total {X Y} (f : X → outcome Y) xs :
  (∀ x, x ∈ xs → ∃ y, f x = Ret y) → ∃ ys, mapM f xs = Ret ys.
Proof.
  induction xs as [|x xs IH]; intros H; simpl; [by eexists|].
  destruct (H x) as [y ->]; [by left|]. simpl.
  destruct IH as [ys ->]; [intros; apply H; by right|]. by eexists.
Qed.

(** ** The order of [for..in] *)

Lemma insertIndex_perm {V} (x : N * (string * V)) l : Obj.insertIndex x l ≡ₚ x :: l.
Proof.
  induction l as [|y l IH]; simpl; [done|].
  destruct (_ <? _)%N; [done|]. by rewrite IH, Permutation_swap.
Qed.

Lemma sortIndex_perm {V} (l : list (N * (string * V))) : foldr Obj.insertIndex [] l ≡ₚ l.
Proof. induction l as [|x l IH]; simpl; [done|]. by rewrite insertIndex_perm, IH. Qed.

Lemma forIn_perm {V} (o : list (string * V)) : Obj.forIn o ≡ₚ o.
Proof.
  unfold Obj.forIn. rewrite sortIndex_perm. unfold Obj.indexProps.
  induction o as [|[k v] o IH]; [done|].
  rewrite filter_cons. cbn [omap list_omap fst].
  destruct (Obj.arrayIndex k) as [i|]; cbn [fmap option_fmap option_map map snd app].
  - rewrite decide_False by done. by rewrite IH.
  - rewrite decide_True by done. by rewrite <- Permutation_middle, IH.
Qed.

Lemma forIn_elem {V} (o : list (string * V)) kv : kv ∈ Obj.forIn o ↔ kv ∈ o.
Proof. by rewrite forIn_perm. Qed.

(** ** Sorting *)

Lemma insertSorted_perm {W} (x : float * W) l : insertSorted x l ≡ₚ x :: l.
Proof.
  induction l as [|y l IH]; simpl; [done|].
  destruct (after x y); [|done]. by rewrite IH, Permutation_swap.
Qed.

Lemma sortDesc_perm {W} (l : list (float * W)) : sortDesc l ≡ₚ l.
Proof. induction l as [|x l IH]; simpl; [done|]. by rewrite insertSorted_perm, IH. Qed.

Lemma sortDesc_length {W} (l : list (float * W)) : length (sortDesc l) = length l.
Proof. by rewrite sortDesc_perm. Qed.

(** ** Grams *)

Lemma string_length_app s t : String.length (s +:+ t) = String.length s + String.length t.
Proof. induction s as [|c s IH]; simpl; [done|]. by rewrite IH. Qed.

Lemma repeat_char_length c n : String.length (Str.repeat_char c n) = n.
Proof. induction n as [|n IH]; simpl; [done|]. by rewrite IH. Qed.

Lemma orTwo_pos g : 0 < orTwo g.
Proof. unfold orTwo. destruct (Nat.eqb_spec g 0); lia. Qed.

Lemma padTo_length g s : g ≤ String.length (padTo g s).
Proof. unfold padTo. rewrite string_length_app, repeat_char_length. lia. Qed.

(** Every string has a first gram, and it starts with the boundary marker. *)
Lemma _iterateGrams_head value gramSize :
  ∃ first rest, _iterateGrams value gramSize = String "-" first :: rest.
Proof.
  unfold _iterateGrams.
  pose proof (padTo_length (orTwo gramSize) (simplify value)) as Hlen.
  pose proof (orTwo_pos gramSize) as Hpos.
  destruct (String.length _ + 1 - orTwo gramSize) as [|k] eqn:E; [lia|].
  simpl. unfold Str.slice. simpl.
  destruct (orTwo gramSize) as [|g']; [lia|].
  replace (S g' - 0) with (S g') by lia. simpl. eauto.
Qed.

Lemma marker_not_inherited s : Obj.inherited (String "-" s) = false.
Proof.
  apply bool_decide_eq_false. intros H. unfold Obj.prototypeKeys in H.
  repeat (apply elem_of_cons in H as [H|H]; [discriminate H|]).
  by apply elem_of_nil in H.
Qed.

(** ** Gram counters *)

Lemma lookupA_setA_eq {V} (o : list (string * V)) k v : Obj.lookupA (Obj.setA o k v) k = Some v.
Proof.
  induction o as [|[k' v'] o IH]; simpl; [by rewrite bool_decide_true|].
  case_bool_decide; simpl; [by rewrite bool_decide_true|]. by rewrite bool_decide_false.
Qed.

Lemma lookupA_setA_ne {V} (o : list (string * V)) k k' v :
  k ≠ k' → Obj.lookupA (Obj.setA o k v) k' = Obj.lookupA o k'.
Proof.
  intros Hne. induction o as [|[k0 v0] o IH]; simpl; [by rewrite bool_decide_false|].
  case_bool_decide; simpl; [subst; by rewrite !bool_decide_false|].
  by rewrite IH.
Qed.

Lemma lookupA_elem {V} (o : list (string * V)) k v : Obj.lookupA o k = Some v → (k, v) ∈ o.
Proof.
  induction o as [|[k0 v0] o IH]; simpl; [done|].
  case_bool_decide; [intros [= ->]; subst; by left|]. intros. right. auto.
Qed.

Lemma countGram_keeps result gram k c :
  Obj.lookupA result k = Some (Num c) →
  ∃ c', c ≤ c' ∧ Obj.lookupA (countGram result gram) k = Some (Num c').
Proof.
  intros Hk. unfold countGram. destruct (decide (gram = k)) as [->|Hne].
  - unfold Obj.hasA. rewrite Hk. rewrite bool_decide_true by eauto. simpl.
    exists (c + 1). split; [lia|]. apply lookupA_setA_eq.
  - destruct (Obj.hasA result gram).
    + destruct (Obj.lookupA result gram) as [[n|]|].
      * exists c. by rewrite lookupA_setA_ne.
      * by exists c.
      * case_bool_decide; exists c; [done|]. by rewrite lookupA_setA_ne.
    + exists c. by rewrite lookupA_setA_ne.
Qed.

Lemma countGrams_keep grams result k c :
  Obj.lookupA result k = Some (Num c) →
  ∃ c', c ≤ c' ∧ Obj.lookupA (fold_left countGram grams result) k = Some (Num c').
Proof.
  revert result c. induction grams as [|g grams IH]; intros result c Hk; simpl; [by exists c|].
  destruct (countGram_keeps result g k c Hk) as (c1 & Hc1 & Hk1).
  destruct (IH _ _ Hk1) as (c2 & Hc2 & Hk2). exists c2. split; [lia|done].
Qed.

(** The first gram of a string is counted, at least once. *)
Lemma _gramCounter_head value gramSize :
  ∃ gram c, 1 ≤ c ∧ (gram, Num c) ∈ _gramCounter value gramSize.
Proof.
  unfold _gramCounter.
  destruct (_iterateGrams_head value (orTwo gramSize)) as (first & rest & ->).
  cbn [fold_left].
  replace (countGram [] (String "-" first)) with [(String "-" first, Num 1)]
    by (unfold countGram, Obj.hasA; by rewrite marker_not_inherited).
  destruct (countGrams_keep rest [(String "-" first, Num 1)] (String "-" first) 1)
    as (c & Hc & Hk); [simpl; by rewrite bool_decide_true|].
  exists (String "-" first), c. split; [done|]. by apply lookupA_elem.
Qed.

Lemma sumSquares_elem gramCounts k c : (k, Num c) ∈ gramCounts → c ^ 2 ≤ sumSquares gramCounts.
Proof.
  induction gramCounts as [|kv o IH]; [by intros ?%elem_of_nil|].
  intros [<-|H]%elem_of_cons; unfold sumSquares; cbn [foldr snd countValue];
    fold (sumSquares o); [lia|]. specialize (IH H). lia.
Qed.

Lemma sumSquares_perm o o' : o ≡ₚ o' → sumSquares o = sumSquares o'.
Proof. induction 1; unfold sumSquares in *; cbn [foldr] in *; lia. Qed.

Lemma sumSquares_pos value gramSize : 1 ≤ sumSquares (_gramCounter value gramSize).
Proof.
  destruct (_gramCounter_head value gramSize) as (gram & c & Hc & Hin).
  apply sumSquares_elem in Hin. rewrite Nat.pow_2_r in Hin. nia.
Qed.

(** ** Insertion *)

Lemma addGram_Ret index s md gram cnt s' md' :
  addGram index (s, md) (gram, cnt) = Ret (s', md') →
  ∃ c, cnt = Num c ∧ s' = s + c ^ 2
       ∧ md' = <[gram := default [] (md !! gram) ++ [(index, c)]]> md.
Proof.
  unfold addGram. destruct cnt as [c|]; [|done]. unfold Obj.has, Obj.set.
  destruct (md !! gram) as [ps|] eqn:E; simpl.
  - intros [= <- <-]. by exists c.
  - destruct (Obj.inherited gram) eqn:Ei; [done|].
    rewrite bool_decide_false; [intros [= <- <-]; by exists c|].
    intros ->. done.
Qed.

Lemma forM_addGram index kvs s md s' md' :
  forM (addGram index) (s, md) kvs = Ret (s', md') →
  allNum kvs ∧ s' = s + sumSquares kvs
  ∧ (∀ gram ps, md !! gram = Some ps → ∃ ps', md' !! gram = Some ps' ∧ ps ⊆ ps')
  ∧ (∀ gram c, (gram, Num c) ∈ kvs → ∃ ps, md' !! gram = Some ps ∧ (index, c) ∈ ps)
  ∧ (∀ gram ps' e, md' !! gram = Some ps' → e ∈ ps' →
       (∃ ps, md !! gram = Some ps ∧ e ∈ ps) ∨ fst e = index).
Proof.
  revert s md. induction kvs as [|[gram cnt] kvs IH]; intros s md Hrun.
  - simpl in Hrun. injection Hrun as <- <-. split_and!.
    + by intros ? ?%elem_of_nil.
    + simpl. lia.
    + intros gram ps ?. by exists ps.
    + by intros ? ? ?%elem_of_nil.
    + intros gram ps' e ? ?. left. eauto.
  - simpl in Hrun. apply bind_Ret in Hrun as ([s1 md1] & Hstep & Hrun).
    apply addGram_Ret in Hstep as (c & -> & -> & ->).
    destruct (IH _ _ Hrun) as (Hnum & -> & Hmono & Hnew & Hold). split_and!.
    + intros kv [->|?]%elem_of_cons; [by exists c|auto].
    + unfold sumSquares. cbn [foldr snd countValue]. fold (sumSquares kvs). lia.
    + intros g ps Hg. destruct (decide (g = gram)) as [->|Hne].
      * destruct (Hmono gram (ps ++ [(index, c)])) as (ps' & Hps' & Hsub).
        { rewrite Hg. apply lookup_insert_eq. }
        exists ps'. split; [done|]. intros e He. apply Hsub, elem_of_app. by left.
      * apply Hmono. by rewrite lookup_insert_ne.
    + intros g c0 [[= -> ->]|Hin]%elem_of_cons; [|by apply Hnew].
      destruct (Hmono gram (default [] (md !! gram) ++ [(index, c)])) as (ps' & Hps' & Hsub).
      { apply lookup_insert_eq. }
      exists ps'. split; [done|]. apply Hsub, elem_of_app. right. by left.
    + intros g ps' e Hg He. destruct (Hold g ps' e Hg He) as [(ps & Hps & Hin)|?]; [|by right].
      destruct (decide (g = gram)) as [->|Hne].
      * rewrite lookup_insert_eq in Hps. injection Hps as <-.
        apply elem_of_app in Hin as [Hin|Hin%list_elem_of_singleton]; [|right; by subst].
        destruct (md !! gram) as [ps0|]; [|by apply elem_of_nil in Hin].
        left. eauto.
      * rewrite lookup_insert_ne in Hps by done. left. eauto.
Qed.

Lemma _add_Ret st value g st' :
  _add st value g = Ret st' →
  let n := _normalizeStr value in
  let l := default [] (items st !! g) in
  ∃ md',
    forM (addGram (length l)) (0, matchDict st) (Obj.forIn (_gramCounter n g))
    = Ret (sumSquares (_gramCounter n g), md')
    ∧ allNum (_gramCounter n g)
    ∧ st' = {| gramSizeLower := gramSizeLower st;
               gramSizeUpper := gramSizeUpper st;
               useLevenshtein := useLevenshtein st;
               exactSet := Obj.set (exactSet st) n value;
               matchDict := md';
               items := <[g := l ++ [(PrimFloat.sqrt (float_of_nat (sumSquares (_gramCounter n g))), n)]]>
                          (items st) |}.
Proof.
  unfold _add. intros ([s md'] & Hrun & [= <-])%bind_Ret. exists md'.
  pose proof (forM_addGram _ _ _ _ _ _ Hrun) as (Hnum & -> & _).
  simpl. rewrite (sumSquares_perm _ _ (forIn_perm _)) in *. split_and!; [done| |done].
  intros kv Hkv. apply Hnum. by apply forIn_elem.
Qed.

Lemma Obj_set_insert {V} (o : gmap string V) k v :
  Obj.inherited k = false → Obj.set o k v = <[k := v]> o.
Proof. unfold Obj.set. intros H. rewrite bool_decide_false; [done|]. by intros ->. Qed.

Lemma Obj_has_false {V} (o : gmap string V) k :
  Obj.has o k = false ↔ o !! k = None ∧ Obj.inherited k = false.
Proof.
  unfold Obj.has. rewrite orb_false_iff, bool_decide_eq_false.
  by rewrite <- eq_None_not_Some.
Qed.

Lemma add_loop st names value sizes st' :
  invariant st names →
  Obj.inherited (_normalizeStr value) = false →
  NoDup sizes →
  (∀ g, g ∈ sizes → gramSizeLower st ≤ g ≤ gramSizeUpper st) →
  forM (λ st i, _add st value i) st sizes = Ret st' →
  addLoopInv st names value sizes st'.
Proof.
  intros Hinv Hinh Hnd Hrange Hrun.
  apply (forM_invariant _ (addLoopInv st names value) _ _ _) in Hrun; [done|..];
    unfold addLoopInv; set (n := _normalizeStr value) in *.
  - split_and!; try done.
    + by intros ? ?%elem_of_nil.
    + intros gram ps ?. by exists ps.
    + by intros ? ? ? ?%elem_of_nil.
    + intros gram ps e Hps He. pose proof (inv_valid _ _ Hinv _ _ _ Hps He). lia.
  - intros seen x todo s s' -> (Hlo & Hup & Hlev & Hex & Hdone & Hrest & Hmono & Hnew & Hval) Hadd.
    apply NoDup_app in Hnd as (_ & Hfresh & _).
    assert (Hx : x ∉ seen) by (intros ?; eapply Hfresh; [done|by left]).
    destruct (inv_items _ _ Hinv x) as (l & Hl & Hnames & _).
    { apply Hrange, elem_of_app. right. by left. }
    apply _add_Ret in Hadd as (md' & Hloop & Hnum & ->). fold n in Hloop, Hnum |- *.
    rewrite (Hrest x Hx), Hl in Hloop |- *. cbn [default from_option] in Hloop |- *. unfold id in Hloop |- *.
    assert (Hlen : length l = length names) by (by rewrite <- Hnames, length_map).
    rewrite Hlen in Hloop.
    apply forM_addGram in Hloop as (_ & _ & Hmono' & Hnew' & Hold'). cbn.
    split_and!; try done.
    + rewrite Obj_set_insert by done. rewrite Hex.
      destruct seen; simpl; [done|]. by rewrite insert_insert_eq.
    + intros g [Hg|Hg%list_elem_of_singleton]%elem_of_app; [|subst g].
      * destruct (Hdone g Hg) as (l' & Hl' & Hs & Hn). exists l'.
        rewrite lookup_insert_ne by (by intros ->). done.
      * exists l. by rewrite lookup_insert_eq.
    + intros g Hg. rewrite lookup_insert_ne; [apply Hrest|]; set_solver.
    + intros gram ps Hps. destruct (Hmono gram ps Hps) as (ps1 & Hps1 & Hsub1).
      destruct (Hmono' gram ps1 Hps1) as (ps2 & Hps2 & Hsub2).
      exists ps2. split; [done|]. set_solver.
    + intros g gram c [Hg|Hg%list_elem_of_singleton]%elem_of_app Hin; [|subst g].
      * destruct (Hnew g gram c Hg Hin) as (ps1 & Hps1 & Hin1).
        destruct (Hmono' gram ps1 Hps1) as (ps2 & Hps2 & Hsub2).
        exists ps2. split; [done|]. by apply Hsub2.
      * apply Hnew'. by apply forIn_elem.
    + intros gram ps e Hps He.
      destruct (Hold' gram ps e Hps He) as [(ps0 & Hps0 & Hin0)| ->]; [|lia].
      by eapply Hval.
Qed.

(** ** The invariant of the index *)

Lemma emptyItems_lookup sizes (m : gmap nat (list ItemsEntry)) g :
  fold_left (λ its i, <[i := []]> its) sizes m !! g
  = if decide (g ∈ sizes) then Some [] else m !! g.
Proof.
  revert m. induction sizes as [|x sizes IH]; intros m; cbn [fold_left].
  - rewrite decide_False; [done|by intros ?%elem_of_nil].
  - rewrite IH. destruct (decide (g ∈ sizes)) as [Hin|Hnin].
    + rewrite decide_True; [done|by right].
    + destruct (decide (g = x)) as [->|Hne].
      * rewrite decide_True by (by left). apply lookup_insert_eq.
      * rewrite decide_False by (by intros [?|?]%elem_of_cons).
        by rewrite lookup_insert_ne.
Qed.

Lemma emptyIndex_invariant useLev lower upper : invariant (emptyIndex useLev lower upper) [].
Proof.
  split; simpl.
  - constructor.
  - by left.
  - intros n. rewrite lookup_empty. split; [by intros [? ?]|by intros ?%elem_of_nil].
  - intros n v. by rewrite lookup_empty.
  - intros g Hg. exists []. rewrite emptyItems_lookup.
    rewrite decide_True by (by apply gramSizes_elem). split_and!; [done..|].
    by intros e ?%elem_of_nil.
  - by intros g n _ ?%elem_of_nil.
  - intros gram ps e. by rewrite lookup_empty.
  - intros g i n gram c _ Hn. by rewrite lookup_nil in Hn.
Qed.

Lemma gramSizes_NoDup lower upper : NoDup (gramSizes lower upper).
Proof. apply NoDup_seq. Qed.

Lemma add_invariant st names value st' :
  invariant st names → add st value = Ret st' →
  (st' = st ∧ invariant st' names)
  ∨ (Obj.has (exactSet st) (_normalizeStr value) = false
     ∧ gramSizeLower st ≤ gramSizeUpper st
     ∧ exactSet st' = <[_normalizeStr value := value]> (exactSet st)
     ∧ invariant st' (names ++ [_normalizeStr value])).
Proof.
  intros Hinv. unfold add. set (n := _normalizeStr value).
  destruct (Obj.has (exactSet st) n) eqn:Ehas; [intros [= <-]; by left|].
  apply Obj_has_false in Ehas as [Hnone Hinh].
  destruct (decide (gramSizeLower st ≤ gramSizeUpper st)) as [Hle|Hgt]; cycle 1.
  { unfold gramSizes. replace (S (gramSizeUpper st) - gramSizeLower st) with 0 by lia.
    intros [= <-]. by left. }
  intros Hrun. right.
  apply (add_loop st names) in Hrun;
    [|done|done|apply gramSizes_NoDup|intros g; apply gramSizes_elem].
  destruct Hrun as (Hlo & Hup & Hlev & Hex & Hseen & Hrest & Hmono & Hnew & Hval).
  fold n in Hex, Hseen, Hnew.
  assert (Hsizes : gramSizes (gramSizeLower st) (gramSizeUpper st) ≠ []).
  { intros Heq. assert (Hin : gramSizeLower st ∈ gramSizes (gramSizeLower st) (gramSizeUpper st))
      by (apply gramSizes_elem; lia).
    rewrite Heq in Hin. by apply elem_of_nil in Hin. }
  assert (Hex' : exactSet st' = <[n := value]> (exactSet st)).
  { destruct (gramSizes _ _); [done|exact Hex]. }
  assert (Hfresh : n ∉ names).
  { intros Hin. apply (inv_exact _ _ Hinv) in Hin as [v Hv]. congruence. }
  split_and!; [done..|]. split.
  - apply NoDup_app. split_and!; [apply (inv_nodup _ _ Hinv)| |apply NoDup_singleton].
    intros x Hx Hx'%list_elem_of_singleton. by subst x.
  - right. lia.
  - intros n0. rewrite Hex', elem_of_app, list_elem_of_singleton.
    destruct (decide (n0 = n)) as [->|Hne].
    + rewrite lookup_insert_eq. split; [by right|by eauto].
    + rewrite lookup_insert_ne by done. rewrite (inv_exact _ _ Hinv). naive_solver.
  - intros n0 v. rewrite Hex'. destruct (decide (n0 = n)) as [->|Hne].
    + rewrite lookup_insert_eq. by intros [= <-].
    + rewrite lookup_insert_ne by done. apply (inv_norm _ _ Hinv).
  - intros g Hg. rewrite Hlo, Hup in Hg.
    destruct (Hseen g) as (l & Hl & Hl' & Hnum); [by apply gramSizes_elem|].
    destruct (inv_items _ _ Hinv g Hg) as (l0 & Hl0 & Hnames & Hnorms).
    assert (l0 = l) as -> by congruence.
    eexists. split; [exact Hl'|]. split; [by rewrite map_app, Hnames|].
    intros e [He|He%list_elem_of_singleton]%elem_of_app; [by apply Hnorms|by subst e].
  - intros g n0 Hg [Hn0|Hn0%list_elem_of_singleton]%elem_of_app; rewrite Hlo, Hup in Hg;
      [|subst n0].
    + by apply (inv_counts _ _ Hinv).
    + destruct (Hseen g) as (l & Hl & Hl' & Hnum); [by apply gramSizes_elem|done].
  - intros gram ps e Hps He. rewrite length_app. simpl.
    pose proof (Hval gram ps e Hps He). lia.
  - intros g i n0 gram c Hg Hi Hin. rewrite Hlo, Hup in Hg.
    destruct (decide (i < length names)) as [Hlt|Hge].
    + rewrite lookup_app_l in Hi by done.
      destruct (inv_complete _ _ Hinv g i n0 gram c Hg Hi Hin) as (ps & Hps & Hmem).
      destruct (Hmono gram ps Hps) as (ps' & Hps' & Hsub). exists ps'. split; [done|by apply Hsub].
    + rewrite lookup_app_r in Hi by lia.
      destruct (i - length names) as [|k] eqn:Ek; [|by simpl in Hi].
      injection Hi as <-. replace i with (length names) by lia.
      apply (Hnew g); [by apply gramSizes_elem|done].
Qed.

Lemma reachable_invariant st : reachable st → ∃ names, invariant st names.
Proof.
  induction 1 as [useLev lower upper|st value st' _ [names Hinv] Hadd].
  - exists []. apply emptyIndex_invariant.
  - destruct (add_invariant _ _ _ _ Hinv Hadd) as [[_ ?]|(_ & _ & _ & ?)]; eauto.
Qed.

Lemma invariant_size st names : invariant st names → length_ st = length names.
Proof.
  intros Hinv. unfold length_.
  rewrite <- size_dom, <- (size_list_to_set (C := gset string)) by apply (inv_nodup _ _ Hinv).
  f_equal. apply set_eq. intros n.
  rewrite elem_of_dom, elem_of_list_to_set. apply (inv_exact _ _ Hinv).
Qed.

Lemma FuzzySet_reachable arr useLev lower upper st :
  FuzzySet arr useLev lower upper = Ret st → reachable st.
Proof.
  unfold FuzzySet. generalize (reachable_new useLev lower upper).
  generalize (emptyIndex useLev lower upper). 
  induction arr as [|x arr IH]; intros st0 Hr; simpl.
  - by intros [= <-].
  - intros (st1 & Hadd & Hrun)%bind_Ret. eapply IH; [|done]. by eapply reachable_add.
Qed.

(** C7: in every state the index reaches through [add] calls that return,
    each configured gram size has a record list, and its length is the number
    of entries of the catalog. *)
Theorem C7_items_length_is_catalog_size st g :
  reachable st →
  gramSizeLower st ≤ g ≤ gramSizeUpper st →
  ∃ records, items st !! g = Some records ∧ length records = length_ st.
Proof.
  intros [names Hinv]%reachable_invariant Hg.
  destruct (inv_items _ _ Hinv g Hg) as (l & Hl & Hnames & _).
  exists l. split; [done|]. by rewrite (invariant_size _ _ Hinv), <- Hnames, length_map.
Qed.

(** ** Adding twice *)

Lemma add_cases st value st' :
  add st value = Ret st' →
  let n := _normalizeStr value in
  (Obj.has (exactSet st) n = true ∧ st' = st)
  ∨ (gramSizes (gramSizeLower st) (gramSizeUpper st) = [] ∧ st' = st)
  ∨ (Obj.has (exactSet st) n = false ∧ exactSet st' !! n = Some value
     ∧ gramSizeLower st' = gramSizeLower st ∧ gramSizeUpper st' = gramSizeUpper st).
Proof.
  intros Hadd n. unfold add in Hadd. fold n in Hadd.
  destruct (Obj.has (exactSet st) n) eqn:Ehas; [injection Hadd as <-; by left|].
  apply Obj_has_false in Ehas as [Hnone Hinh].
  destruct (gramSizes _ _) as [|g sizes] eqn:Esizes; [injection Hadd as <-; right; by left|].
  right. right. split; [done|].
  apply (forM_invariant _
    (λ seen s, (seen ≠ [] → exactSet s !! n = Some value)
               ∧ gramSizeLower s = gramSizeLower st ∧ gramSizeUpper s = gramSizeUpper st))
    in Hadd.
  - destruct Hadd as (H & ? & ?). split; [by apply H|done].
  - done.
  - intros seen x todo s s' _ (_ & Hlo & Hup) Hstep.
    apply _add_Ret in Hstep as (md' & _ & _ & ->). simpl.
    split; [|done]. intros _. fold n. rewrite Obj_set_insert by done. apply lookup_insert_eq.
Qed.



(** ** Matches *)

Lemma addMatch_keys matches index v i :
  i ∈ (addMatch matches index v).*1 ↔ i = index ∨ i ∈ matches.*1.
Proof.
  induction matches as [|[j m] matches IH]; simpl.
  - rewrite list_elem_of_singleton. split; [by left|]. by intros [?|?%elem_of_nil].
  - destruct (Nat.ltb_spec index j); simpl; [by rewrite !elem_of_cons|].
    destruct (Nat.eqb_spec index j) as [->|Hne]; simpl.
    + rewrite !elem_of_cons. naive_solver.
    + rewrite !elem_of_cons, IH. naive_solver.
Qed.

Lemma addMatches_keys gramCount postings matches i :
  i ∈ (fold_left (λ matches '(index, otherGramCount),
                    addMatch matches index (gramCount * otherGramCount))
                 postings matches).*1
  ↔ i ∈ matches.*1 ∨ i ∈ postings.*1.
Proof.
  revert matches. induction postings as [|[index other] postings IH]; intros matches; simpl.
  - split; [by left|]. by intros [?|?%elem_of_nil].
  - rewrite IH, addMatch_keys, elem_of_cons. naive_solver.
Qed.

Lemma scoreGram_Ret md s matches gram cnt s' matches' :
  scoreGram md (s, matches) (gram, cnt) = Ret (s', matches') →
  ∃ c, cnt = Num c ∧ s' = s + c ^ 2
       ∧ ∀ i, i ∈ matches'.*1 ↔ i ∈ matches.*1 ∨ ∃ ps, md !! gram = Some ps ∧ i ∈ ps.*1.
Proof.
  unfold scoreGram. destruct cnt as [c|]; [|done]. intros H. exists c.
  destruct (Obj.has md gram) eqn:Eh.
  - destruct (md !! gram) as [ps|] eqn:E.
    + injection H as <- <-. split_and!; [done..|]. intros i.
      rewrite addMatches_keys. naive_solver.
    + destruct (Obj.inheritedLength gram) as [[|k]|]; simplify_eq; naive_solver.
  - injection H as <- <-. split_and!; [done..|]. intros i. split; [by left|].
    apply Obj_has_false in Eh as [Hn _].
    intros [?|(ps & Hps & Hi)]; [done|congruence].
Qed.

Lemma forM_scoreGram md kvs s matches s' matches' :
  forM (scoreGram md) (s, matches) kvs = Ret (s', matches') →
  allNum kvs ∧ s' = s + sumSquares kvs
  ∧ ∀ i, i ∈ matches'.*1 ↔
         i ∈ matches.*1 ∨ ∃ gram cnt ps, (gram, cnt) ∈ kvs ∧ md !! gram = Some ps ∧ i ∈ ps.*1.
Proof.
  revert s matches. induction kvs as [|[gram cnt] kvs IH]; intros s matches Hrun.
  - simpl in Hrun. injection Hrun as <- <-. split_and!.
    + by intros ? ?%elem_of_nil.
    + simpl. lia.
    + intros i. split; [by left|]. intros [?|(? & ? & ? & ?%elem_of_nil & _)]; done.
  - simpl in Hrun. apply bind_Ret in Hrun as ([s1 m1] & Hstep & Hrun).
    apply scoreGram_Ret in Hstep as (c & -> & -> & Hkeys).
    destruct (IH _ _ Hrun) as (Hnum & -> & Hkeys'). split_and!.
    + intros kv [->|?]%elem_of_cons; [by exists c|auto].
    + unfold sumSquares. cbn [foldr snd countValue]. fold (sumSquares kvs). lia.
    + intros i. rewrite Hkeys', Hkeys. split.
      * intros [[?|(ps & ? & ?)]|(g & cn & ps & ? & ? & ?)]; [by left|right..].
        -- exists gram, (Num c), ps. split_and!; [by left|done..].
        -- exists g, cn, ps. split_and!; [by right|done..].
      * intros [?|(g & cn & ps & [[= -> ->]|?]%elem_of_cons & ? & ?)].
        -- left. by left.
        -- left. right. eauto.
        -- right. eauto 10.
Qed.

(** The loop over the grams of a query returns when every gram is counted
    by a number and has a posting list. *)
Lemma forM_scoreGram_total md kvs s matches :
  (∀ kv, kv ∈ kvs → ∃ c ps, snd kv = Num c ∧ md !! fst kv = Some ps) →
  ∃ s' matches', forM (scoreGram md) (s, matches) kvs = Ret (s', matches').
Proof.
  revert s matches. induction kvs as [|[gram cnt] kvs IH]; intros s matches H; simpl.
  - by eexists _, _.
  - destruct (H (gram, cnt)) as (c & ps & Hc & Hps); [by left|]. simpl in Hc, Hps. subst cnt.
    unfold scoreGram at 1. unfold Obj.has. rewrite Hps.
    rewrite bool_decide_true by eauto. cbn [orb mbind outcome_bind].
    apply IH. intros kv ?. apply H. by right.
Qed.

Lemma collectMatches_Ret st names value g s matches :
  invariant st names →
  collectMatches st value g = Ret (s, matches) →
  s = sumSquares (_gramCounter value g) ∧ 1 ≤ s
  ∧ ∀ i, i ∈ matches.*1 → i < length names.
Proof.
  intros Hinv Hrun. unfold collectMatches in Hrun.
  apply forM_scoreGram in Hrun as (_ & -> & Hkeys).
  rewrite (sumSquares_perm _ _ (forIn_perm _)). split_and!; [done|apply sumSquares_pos|].
  intros i [?%elem_of_nil|(gram & cnt & ps & _ & Hps & Hi)]%Hkeys; [done|].
  apply list_elem_of_fmap in Hi as (e & -> & He).
  by apply (inv_valid _ _ Hinv gram ps).
Qed.

Lemma scoreMatches_total (records : list ItemsEntry) s matches :
  (∀ i, i ∈ matches.*1 → i < length records) →
  ∃ results,
    scoreMatches (Some records) s matches = Ret results
    ∧ Forall2 (λ m r, ∃ norm,
                 records !! fst m = Some (norm, snd r)
                 ∧ fst r = (float_of_nat (snd m)
                            / (PrimFloat.sqrt (float_of_nat s) * norm))%float)
              matches results.
Proof.
  intros Hvalid. unfold scoreMatches.
  destruct (mapM_total
    (λ '(matchIndex, matchScore),
       match Some records ≫= (.!! matchIndex) with
       | Some (norm, word) =>
           Ret (float_of_nat matchScore / (PrimFloat.sqrt (float_of_nat s) * norm), word)%float
       | None => Throw TypeError
       end) matches) as [results Hres].
  - intros [i v] Hin. simpl.
    destruct (lookup_lt_is_Some_2 records i) as [[norm word] ->]; [|by eexists].
    apply Hvalid, list_elem_of_fmap. by exists (i, v).
  - exists results. split; [done|]. apply mapM_Ret in Hres.
    eapply Forall2_impl; [exact Hres|]. intros [i v] [sc w]. simpl.
    destruct (records !! i) as [[norm word]|]; [|done]. intros [= <- <-]. by exists norm.
Qed.



Lemma C7_witness :
  ∃ records, items (orEmpty abIndex) !! 3 = Some records
             ∧ length records = length_ (orEmpty abIndex).
Proof.
  apply (C7_items_length_is_catalog_size (orEmpty abIndex) 3).
  - apply (FuzzySet_reachable ["ac"; "cb"; "abzzzzzzzz"] None None None).
    vm_compute. reflexivity.
  - vm_compute. lia.
Defined.

(** ** Doubles: a length as a divisor *)

Lemma digits_iter_xO p k : digits2_pos (Pos.iter xO p k) = (digits2_pos p + k)%positive.
Proof.
  induction k using Pos.peano_ind.
  - simpl. lia.
  - rewrite Pos.iter_succ. simpl. rewrite IHk. lia.
Qed.

Lemma digits2_pos_bound p :
  (Z.pos p < 2 ^ Z.pos (digits2_pos p))%Z ∧ (2 ^ (Z.pos (digits2_pos p) - 1) ≤ Z.pos p)%Z.
Proof.
  induction p as [p IH|p IH|]; simpl digits2_pos; [| |simpl; lia];
    rewrite Pos2Z.inj_succ, Z.pow_succ_r by lia;
    replace (Z.succ (Z.pos (digits2_pos p)) - 1)%Z
      with (Z.succ (Z.pos (digits2_pos p) - 1))%Z by lia;
    rewrite Z.pow_succ_r by lia; lia.
Qed.

Lemma shr_fexp_exact m e :
  fexp prec emax (Zdigits2 (Z.pos m) + e) = e →
  shr_fexp prec emax (Z.pos m) e loc_Exact
  = ({| shr_m := Z.pos m; shr_r := false; shr_s := false |}, e).
Proof. unfold shr_fexp. intros ->. rewrite Z.sub_diag. reflexivity. Qed.

Lemma binary_round_aux_exact sx m e :
  fexp prec emax (Zdigits2 (Z.pos m) + e) = e →
  binary_round_aux prec emax sx (Z.pos m) e loc_Exact
  = if (e <=? emax - prec)%Z then S754_finite sx m e else S754_infinity sx.
Proof.
  intros H. unfold binary_round_aux. rewrite (shr_fexp_exact m e H).
  cbn [shr_m loc_of_shr_record shr_r shr_s round_nearest_even].
  rewrite (shr_fexp_exact m e H). reflexivity.
Qed.

(** An integer below 2^53 is a finite double. *)
Lemma binary_normalize_small p :
  (Z.pos p < 2 ^ 53)%Z →
  ∃ m e, binary_normalize prec emax (Z.pos p) 0 false = S754_finite false m e.
Proof.
  intros Hp.
  assert (Hd : (Z.pos (digits2_pos p) ≤ 53)%Z).
  { destruct (digits2_pos_bound p) as [_ H].
    destruct (Z.le_gt_cases (Z.pos (digits2_pos p)) 53) as [|Hgt]; [assumption|].
    assert (2 ^ 53 ≤ 2 ^ (Z.pos (digits2_pos p) - 1))%Z by (apply Z.pow_le_mono_r; lia). lia. }
  assert (Hf : ∀ d, (0 < d ≤ 53)%Z → fexp prec emax d = (d - 53)%Z).
  { intros d Hd'. unfold fexp, emin. change prec with 53%Z. change emax with 1024%Z.
    change IntDef.Z.max with Z.max. lia. }
  unfold binary_normalize, binary_round.
  rewrite Z.add_0_r, Hf by lia.
  unfold shl_align. rewrite Z.sub_0_r.
  destruct (Z.pos (digits2_pos p) - 53)%Z as [|q|q] eqn:E; try lia.
  - rewrite binary_round_aux_exact.
    + exists p, 0%Z. reflexivity.
    + cbn [Zdigits2]. rewrite Z.add_0_r, Hf by lia. exact E.
  - rewrite binary_round_aux_exact.
    + destruct (Z.leb_spec (Z.neg q) (emax - prec)) as [_|Hc]; [eauto|].
      change (emax - prec)%Z with 971%Z in Hc. lia.
    + cbn [Zdigits2]. rewrite digits_iter_xO, Hf by lia. lia.
Qed.

Lemma one_minus_zero_div n :
  0 < n → (Z.of_nat n < 2 ^ 53)%Z →
  (1 - float_of_nat 0 / float_of_nat n)%float = 1%float.
Proof.
  intros H0 Hn. apply Prim2SF_inj.
  rewrite FloatAxioms.sub_spec, FloatAxioms.div_spec. unfold float_of_nat at 2.
  rewrite FloatAxioms.of_uint63_spec, Uint63.of_Z_spec.
  rewrite Z.mod_small
    by (change wB with (2 ^ 63)%Z; split; [lia|]; eapply Z.lt_trans; [exact Hn|reflexivity]).
  destruct (Z.of_nat n) as [|p|p] eqn:E; try lia.
  destruct (binary_normalize_small p Hn) as (m & e & ->).
  reflexivity.
Qed.

Lemma _distance_self s :
  s ≠ "" → (Z.of_nat (String.length s) < 2 ^ 53)%Z →
  _distance (Some s) (Some s) = Ret 1%float.
Proof.
  intros Hs Hlen. unfold _distance. rewrite levenshtein_refl, Nat.ltb_irrefl.
  rewrite one_minus_zero_div; [done| |done]. destruct s; [done|simpl; lia].
Qed.

(** ** Self-match *)

Lemma refine_all n (results : list (float * string)) :
  length results ≤ 50 →
  ∃ newResults,
    refine true n results = Ret (sortDesc newResults)
    ∧ Forall2 (λ r r', _distance (Some (snd r)) (Some n) = Ret (fst r') ∧ snd r' = snd r)
              results newResults.
Proof.
  intros Hlen. unfold refine.
  rewrite Nat.min_r by done. rewrite firstn_all.
  destruct (mapM_total (λ r : float * string,
              d ← _distance (Some (snd r)) (Some n); Ret (d, snd r)) results)
    as [newResults Hnew].
  { intros r _. unfold _distance. simpl. by eexists. }
  exists newResults. rewrite Hnew. split; [done|].
  apply mapM_Ret in Hnew. eapply Forall2_impl; [exact Hnew|].
  intros r r' (d & Hd & [= <-])%bind_Ret. done.
Qed.

Lemma _getLoop_first st value m g sizes r rs :
  __get st value g m = Ret (Some (r :: rs)) →
  _getLoop st value m (g :: sizes) = Ret (Some (r :: rs)).
Proof. intros H. simpl. by rewrite H. Qed.




(** ** Edit distance as a metric *)

Section Metric.
Context {A : Type} `{!EqDecision A}.

Lemma edit1_sym (a b : list A) : edit1 a b → edit1 b a.
Proof. intros [pre x post|pre x post|pre x y post]; constructor. Qed.

Lemma edits_snoc n (a b c : list A) : edits n a b → edit1 b c → edits (S n) a c.
Proof.
  induction 1 as [a|n a b' b H1 _ IH]; intros Hc.
  - eapply edits_step; [done|constructor].
  - eapply edits_step; [done|]. by apply IH.
Qed.

Lemma edits_sym n (a b : list A) : edits n a b → edits n b a.
Proof.
  induction 1 as [a|n a b c H1 _ IH]; [constructor|].
  eapply edits_snoc; [done|]. by apply edit1_sym.
Qed.

Lemma edits_trans n m (a b c : list A) : edits n a b → edits m b c → edits (n + m) a c.
Proof.
  induction 1 as [a|n a b' b H1 _ IH]; intros Hc; [done|].
  simpl. eapply edits_step; [done|]. by apply IH.
Qed.

Lemma edit1_length (a b : list A) :
  edit1 a b → length a ≤ S (length b) ∧ length b ≤ S (length a).
Proof. intros [pre x post|pre x post|pre x y post]; rewrite !length_app; simpl; lia. Qed.

Lemma edits_length n (a b : list A) :
  edits n a b → length a ≤ n + length b ∧ length b ≤ n + length a.
Proof.
  induction 1 as [a|n a b c H1 _ IH]; [lia|].
  apply edit1_length in H1. lia.
Qed.

Lemma lev_sym (a b : list A) : lev a b = lev b a.
Proof.
  apply Nat.le_antisymm; apply lev_least, edits_sym, lev_edits.
Qed.

Lemma lev_triangle (a b c : list A) : lev a c ≤ lev a b + lev b c.
Proof. apply lev_least. eapply edits_trans; apply lev_edits. Qed.

Lemma lev_zero (a b : list A) : lev a b = 0 ↔ a = b.
Proof.
  split; [|intros ->; apply lev_refl].
  intros H. pose proof (lev_edits a b) as He. rewrite H in He. by inversion He.
Qed.

Lemma lev_upper (a b : list A) : lev a b ≤ Nat.max (length a) (length b).
Proof.
  revert b. induction a as [|x a IHa]; intros b; [simpl; lia|].
  induction b as [|y b IHb]; [rewrite lev_nil_r; simpl; lia|].
  rewrite lev_cons. specialize (IHa b). simpl. destruct (decide (x = y)); lia.
Qed.

Lemma lev_lower (a b : list A) :
  length a - length b ≤ lev a b ∧ length b - length a ≤ lev a b.
Proof. pose proof (edits_length _ _ _ (lev_edits a b)). lia. Qed.

End Metric.

Lemma list_ascii_of_string_inj s t : list_ascii_of_string s = list_ascii_of_string t → s = t.
Proof.
  intros H. rewrite <- (string_of_list_ascii_of_string s), <- (string_of_list_ascii_of_string t).
  by rewrite H.
Qed.

(** X1: the distance the rolling row computes does not depend on the order
    of its arguments, and neither does the similarity. *)
Theorem levenshtein_symmetric a b :
  levenshtein a b = levenshtein b a
  ∧ _distance (Some a) (Some b) = _distance (Some b) (Some a).
Proof.
  assert (H : levenshtein a b = levenshtein b a) by (rewrite !levenshtein_lev; apply lev_sym).
  split; [done|]. unfold _distance. rewrite H.
  destruct (Nat.ltb_spec (String.length b) (String.length a)),
           (Nat.ltb_spec (String.length a) (String.length b)); try done; try lia.
  by replace (String.length b) with (String.length a) by lia.
Qed.

(** X2: the distance is 0 for equal strings only, it is never more than the
    length of the longer string and never less than the difference of the
    two lengths. *)
Theorem levenshtein_bounds a b :
  (levenshtein a b = 0 ↔ a = b)
  ∧ levenshtein a b ≤ Nat.max (String.length a) (String.length b)
  ∧ String.length a - String.length b ≤ levenshtein a b
  ∧ String.length b - String.length a ≤ levenshtein a b.
Proof.
  rewrite levenshtein_lev, !string_length_list. split_and!.
  - rewrite lev_zero. split.
    + intros H. apply list_ascii_of_string_inj. by apply (inj reverse).
    + by intros ->.
  - rewrite <- (length_reverse (list_ascii_of_string a)),
            <- (length_reverse (list_ascii_of_string b)). apply lev_upper.
  - rewrite <- (length_reverse (list_ascii_of_string a)),
            <- (length_reverse (list_ascii_of_string b)). apply lev_lower.
  - rewrite <- (length_reverse (list_ascii_of_string a)),
            <- (length_reverse (list_ascii_of_string b)). apply lev_lower.
Qed.

(** X3: the triangle inequality. *)
Theorem levenshtein_triangle a b c :
  levenshtein a c ≤ levenshtein a b + levenshtein b c.
Proof. rewrite !levenshtein_lev. apply lev_triangle. Qed.

(** ** What [add] changes *)

Lemma gramSizes_nil lower upper : gramSizes lower upper = [] ↔ upper < lower.
Proof.
  unfold gramSizes. split.
  - intros H. apply (f_equal length) in H. rewrite length_seq in H. simpl in H. lia.
  - intros H. by replace (S upper - lower) with 0 by lia.
Qed.

Lemma Obj_has_true {V} (o : gmap string V) k :
  Obj.has o k = true ↔ is_Some (o !! k) ∨ k ∈ Obj.prototypeKeys.
Proof.
  unfold Obj.has, Obj.inherited. rewrite orb_true_iff, !bool_decide_eq_true. done.
Qed.

(** X4: an [add] that returns leaves the index as it was exactly when the
    lower-cased string is already a key of the catalog, or is a name that a
    plain object inherits from [Object.prototype], or when no gram size is
    configured ([gramSizeUpper < gramSizeLower]). *)
Theorem add_is_no_op_iff st value st' :
  add st value = Ret st' →
  (st' = st ↔
   is_Some (exactSet st !! Str.toLowerCase value)
   ∨ Str.toLowerCase value ∈ Obj.prototypeKeys
   ∨ gramSizeUpper st < gramSizeLower st).
Proof.
  intros Hadd.
  assert (Hrhs : is_Some (exactSet st !! Str.toLowerCase value)
                 ∨ Str.toLowerCase value ∈ Obj.prototypeKeys
                 ∨ gramSizeUpper st < gramSizeLower st
                 ↔ Obj.has (exactSet st) (Str.toLowerCase value) = true
                   ∨ gramSizes (gramSizeLower st) (gramSizeUpper st) = []).
  { rewrite gramSizes_nil, Obj_has_true. tauto. }
  rewrite Hrhs. clear Hrhs.
  destruct (add_cases _ _ _ Hadd) as [[Hhas ->]|[[Hempty ->]|(Hhas & Hin & Hlo & Hup)]].
  - split; [by left|done].
  - split; [by right|done].
  - unfold _normalizeStr in *. split.
    + intros ->. apply Obj_has_false in Hhas as [Hnone _]. congruence.
    + intros [?|Hnil]; [congruence|].
      exfalso. unfold add, _normalizeStr in Hadd. rewrite Hhas, Hnil in Hadd.
      injection Hadd as <-. apply Obj_has_false in Hhas as [Hnone _]. congruence.
Qed.

Lemma add_is_no_op_iff_witness :
  appleIndex = emptyIndex None None None ↔
  is_Some (exactSet (emptyIndex None None None) !! Str.toLowerCase "Apple")
  ∨ Str.toLowerCase "Apple" ∈ Obj.prototypeKeys
  ∨ gramSizeUpper (emptyIndex None None None) < gramSizeLower (emptyIndex None None None).
Proof.
  apply (add_is_no_op_iff (emptyIndex None None None) "Apple" appleIndex).
  vm_compute. reflexivity.
Defined.

(** X5: on a reachable index an [add] that returns either leaves [length()]
    as it was or raises it by one, the latter exactly when it changes the
    index; and [isEmpty()] holds exactly when [length()] is 0. *)
Theorem add_length st value st' :
  reachable st →
  add st value = Ret st' →
  (st' = st ∧ length_ st' = length_ st ∨ st' ≠ st ∧ length_ st' = S (length_ st))
  ∧ (isEmpty st' = true ↔ length_ st' = 0).
Proof.
  intros [names Hinv]%reachable_invariant Hadd. split.
  - destruct (add_invariant _ _ _ _ Hinv Hadd) as [[-> _]|(Hhas & _ & Hex & Hinv')].
    + by left.
    + right. split.
      * intros ->. apply Obj_has_false in Hhas as [Hnone _].
        rewrite Hex, lookup_insert_eq in Hnone. done.
      * rewrite (invariant_size _ _ Hinv), (invariant_size _ _ Hinv'), length_app. simpl. lia.
  - unfold isEmpty, length_. rewrite bool_decide_eq_true. symmetry. apply map_size_empty_iff.
Qed.

Lemma add_length_witness :
  (appleIndex = emptyIndex None None None
   ∧ length_ appleIndex = length_ (emptyIndex None None None)
   ∨ appleIndex ≠ emptyIndex None None None
     ∧ length_ appleIndex = S (length_ (emptyIndex None None None)))
  ∧ (isEmpty appleIndex = true ↔ length_ appleIndex = 0).
Proof.
  apply (add_length (emptyIndex None None None) "Apple" appleIndex).
  - apply reachable_new.
  - vm_compute. reflexivity.
Defined.

(** X6: the index only grows.  On a reachable index an [add] that returns
    keeps every catalog entry with its value, extends every record list at
    its end by at most one record, and keeps every posting. *)
Theorem add_only_appends st value st' :
  reachable st →
  add st value = Ret st' →
  exactSet st ⊆ exactSet st'
  ∧ (∀ g records, items st !! g = Some records →
       ∃ new, items st' !! g = Some (records ++ new) ∧ length new ≤ 1)
  ∧ (∀ gram postings, matchDict st !! gram = Some postings →
       ∃ postings', matchDict st' !! gram = Some postings' ∧ postings ⊆ postings').
Proof.
  intros [names Hinv]%reachable_invariant Hadd.
  assert (Hsame : st' = st →
    exactSet st ⊆ exactSet st'
    ∧ (∀ g records, items st !! g = Some records →
         ∃ new, items st' !! g = Some (records ++ new) ∧ length new ≤ 1)
    ∧ (∀ gram postings, matchDict st !! gram = Some postings →
         ∃ postings', matchDict st' !! gram = Some postings' ∧ postings ⊆ postings')).
  { intros ->. split_and!; [done| |].
    - intros g l Hl. exists []. rewrite app_nil_r. split; [done|simpl; lia].
    - intros gram ps Hps. by exists ps. }
  unfold add in Hadd.
  destruct (Obj.has (exactSet st) (_normalizeStr value)) eqn:Ehas;
    [injection Hadd as <-; by apply Hsame|].
  pose proof Ehas as [Hnone Hinh]%Obj_has_false.
  apply (add_loop st names) in Hadd;
    [|done|done|apply gramSizes_NoDup|intros g; apply gramSizes_elem].
  destruct Hadd as (_ & _ & _ & Hex & Hseen & Hrest & Hmono & _ & _).
  split_and!; [| |done].
  - rewrite Hex. destruct (gramSizes _ _); [done|]. by apply insert_subseteq.
  - intros g l Hl.
    destruct (decide (g ∈ gramSizes (gramSizeLower st) (gramSizeUpper st))) as [Hin|Hnin].
    + destruct (Hseen g Hin) as (l0 & Hl0 & Hl' & _).
      assert (l0 = l) as -> by congruence. eexists. split; [exact Hl'|simpl; lia].
    + exists []. rewrite app_nil_r, (Hrest g Hnin). split; [done|simpl; lia].
Qed.

Lemma add_only_appends_witness :
  exactSet (emptyIndex None None None) ⊆ exactSet appleIndex
  ∧ (∀ g records, items (emptyIndex None None None) !! g = Some records →
       ∃ new, items appleIndex !! g = Some (records ++ new) ∧ length new ≤ 1)
  ∧ (∀ gram postings, matchDict (emptyIndex None None None) !! gram = Some postings →
       ∃ postings', matchDict appleIndex !! gram = Some postings' ∧ postings ⊆ postings').
Proof.
  apply (add_only_appends (emptyIndex None None None) "Apple" appleIndex).
  - apply reachable_new.
  - vm_compute. reflexivity.
Defined.

(** ** The catalog after a row of insertions *)

Lemma add_exactSet st names value st' :
  invariant st names → add st value = Ret st' →
  let n := _normalizeStr value in
  (st' = st ∧ (Obj.has (exactSet st) n = true ∨ gramSizeUpper st < gramSizeLower st))
  ∨ (exactSet st !! n = None ∧ Obj.inherited n = false
     ∧ gramSizeLower st ≤ gramSizeUpper st
     ∧ exactSet st' = <[n := value]> (exactSet st)).
Proof.
  intros Hinv Hadd n.
  destruct (add_cases _ _ _ Hadd) as [[Hhas ->]|[[Hempty ->]|(Hhas & Hin & Hlo & Hup)]].
  - left. split; [done|by left].
  - left. split; [done|right; by apply gramSizes_nil].
  - destruct (add_invariant _ _ _ _ Hinv Hadd) as [[-> _]|(_ & Hle & Hex & _)].
    + apply Obj_has_false in Hhas as [Hnone _]. fold n in Hnone, Hin. congruence.
    + right. by apply Obj_has_false in Hhas as [Hnone Hinh].
Qed.

Lemma add_range st value st' :
  add st value = Ret st' →
  gramSizeLower st' = gramSizeLower st ∧ gramSizeUpper st' = gramSizeUpper st.
Proof.
  intros Hadd.
  by destruct (add_cases _ _ _ Hadd) as [[_ ->]|[[_ ->]|(_ & _ & ? & ?)]].
Qed.

Lemma forM_add_invariant arr st0 names st :
  invariant st0 names → forM add st0 arr = Ret st → ∃ names', invariant st names'.
Proof.
  revert st0 names. induction arr as [|x arr IH]; intros st0 names Hinv; simpl.
  - intros [= <-]. eauto.
  - intros (st1 & Hadd & Hrun)%bind_Ret.
    destruct (add_invariant _ _ _ _ Hinv Hadd) as [[_ ?]|(_ & _ & _ & ?)]; eauto.
Qed.

(** A key that is not in the catalog stays out of it when every [add] for
    it is a no-op. *)
Lemma forM_add_blocked arr st0 names st n :
  invariant st0 names →
  Obj.inherited n = true ∨ gramSizeUpper st0 < gramSizeLower st0 →
  forM add st0 arr = Ret st →
  exactSet st !! n = exactSet st0 !! n.
Proof.
  revert st0 names. induction arr as [|x arr IH]; intros st0 names Hinv Hblock; simpl.
  - by intros [= <-].
  - intros (st1 & Hadd & Hrun)%bind_Ret.
    pose proof (add_range _ _ _ Hadd) as [Hlo Hup].
    destruct (add_invariant _ _ _ _ Hinv Hadd) as [[-> _]|(Hhas & Hle & Hex & Hinv1)].
    + by eapply IH.
    + rewrite (IH st1 _ Hinv1); [|by rewrite Hlo, Hup|done].
      destruct Hblock as [Hinh|?]; [|lia].
      rewrite Hex, lookup_insert_ne; [done|].
      intros Heq. apply Obj_has_false in Hhas as [_ Hinh']. congruence.
Qed.

Lemma forM_add_first arr st0 names st n v :
  invariant st0 names →
  forM add st0 arr = Ret st →
  exactSet st !! n = Some v →
  exactSet st0 !! n = Some v
  ∨ (exactSet st0 !! n = None
     ∧ ∃ before after_, arr = before ++ v :: after_ ∧ _normalizeStr v = n
                        ∧ ∀ x, x ∈ before → _normalizeStr x ≠ n).
Proof.
  revert st0 names. induction arr as [|x arr IH]; intros st0 names Hinv; simpl.
  - intros [= <-] ?. by left.
  - intros (st1 & Hadd & Hrun)%bind_Ret Hv.
    destruct (add_exactSet _ _ _ _ Hinv Hadd) as [[-> Hwhy]|(Hnone & Hinh & Hle & Hex)].
    + destruct (IH _ _ Hinv Hrun Hv) as [?|(Hn0 & before & after_ & -> & Hnv & Hbefore)];
        [by left|].
      right. split; [done|]. exists (x :: before), after_. split_and!; [done..|].
      intros y [->|?]%elem_of_cons; [|by apply Hbefore].
      intros Hy. rewrite Hy in Hwhy.
      assert (exactSet st !! n = exactSet st0 !! n) as Hsame.
      { eapply forM_add_blocked; [done| |done].
        destruct Hwhy as [Hhas|?]; [left|by right].
        apply Obj_has_true in Hhas as [[? ?]|Hin]; [congruence|].
        by apply bool_decide_eq_true. }
      congruence.
    + destruct (add_invariant _ _ _ _ Hinv Hadd) as [[-> _]|(_ & _ & _ & Hinv1)].
      { rewrite Hex in Hnone. by rewrite lookup_insert_eq in Hnone. }
      destruct (IH _ _ Hinv1 Hrun Hv) as [Hv1|(Hn1 & before & after_ & -> & Hnv & Hbefore)].
      * rewrite Hex in Hv1. destruct (decide (_normalizeStr x = n)) as [<-|Hne].
        -- rewrite lookup_insert_eq in Hv1. injection Hv1 as <-.
           right. split; [done|]. exists [], arr. split_and!; [done..|].
           by intros ? ?%elem_of_nil.
        -- rewrite lookup_insert_ne in Hv1 by done. by left.
      * rewrite Hex in Hn1. destruct (decide (_normalizeStr x = n)) as [<-|Hne].
        -- by rewrite lookup_insert_eq in Hn1.
        -- rewrite lookup_insert_ne in Hn1 by done.
           right. split; [done|]. exists (x :: before), after_. split_and!; [done..|].
           intros y [->|?]%elem_of_cons; [done|by apply Hbefore].
Qed.

(** X7: first insertion wins.  In an index built from a list of strings,
    the value the catalog keeps under a key is the first string of the list
    whose lower-cased form is that key. *)
Theorem catalog_keeps_first_inserted arr useLev lower upper st n v :
  FuzzySet arr useLev lower upper = Ret st →
  exactSet st !! n = Some v →
  ∃ before after_,
    arr = before ++ v :: after_ ∧ Str.toLowerCase v = n
    ∧ ∀ x, x ∈ before → Str.toLowerCase x ≠ n.
Proof.
  intros Hrun Hv.
  destruct (forM_add_first _ _ _ _ _ _ (emptyIndex_invariant useLev lower upper) Hrun Hv)
    as [Habs|[_ H]]; [|done].
  simpl in Habs. by rewrite lookup_empty in Habs.
Qed.

Lemma catalog_keeps_first_inserted_witness :
  ∃ before after_,
    ["Apple"; "apple"; "APPLE"] = before ++ "Apple" :: after_
    ∧ Str.toLowerCase "Apple" = "apple"
    ∧ ∀ x, x ∈ before → Str.toLowerCase x ≠ "apple".
Proof.
  apply (catalog_keeps_first_inserted ["Apple"; "apple"; "APPLE"] None None None appleIndex).
  - vm_compute. reflexivity.
  - vm_compute. reflexivity.
Defined.

(** ** What [get] returns *)

Lemma refine_Ret useLev n results out :
  refine useLev n results = Ret out →
  (useLev = true → length out ≤ 50)
  ∧ length out ≤ length results
  ∧ ∀ r, r ∈ out → ∃ r', r' ∈ results ∧ snd r = snd r'.
Proof.
  unfold refine. destruct useLev.
  - intros (newResults & Hnew & [= <-])%bind_Ret. apply mapM_Ret in Hnew.
    pose proof (Forall2_length _ _ _ Hnew) as Hlen. rewrite length_take in Hlen.
    rewrite sortDesc_length. split_and!; [lia..|].
    intros r Hr. rewrite sortDesc_perm in Hr.
    apply list_elem_of_lookup in Hr as [j Hj].
    destruct (Forall2_lookup_r _ _ _ _ _ Hnew Hj) as (r' & Hr' & (d & _ & [= <-])%bind_Ret).
    exists r'. split; [|done].
    apply list_elem_of_lookup_2 in Hr'. by eapply subseteq_take.
  - intros [= <-]. split_and!; [done..|]. intros r ?. by exists r.
Qed.

Lemma scoreMatches_words (records : list ItemsEntry) s matches results :
  scoreMatches (Some records) s matches = Ret results →
  length results = length matches ∧ ∀ r, r ∈ results → snd r ∈ map snd records.
Proof.
  unfold scoreMatches. intros H%mapM_Ret. split; [symmetry; by eapply Forall2_length|].
  intros r Hr. apply list_elem_of_lookup in Hr as [j Hj].
  destruct (Forall2_lookup_r _ _ _ _ _ H Hj) as ([i v] & _ & Hi). simpl in Hi.
  destruct (records !! i) as [[norm word]|] eqn:E; [|done]. injection Hi as <-. simpl.
  apply list_elem_of_fmap. exists (norm, word). split; [done|]. by eapply list_elem_of_lookup_2.
Qed.

Lemma get_Results {D} st value (d : option D) m rs :
  get st value d m = Ret (Results rs) →
  rs ≠ [] ∧ ∃ g, gramSizeLower st ≤ g ≤ gramSizeUpper st
                ∧ __get st value g (default defaultMinMatchScore m) = Ret (Some rs).
Proof.
  unfold get. intros (r & Hget & Hr)%bind_Ret.
  destruct r as [rs'|]; [|by destruct d]. injection Hr as <-.
  unfold _get in Hget.
  apply _getLoop_Some in Hget as (Hne & before & g & a & Heq & Hg & _).
  apply gramSizesDown_before in Heq as [Hr _]. eauto.
Qed.

Lemma get_results_sound {D} st value (d : option D) m rs :
  reachable st →
  get st value d m = Ret (Results rs) →
  rs ≠ []
  ∧ ∀ score word, (score, word) ∈ rs →
      geb score (default defaultMinMatchScore m) = true
      ∧ ∃ original, word = Some original
                    ∧ exactSet st !! Str.toLowerCase original = Some original.
Proof.
  intros [names Hinv]%reachable_invariant (Hne & g & Hg & Hget)%get_Results.
  split; [done|]. intros score word Hin.
  unfold __get in Hget. apply bind_Ret in Hget as ([s matches] & _ & Hget).
  case_bool_decide; [done|].
  destruct (inv_items _ _ Hinv g Hg) as (records & Hrec & Hnames & _). rewrite Hrec in Hget.
  apply bind_Ret in Hget as (results & Hscore & Hget).
  apply bind_Ret in Hget as (refined & Href & [= <-]).
  unfold finalResults in Hin. apply list_elem_of_fmap in Hin as ([sc w] & [= -> ->] & Hin).
  apply list_elem_of_filter in Hin as [Hpass Hin]. split; [done|].
  apply refine_Ret in Href as (_ & _ & Hwords).
  destruct (Hwords _ Hin) as (r' & Hr' & Hw). simpl in Hw.
  rewrite sortDesc_perm in Hr'.
  apply scoreMatches_words in Hscore as [_ Hrecs].
  specialize (Hrecs _ Hr'). rewrite <- Hw, Hnames in Hrecs.
  apply (inv_exact _ _ Hinv) in Hrecs as [v Hv]. exists v. split; [done|].
  pose proof (inv_norm _ _ Hinv _ _ Hv) as Hnv. unfold _normalizeStr in Hnv. by rewrite Hnv.
Qed.

(** X8: what [get] returns on a reachable index, when it returns results:
    the list is not empty, every score in it has passed the threshold, and
    every string in it is an original string of the catalog, stored under its
    own lower-cased form. *)
Theorem get_results_are_catalog_entries {D} st value (d : option D) m rs :
  reachable st →
  get st value d m = Ret (Results rs) →
  rs ≠ []
  ∧ ∀ score word, (score, word) ∈ rs →
      geb score (default defaultMinMatchScore m) = true
      ∧ ∃ original, word = Some original
                    ∧ exactSet st !! Str.toLowerCase original = Some original.
Proof. apply get_results_sound. Qed.

Lemma get_results_are_catalog_entries_witness :
  [(1%float, Some "Apple")] ≠ []
  ∧ ∀ score word, (score, word) ∈ [(1%float, Some "Apple")] →
      geb score (default defaultMinMatchScore None) = true
      ∧ ∃ original, word = Some original
                    ∧ exactSet appleIndex !! Str.toLowerCase original = Some original.
Proof.
  apply (get_results_are_catalog_entries (D := unit) appleIndex "apple" None None).
  - apply (reachable_add (emptyIndex None None None) "Apple");
      [apply reachable_new|vm_compute; reflexivity].
  - vm_compute. reflexivity.
Defined.

(** X9: with edit-distance refinement on, [get] never returns more than
    fifty results, whatever the index holds. *)
Theorem get_returns_at_most_fifty {D} st value (d : option D) m rs :
  useLevenshtein st = true →
  get st value d m = Ret (Results rs) →
  length rs ≤ 50.
Proof.
  intros Hlev (_ & g & _ & Hget)%get_Results.
  unfold __get in Hget. apply bind_Ret in Hget as ([s matches] & _ & Hget).
  case_bool_decide; [done|].
  apply bind_Ret in Hget as (results & _ & Hget).
  apply bind_Ret in Hget as (refined & Href & [= <-]).
  apply refine_Ret in Href as (Hfifty & _). specialize (Hfifty Hlev).
  unfold finalResults. rewrite length_map.
  etrans; [apply length_filter|done].
Qed.

Lemma get_returns_at_most_fifty_witness :
  length [(0.5%float, Some "ac"); (0.5%float, Some "cb")] ≤ 50.
Proof.
  apply (get_returns_at_most_fifty (D := unit) (orEmpty abIndex) "ab" None (Some 0.375%float)).
  - vm_compute. reflexivity.
  - vm_compute. reflexivity.
Defined.

(** ** The shape of grams *)

Lemma substring_length i n s :
  i + n ≤ String.length s → String.length (substring i n s) = n.
Proof.
  revert i n. induction s as [|c s IH]; intros [|i] [|n] H; simpl in *; try lia; try done.
  - f_equal. apply (IH 0 n). lia.
  - apply (IH i 0). lia.
  - apply (IH i (S n)). lia.
Qed.

Lemma forall_chars_app p s t :
  Str.forall_chars p (s +:+ t) = Str.forall_chars p s && Str.forall_chars p t.
Proof. induction s as [|c s IH]; simpl; [done|]. by rewrite IH, andb_assoc. Qed.

Lemma forall_chars_substring p i n s :
  Str.forall_chars p s = true → Str.forall_chars p (substring i n s) = true.
Proof.
  revert i n. induction s as [|c s IH]; intros [|i] [|n]; simpl; try done.
  - intros [-> H]%andb_true_iff. simpl. by apply (IH 0 n).
  - intros [_ H]%andb_true_iff. by apply (IH i 0).
  - intros [_ H]%andb_true_iff. by apply (IH i (S n)).
Qed.

Lemma forall_chars_repeat p c n : p c = true → Str.forall_chars p (Str.repeat_char c n) = true.
Proof. intros H. induction n as [|n IH]; simpl; [done|]. by rewrite H, IH. Qed.

Lemma toLowerCase_lower s :
  Str.forall_chars (λ c, bool_decide (Str.lower_char c = c)) (Str.toLowerCase s) = true.
Proof.
  induction s as [|c s IH]; simpl; [done|].
  by rewrite IH, bool_decide_true by apply lower_char_idem.
Qed.

Lemma padded_lower value g :
  Str.forall_chars (λ c, bool_decide (Str.lower_char c = c)) (padTo g (simplify value)) = true.
Proof.
  unfold padTo, simplify. rewrite !forall_chars_app, replace_nonWord.
  rewrite forall_chars_repeat by done.
  assert (Str.forall_chars (λ c, bool_decide (Str.lower_char c = c))
            (stripped (Str.toLowerCase value)) = true) as ->; [|done].
  unfold stripped. destruct (_ && _); [done|apply toLowerCase_lower].
Qed.

Lemma _iterateGrams_shape value gramSize :
  (∀ gram, gram ∈ _iterateGrams value gramSize →
     String.length gram = orTwo gramSize ∧ Str.toLowerCase gram = gram)
  ∧ length (_iterateGrams value gramSize)
    = Nat.max (String.length (stripped (Str.toLowerCase value)) + 2) (orTwo gramSize) + 1
      - orTwo gramSize.
Proof.
  unfold _iterateGrams. set (G := orTwo gramSize). set (padded := padTo G (simplify value)).
  assert (Hlen : String.length padded
                 = Nat.max (String.length (stripped (Str.toLowerCase value)) + 2) G).
  { unfold padded, padTo, simplify.
    rewrite !string_length_app, repeat_char_length, replace_nonWord. simpl. lia. }
  split.
  - intros gram (i & -> & [_ Hi]%elem_of_seq)%list_elem_of_fmap.
    unfold Str.slice. replace (i + G - i) with G by lia. split.
    + apply substring_length. lia.
    + pose proof (forall_chars_substring _ i G _ (padded_lower value G)) as Hlow.
      fold padded in Hlow. revert Hlow. generalize (substring i G padded).
      intros s. induction s as [|c s IH]; simpl; [done|].
      intros [Hc Hs]%andb_true_iff. apply bool_decide_eq_true in Hc. by rewrite Hc, IH.
  - rewrite length_map, length_seq, Hlen. done.
Qed.

(** X10: every gram of a string has exactly [gramSize] characters (2 when
    [gramSize] is 0), none of which [toLowerCase] would change, and a string
    whose filtered lower-cased form has [n] characters has
    [max(n + 2, gramSize) + 1 - gramSize] grams. *)
Theorem grams_have_gram_size value gramSize :
  (∀ gram, gram ∈ _iterateGrams value gramSize →
     String.length gram = orTwo gramSize ∧ Str.toLowerCase gram = gram)
  ∧ length (_iterateGrams value gramSize)
    = Nat.max (String.length (stripped (Str.toLowerCase value)) + 2) (orTwo gramSize) + 1
      - orTwo gramSize.
Proof. apply _iterateGrams_shape. Qed.

(** ** Where no [TypeError] can arise *)

(** Among the names a plain object inherits, only two are left unchanged by
    [toLowerCase]. *)
Lemma inherited_lower gram :
  Obj.inherited gram = true → Str.toLowerCase gram = gram →
  gram = "constructor" ∨ gram = "__proto__".
Proof.
  intros Hin%bool_decide_eq_true Hlow. unfold Obj.prototypeKeys in Hin.
  repeat (apply elem_of_cons in Hin as [-> |Hin]; [first [by left|by right|discriminate Hlow]|]).
  by apply elem_of_nil in Hin.
Qed.

Lemma elem_of_setA {V} (o : list (string * V)) k v kv :
  kv ∈ Obj.setA o k v → kv = (k, v) ∨ kv ∈ o.
Proof.
  induction o as [|[k' v'] o IH]; simpl.
  - intros ->%list_elem_of_singleton. by left.
  - case_bool_decide.
    + intros [-> |?]%elem_of_cons; [left; by subst|right; by right].
    + intros [->|[-> |?]%IH]%elem_of_cons; [right; by left|by left|right; by right].
Qed.

Lemma lookupA_None_elem {V} (o : list (string * V)) k v :
  Obj.lookupA o k = None → (k, v) ∉ o.
Proof.
  induction o as [|[k' v'] o IH]; simpl; [by intros _ ?%elem_of_nil|].
  case_bool_decide as Hk; [done|].
  intros Hnone [[= -> ->]|?]%elem_of_cons; [done|by apply IH].
Qed.

Lemma countGram_good result gram :
  (Obj.inherited gram = true → gram = "__proto__") →
  goodCounts result → goodCounts (countGram result gram).
Proof.
  intros Hgram Hgood. unfold countGram, Obj.hasA.
  destruct (Obj.lookupA result gram) as [[n|]|] eqn:E; simpl.
  - intros kv [-> |?]%elem_of_setA; [|by apply Hgood].
    split; [|by eexists]. by apply (Hgood (gram, Num n)), lookupA_elem.
  - done.
  - destruct (Obj.inherited gram) eqn:Ei.
    + by rewrite bool_decide_true by auto.
    + simpl. intros kv [-> |?]%elem_of_setA; [|by apply Hgood]. split; [done|by eexists].
Qed.

Lemma _gramCounter_good value gramSize :
  gramSize ≠ 11 → goodCounts (_gramCounter value gramSize).
Proof.
  intros Hsize. unfold _gramCounter.
  assert (Hgrams : ∀ gram, gram ∈ _iterateGrams value (orTwo gramSize) →
                   Obj.inherited gram = true → gram = "__proto__").
  { intros gram Hgram Hinh. apply _iterateGrams_shape in Hgram as [Hlen Hlow].
    destruct (inherited_lower gram Hinh Hlow) as [-> | ->]; [|done].
    simpl in Hlen. unfold orTwo in Hlen.
    destruct (Nat.eqb_spec gramSize 0); simpl in Hlen; [done|].
    destruct (Nat.eqb_spec gramSize 0); lia. }
  revert Hgrams. generalize (_iterateGrams value (orTwo gramSize)).
  assert (Hnil : goodCounts []) by (by intros ? ?%elem_of_nil).
  revert Hnil. generalize (@nil (string * count)).
  intros result Hgood grams. revert result Hgood.
  induction grams as [|gram grams IH]; intros result Hgood Hgrams; simpl; [done|].
  apply IH.
  - apply countGram_good; [|done]. apply Hgrams. by left.
  - intros g ?. apply Hgrams. by right.
Qed.

Lemma forM_total {S X} (body : S → X → outcome S) st xs :
  (∀ s x, x ∈ xs → ∃ s', body s x = Ret s') → ∃ st', forM body st xs = Ret st'.
Proof.
  revert st. induction xs as [|x xs IH]; intros st H; simpl; [by eexists|].
  destruct (H st x) as [s' ->]; [by left|]. simpl. apply IH. intros s y ?. apply H. by right.
Qed.

Lemma goodCounts_forIn result : goodCounts result → goodCounts (Obj.forIn result).
Proof. intros H kv Hkv. apply H. by apply forIn_elem. Qed.

Lemma addGram_total index acc kv :
  Obj.inherited (fst kv) = false → (∃ c, snd kv = Num c) →
  ∃ acc', addGram index acc kv = Ret acc'.
Proof.
  destruct acc as [s md], kv as [gram cnt]. simpl. intros Hinh [c ->].
  unfold addGram, Obj.has. rewrite Hinh, orb_false_r.
  destruct (md !! gram) as [ps|] eqn:E.
  - rewrite bool_decide_true by eauto. by eexists.
  - rewrite bool_decide_false by (by intros [? ?]). by eexists.
Qed.

Lemma scoreGram_total md acc kv :
  Obj.inherited (fst kv) = false → (∃ c, snd kv = Num c) →
  ∃ acc', scoreGram md acc kv = Ret acc'.
Proof.
  destruct acc as [s matches], kv as [gram cnt]. simpl. intros Hinh [c ->].
  unfold scoreGram, Obj.has. rewrite Hinh, orb_false_r.
  destruct (md !! gram) as [ps|] eqn:E.
  - rewrite bool_decide_true by eauto. by eexists.
  - rewrite bool_decide_false by (by intros [? ?]). by eexists.
Qed.

Lemma _add_total st value g : g ≠ 11 → ∃ st', _add st value g = Ret st'.
Proof.
  intros Hg. unfold _add.
  destruct (forM_total (addGram (length (default [] (items st !! g)))) (0, matchDict st)
              (Obj.forIn (_gramCounter (_normalizeStr value) g))) as [[s md'] ->].
  - intros acc kv Hkv.
    destruct (goodCounts_forIn _ (_gramCounter_good (_normalizeStr value) g Hg) kv Hkv).
    by apply addGram_total.
  - simpl. by eexists.
Qed.

Lemma add_total st value :
  (∀ g, gramSizeLower st ≤ g ≤ gramSizeUpper st → g ≠ 11) → ∃ st', add st value = Ret st'.
Proof.
  intros Hsizes. unfold add. destruct (Obj.has _ _); [by eexists|].
  apply forM_total. intros s g Hg%gramSizes_elem. by apply _add_total, Hsizes.
Qed.

Lemma refine_total useLev n results : ∃ out, refine useLev n results = Ret out.
Proof.
  unfold refine. destruct useLev; [|by eexists].
  destruct (mapM_total (λ r : float * string,
              d ← _distance (Some (snd r)) (Some n); Ret (d, snd r))
              (take (Nat.min 50 (length results)) results)) as [newResults ->].
  - intros r _. simpl. by eexists.
  - simpl. by eexists.
Qed.

Lemma __get_total st names value g m :
  invariant st names → gramSizeLower st ≤ g ≤ gramSizeUpper st → g ≠ 11 →
  ∃ r, __get st value g m = Ret r.
Proof.
  intros Hinv Hrange Hg. unfold __get.
  destruct (forM_total (scoreGram (matchDict st)) (0, [])
              (Obj.forIn (_gramCounter (_normalizeStr value) g))) as [[s matches] Hcollect].
  { intros acc kv Hkv.
    destruct (goodCounts_forIn _ (_gramCounter_good (_normalizeStr value) g Hg) kv Hkv).
    by apply scoreGram_total. }
  assert (Hcollect' : collectMatches st (_normalizeStr value) g = Ret (s, matches)) by done.
  rewrite Hcollect'. simpl. case_bool_decide; [by eexists|].
  destruct (inv_items _ _ Hinv g Hrange) as (records & -> & Hnames & _).
  destruct (collectMatches_Ret _ _ _ _ _ _ Hinv Hcollect') as (_ & _ & Hvalid).
  destruct (scoreMatches_total records s matches) as (results & -> & _).
  { intros i Hi. rewrite <- Hnames, length_map in Hvalid. by apply Hvalid. }
  simpl. destruct (refine_total (useLevenshtein st) (_normalizeStr value) (sortDesc results))
    as [out ->]. simpl. by eexists.
Qed.

Lemma _getLoop_total st value m sizes :
  (∀ g, g ∈ sizes → ∃ r, __get st value g m = Ret r) →
  ∃ r, _getLoop st value m sizes = Ret r.
Proof.
  induction sizes as [|g sizes IH]; intros H; simpl; [by eexists|].
  destruct (H g) as [r ->]; [by left|]. simpl.
  destruct r as [[|x rs]|]; [|by eexists|]; apply IH; intros g' ?; apply H; by right.
Qed.

Lemma reachable_total st :
  reachable st →
  (∀ g, gramSizeLower st ≤ g ≤ gramSizeUpper st → g ≠ 11) →
  (∀ value, ∃ st', add st value = Ret st')
  ∧ (∀ D value (d : option D) m, ∃ r, get st value d m = Ret r).
Proof.
  intros [names Hinv]%reachable_invariant Hsizes. split.
  - intros value. by apply add_total.
  - intros D value d m. unfold get, _get.
    destruct (_getLoop_total st value (default defaultMinMatchScore m)
                (gramSizesDown (gramSizeLower st) (gramSizeUpper st))) as [r ->].
    + intros g Hg%gramSizesDown_elem. eapply __get_total; [done..|by apply Hsizes].
    + simpl. destruct r, d; by eexists.
Qed.

(** X11: as long as 11 is not among the configured gram sizes, no [add] and
    no [get] on a reachable index ends in an exception: [add] returns an
    index, [get] returns results, the default value or [null]. *)
Theorem no_exception_without_gram_size_11 st :
  reachable st →
  (∀ g, gramSizeLower st ≤ g ≤ gramSizeUpper st → g ≠ 11) →
  (∀ value, ∃ st', add st value = Ret st')
  ∧ (∀ D value (d : option D) m, ∃ r, get st value d m = Ret r).
Proof. apply reachable_total. Qed.

Lemma no_exception_without_gram_size_11_witness :
  (∀ value, ∃ st', add appleIndex value = Ret st')
  ∧ (∀ D value (d : option D) m, ∃ r, get appleIndex value d m = Ret r).
Proof.
  apply (no_exception_without_gram_size_11 appleIndex).
  - apply (reachable_add (emptyIndex None None None) "Apple");
      [apply reachable_new|vm_compute; reflexivity].
  - intros g Hg. change (2 ≤ g ≤ 3) in Hg. lia.
Defined.

(** X12: a reachable index without entries never returns results; unless
    11 is a configured gram size, [get] returns the default value when one
    is supplied and [null] otherwise. *)
Theorem get_on_empty_index {D} st value (d : option D) m :
  reachable st →
  length_ st = 0 →
  (∀ rs, get st value d m ≠ Ret (Results rs))
  ∧ ((∀ g, gramSizeLower st ≤ g ≤ gramSizeUpper st → g ≠ 11) →
     get st value d m = Ret (match d with Some d => Default d | None => Null end)).
Proof.
  intros Hreach Hlen.
  assert (Hnone : ∀ rs, get st value d m ≠ Ret (Results rs)).
  { intros rs Hget.
    destruct (get_results_sound _ _ _ _ _ Hreach Hget) as [Hne Hall].
    destruct rs as [|[score word] rs]; [done|].
    destruct (Hall score word) as (_ & v & _ & Hv); [by left|].
    apply map_size_empty_iff in Hlen. unfold length_ in Hlen.
    rewrite Hlen in Hv. by rewrite lookup_empty in Hv. }
  split; [done|]. intros Hsizes.
  destruct (reachable_total st Hreach Hsizes) as [_ Hget].
  destruct (Hget D value d m) as [r Hr]. rewrite Hr.
  unfold get in Hr. apply bind_Ret in Hr as (res & Hres & Hr).
  destruct res as [rs|].
  - injection Hr as <-. exfalso. apply (Hnone rs). unfold get. by rewrite Hres.
  - destruct d; by injection Hr as <-.
Qed.

Lemma get_on_empty_index_witness :
  (∀ rs, get (D := unit) (emptyIndex None None None) "ring" None None ≠ Ret (Results rs))
  ∧ ((∀ g, gramSizeLower (emptyIndex None None None) ≤ g
            ≤ gramSizeUpper (emptyIndex None None None) → g ≠ 11) →
     get (D := unit) (emptyIndex None None None) "ring" None None = Ret Null).
Proof.
  apply (get_on_empty_index (emptyIndex None None None) "ring" None None).
  - apply reachable_new.
  - reflexivity.
Defined.

(** ** How many matches *)

Lemma addMatch_sorted matches index v :
  StronglySorted lt matches.*1 → StronglySorted lt (addMatch matches index v).*1.
Proof.
  induction matches as [|[j m] matches IH]; simpl; [repeat constructor|].
  intros Hs. apply StronglySorted_inv in Hs as [Hs Hall].
  destruct (Nat.ltb_spec index j); simpl.
  - constructor; [by constructor|]. constructor; [done|].
    eapply Forall_impl; [exact Hall|]. simpl. lia.
  - destruct (Nat.eqb_spec index j) as [->|Hne]; simpl; [by constructor|].
    constructor; [by apply IH|].
    apply Forall_forall. intros i [-> |Hi]%addMatch_keys; [lia|].
    rewrite Forall_forall in Hall. by apply Hall.
Qed.

Lemma scoreGram_sorted md s matches kv s' matches' :
  scoreGram md (s, matches) kv = Ret (s', matches') →
  StronglySorted lt matches.*1 → StronglySorted lt matches'.*1.
Proof.
  destruct kv as [gram [c|]]; [|done]. unfold scoreGram.
  destruct (Obj.has md gram); [|by intros [= <- <-]].
  destruct (md !! gram) as [ps|].
  - intros [= <- <-]. clear. revert matches.
    induction ps as [|[i o] ps IH]; intros matches Hs; simpl; [done|].
    by apply IH, addMatch_sorted.
  - destruct (Obj.inheritedLength gram) as [[|k]|]; [|done|]; by intros [= <- <-].
Qed.

Lemma collectMatches_sorted st value g s matches :
  collectMatches st value g = Ret (s, matches) → StronglySorted lt matches.*1.
Proof.
  unfold collectMatches. intros Hrun.
  apply (forM_invariant _ (λ _ acc, StronglySorted lt (snd acc).*1)) in Hrun; [done|..].
  - constructor.
  - intros seen kv todo [s1 m1] [s2 m2] _ Hs Hstep. simpl in *.
    by eapply scoreGram_sorted.
Qed.

Lemma sorted_below_length (l : list nat) lo n :
  StronglySorted lt l → (∀ x, x ∈ l → lo ≤ x < n) → length l ≤ n - lo.
Proof.
  revert lo. induction l as [|x l IH]; intros lo Hs Hb; simpl; [lia|].
  apply StronglySorted_inv in Hs as [Hs Hall].
  assert (lo ≤ x < n) by (apply Hb; by left).
  assert (length l ≤ n - S x); [|lia].
  apply IH; [done|]. intros y Hy. rewrite Forall_forall in Hall.
  assert (x < y) by (by apply Hall).
  assert (lo ≤ y < n) by (apply Hb; by right). lia.
Qed.

(** X13: on a reachable index [get] never returns more results than the
    index has entries: the matches of a query are distinct entries. *)
Theorem get_returns_at_most_length {D} st value (d : option D) m rs :
  reachable st →
  get st value d m = Ret (Results rs) →
  length rs ≤ length_ st.
Proof.
  intros [names Hinv]%reachable_invariant (_ & g & Hg & Hget)%get_Results.
  unfold __get in Hget. apply bind_Ret in Hget as ([s matches] & Hcollect & Hget).
  case_bool_decide; [done|].
  destruct (inv_items _ _ Hinv g Hg) as (records & Hrec & Hnames & _). rewrite Hrec in Hget.
  apply bind_Ret in Hget as (results & Hscore & Hget).
  apply bind_Ret in Hget as (refined & Href & [= <-]).
  apply refine_Ret in Href as (_ & Hlen & _). rewrite sortDesc_length in Hlen.
  apply scoreMatches_words in Hscore as [Hlen' _].
  pose proof (collectMatches_sorted _ _ _ _ _ Hcollect) as Hsorted.
  apply (collectMatches_Ret _ _ _ _ _ _ Hinv) in Hcollect as (_ & _ & Hvalid).
  pose proof (sorted_below_length _ 0 (length names) Hsorted) as Hbound.
  rewrite length_fmap in Hbound.
  unfold finalResults. rewrite length_map, (invariant_size _ _ Hinv).
  etrans; [apply length_filter|].
  assert (length matches ≤ length names - 0); [|lia].
  apply Hbound. intros i Hi. specialize (Hvalid i Hi). lia.
Qed.

Lemma get_returns_at_most_length_witness :
  length [(0.5%float, Some "ac"); (0.5%float, Some "cb")] ≤ length_ (orEmpty abIndex).
Proof.
  apply (get_returns_at_most_length (D := unit) (orEmpty abIndex) "ab" None (Some 0.375%float)).
  - apply (FuzzySet_reachable ["ac"; "cb"; "abzzzzzzzz"] None None None).
    vm_compute. reflexivity.
  - vm_compute. reflexivity.
Defined.

(** ** Where postings come from *)

Lemma forM_addGram_sound index kvs s md s' md' :
  forM (addGram index) (s, md) kvs = Ret (s', md') →
  ∀ gram ps' e, md' !! gram = Some ps' → e ∈ ps' →
    (∃ ps, md !! gram = Some ps ∧ e ∈ ps) ∨ (fst e = index ∧ (gram, Num (snd e)) ∈ kvs).
Proof.
  revert s md. induction kvs as [|[gram0 cnt] kvs IH]; intros s md Hrun gram ps' e Hps He.
  - simpl in Hrun. injection Hrun as <- <-. left. eauto.
  - simpl in Hrun. apply bind_Ret in Hrun as ([s1 md1] & Hstep & Hrun).
    apply addGram_Ret in Hstep as (c & -> & -> & ->).
    destruct (IH _ _ Hrun gram ps' e Hps He) as [(ps & Hps0 & Hin)|[? ?]];
      [|right; split; [done|by right]].
    destruct (decide (gram = gram0)) as [->|Hne].
    + rewrite lookup_insert_eq in Hps0. injection Hps0 as <-.
      apply elem_of_app in Hin as [Hin|Hin%list_elem_of_singleton].
      * destruct (md !! gram0) as [ps0|]; [|by apply elem_of_nil in Hin]. left. eauto.
      * subst e. right. split; [done|by left].
    + rewrite lookup_insert_ne in Hps0 by done. left. eauto.
Qed.

Lemma add_sound st names value st' :
  invariant st names → postingsSound st names →
  add st value = Ret st' →
  (st' = st ∧ postingsSound st' names)
  ∨ (invariant st' (names ++ [_normalizeStr value])
     ∧ postingsSound st' (names ++ [_normalizeStr value])).
Proof.
  intros Hinv Hsound Hadd.
  destruct (add_invariant _ _ _ _ Hinv Hadd) as [[-> _]|(Hhas & Hle & _ & Hinv')];
    [by left|right]. split; [done|].
  unfold add in Hadd. rewrite Hhas in Hadd.
  apply Obj_has_false in Hhas as [Hnone Hinh].
  set (n := _normalizeStr value) in *.
  set (sizes := gramSizes (gramSizeLower st) (gramSizeUpper st)) in *.
  assert (Hgen : ∀ seen s,
    (∃ todo, sizes = seen ++ todo) → forM (λ st i, _add st value i) st seen = Ret s →
    ∀ gram ps i c, matchDict s !! gram = Some ps → (i, c) ∈ ps →
      (∃ ps0, matchDict st !! gram = Some ps0 ∧ (i, c) ∈ ps0)
      ∨ (i = length names ∧ ∃ g, g ∈ seen ∧ (gram, Num c) ∈ _gramCounter n g)).
  { induction seen as [|x seen IH] using rev_ind; intros s [todo Htodo] Hrun.
    - injection Hrun as <-. intros gram ps i c ? ?. left. eauto.
    - rewrite forM_app in Hrun. apply bind_Ret in Hrun as (s1 & Hrun1 & Hstep).
      simpl in Hstep. apply bind_Ret in Hstep as (s2 & Hstep & [= ->]).
      assert (Hnd : NoDup (seen ++ [x])).
      { pose proof (gramSizes_NoDup (gramSizeLower st) (gramSizeUpper st)) as Hnd.
        fold sizes in Hnd. rewrite Htodo in Hnd. by apply NoDup_app in Hnd as [? _]. }
      assert (Hin : ∀ g, g ∈ seen ++ [x] → g ∈ sizes).
      { intros g ?. rewrite Htodo. apply elem_of_app. by left. }
      destruct (add_loop st names value seen s1 Hinv Hinh) as (_ & _ & _ & _ & _ & Hrest & _).
      { by apply NoDup_app in Hnd as [? _]. }
      { intros g ?. apply gramSizes_elem, Hin, elem_of_app. by left. }
      { done. }
      apply _add_Ret in Hstep as (md' & Hloop & _ & ->). simpl. fold n in Hloop.
      assert (Hx : x ∉ seen).
      { apply NoDup_app in Hnd as (_ & Hfresh & _). intros ?. eapply Hfresh; [done|by left]. }
      destruct (inv_items _ _ Hinv x) as (l & Hl & Hnames & _).
      { apply gramSizes_elem, Hin, elem_of_app. right. by left. }
      rewrite (Hrest x Hx), Hl in Hloop. cbn [default from_option] in Hloop.
      unfold id in Hloop.
      replace (length l) with (length names) in Hloop by (by rewrite <- Hnames, length_map).
      intros gram ps i c Hps Hic.
      destruct (forM_addGram_sound _ _ _ _ _ _ Hloop gram ps (i, c) Hps Hic)
        as [(ps1 & Hps1 & Hin1)|[Hi Hkv]].
      + assert (Hpre : ∃ todo', sizes = seen ++ todo').
        { exists ([x] ++ todo). by rewrite Htodo, <- app_assoc. }
        destruct (IH s1 Hpre Hrun1 gram ps1 i c Hps1 Hin1)
          as [?|(-> & g & Hg & Hgc)]; [by left|].
        right. split; [done|]. exists g. split; [|done]. apply elem_of_app. by left.
      + simpl in Hi, Hkv. right. split; [done|]. exists x.
        split; [apply elem_of_app; right; by left|]. by apply forIn_elem. }
  assert (Hlo : gramSizeLower st' = gramSizeLower st ∧ gramSizeUpper st' = gramSizeUpper st).
  { destruct (add_loop st names value sizes st' Hinv Hinh) as (? & ? & _);
      [apply gramSizes_NoDup|intros g; apply gramSizes_elem|done|done]. }
  destruct Hlo as [Hlo Hup].
  intros gram ps i c Hps Hic. rewrite Hlo, Hup.
  assert (Hall : ∃ todo, sizes = sizes ++ todo) by (exists []; by rewrite app_nil_r).
  destruct (Hgen sizes st' Hall Hadd gram ps i c Hps Hic)
    as [(ps0 & Hps0 & Hin0)|(-> & g & Hg & Hgc)].
  - destruct (Hsound gram ps0 i c Hps0 Hin0) as (g & n0 & Hg & Hi & Hgc).
    exists g, n0. split; [done|]. split; [|done]. by apply lookup_app_l_Some.
  - exists g, n. split; [by apply gramSizes_elem|]. split; [|done].
    by rewrite lookup_app_r, Nat.sub_diag.
Qed.

Lemma reachable_sound st :
  reachable st → ∃ names, invariant st names ∧ postingsSound st names.
Proof.
  induction 1 as [useLev lower upper|st value st' _ (names & Hinv & Hsound) Hadd].
  - exists []. split; [apply emptyIndex_invariant|].
    intros gram ps i c Hps. simpl in Hps. by rewrite lookup_empty in Hps.
  - destruct (add_sound _ _ _ _ Hinv Hsound Hadd) as [[-> ?]|[? ?]]; eauto.
Qed.

Lemma orTwo_idem g : orTwo (orTwo g) = orTwo g.
Proof. unfold orTwo. by destruct g. Qed.

Lemma _iterateGrams_orTwo value g g' :
  orTwo g = orTwo g' → _iterateGrams value g = _iterateGrams value g'.
Proof. unfold _iterateGrams. by intros ->. Qed.

Lemma _iterateGrams_lower value g :
  _iterateGrams (Str.toLowerCase value) g = _iterateGrams value g.
Proof. unfold _iterateGrams, simplify. by rewrite toLowerCase_idem. Qed.

Lemma countGrams_keys grams result kv :
  kv ∈ fold_left countGram grams result → kv ∈ result ∨ fst kv ∈ grams.
Proof.
  revert result. induction grams as [|gram grams IH]; intros result; simpl; [by left|].
  intros [Hin|?]%IH; [|right; by right].
  unfold countGram in Hin.
  assert (∀ v, kv ∈ Obj.setA result gram v → kv ∈ result ∨ fst kv ∈ gram :: grams) as Hset.
  { intros v [-> |?]%elem_of_setA; [right; by left|by left]. }
  destruct (Obj.hasA result gram); [|by eapply Hset].
  destruct (Obj.lookupA result gram) as [[n|]|]; [by eapply Hset|by left|].
  case_bool_decide; [by left|by eapply Hset].
Qed.

Lemma _gramCounter_keys value g kv :
  kv ∈ _gramCounter value g → fst kv ∈ _iterateGrams value g.
Proof.
  unfold _gramCounter. intros [?%elem_of_nil|Hin]%countGrams_keys; [done|].
  by rewrite (_iterateGrams_orTwo value g (orTwo g)) by (by rewrite orTwo_idem).
Qed.

Lemma scoreMatches_index (records : list ItemsEntry) s matches results r :
  scoreMatches (Some records) s matches = Ret results → r ∈ results →
  ∃ i, i ∈ matches.*1 ∧ (map snd records) !! i = Some (snd r).
Proof.
  unfold scoreMatches. intros H%mapM_Ret Hr. apply list_elem_of_lookup in Hr as [j Hj].
  destruct (Forall2_lookup_r _ _ _ _ _ H Hj) as ([i v] & Hm & Hi). simpl in Hi.
  destruct (records !! i) as [[norm word]|] eqn:E; [|done]. injection Hi as <-. simpl.
  exists i. split.
  - apply list_elem_of_fmap. exists (i, v). split; [done|]. by eapply list_elem_of_lookup_2.
  - by rewrite list_lookup_fmap, E.
Qed.

(** X14: a string is returned only if it shares a gram with the query: on
    a reachable index every result of [get] is an original string of the
    catalog that has, at one configured gram size, a gram in common with the
    query. *)
Theorem get_results_share_a_gram {D} st value (d : option D) m rs :
  reachable st →
  get st value d m = Ret (Results rs) →
  Forall (λ r, ∃ original gram g,
            snd r = Some original
            ∧ gramSizeLower st ≤ g ≤ gramSizeUpper st
            ∧ gram ∈ _iterateGrams value g ∧ gram ∈ _iterateGrams original g) rs.
Proof.
  intros (names & Hinv & Hsound)%reachable_sound (_ & g & Hg & Hget)%get_Results.
  apply Forall_forall. intros [score word] Hin.
  unfold __get in Hget. apply bind_Ret in Hget as ([s matches] & Hcollect & Hget).
  case_bool_decide; [done|].
  destruct (inv_items _ _ Hinv g Hg) as (records & Hrec & Hnames & _). rewrite Hrec in Hget.
  apply bind_Ret in Hget as (results & Hscore & Hget).
  apply bind_Ret in Hget as (refined & Href & [= <-]).
  unfold finalResults in Hin. apply list_elem_of_fmap in Hin as ([sc w] & [= -> ->] & Hin).
  apply list_elem_of_filter in Hin as [_ Hin].
  apply refine_Ret in Href as (_ & _ & Hwords).
  destruct (Hwords _ Hin) as ([sc' w'] & Hr' & Hw). simpl in Hw. subst w'.
  rewrite sortDesc_perm in Hr'.
  destruct (scoreMatches_index _ _ _ _ _ Hscore Hr') as (i & Hi & Hname).
  rewrite Hnames in Hname. simpl in Hname.
  unfold collectMatches in Hcollect. apply forM_scoreGram in Hcollect as (_ & _ & Hkeys).
  apply Hkeys in Hi as [?%elem_of_nil|(gram & cnt & ps & Hgram & Hps & Hi)]; [done|].
  rewrite forIn_elem in Hgram. apply _gramCounter_keys in Hgram. simpl in Hgram.
  apply list_elem_of_fmap in Hi as ([i' c] & -> & Hic). simpl in Hname.
  destruct (Hsound gram ps i' c Hps Hic) as (g' & n & Hg' & Hn & Hgc).
  assert (n = w) as -> by congruence.
  apply _gramCounter_keys in Hgc. simpl in Hgc.
  assert (Hw' : w ∈ names) by (by eapply list_elem_of_lookup_2).
  apply (inv_exact _ _ Hinv) in Hw' as [original Hv]. rewrite Hv.
  pose proof (inv_norm _ _ Hinv _ _ Hv) as Hnv. unfold _normalizeStr in *. subst w.
  rewrite _iterateGrams_lower in Hgram, Hgc.
  exists original, gram, g. split_and!; [done|lia|lia|done|].
  rewrite (_iterateGrams_orTwo original g g'); [done|].
  pose proof (_iterateGrams_shape value g) as [Hq _].
  pose proof (_iterateGrams_shape original g') as [He _].
  destruct (Hq gram Hgram) as [<- _]. by destruct (He gram Hgc) as [<- _].
Qed.

Lemma get_results_share_a_gram_witness :
  Forall (λ r, ∃ original gram g,
            snd r = Some original
            ∧ gramSizeLower appleIndex ≤ g ≤ gramSizeUpper appleIndex
            ∧ gram ∈ _iterateGrams "apple" g ∧ gram ∈ _iterateGrams original g)
         [(1%float, Some "Apple")].
Proof.
  apply (get_results_share_a_gram (D := unit) appleIndex "apple" None None).
  - apply (reachable_add (emptyIndex None None None) "Apple");
      [apply reachable_new|vm_compute; reflexivity].
  - vm_compute. reflexivity.
Defined.

(** ** What the gram counter counts *)

Lemma countGram_other result gram k :
  gram ≠ k → Obj.lookupA (countGram result gram) k = Obj.lookupA result k.
Proof.
  intros Hne. unfold countGram.
  destruct (Obj.hasA result gram); [|by apply lookupA_setA_ne].
  destruct (Obj.lookupA result gram) as [[n|]|]; [by apply lookupA_setA_ne|done|].
  case_bool_decide; [done|by apply lookupA_setA_ne].
Qed.

Lemma countGram_same result gram :
  Obj.inherited gram = false →
  Obj.lookupA (countGram result gram) gram
  = match Obj.lookupA result gram with
    | Some (Num n) => Some (Num (n + 1))
    | Some NotNum => Some NotNum
    | None => Some (Num 1)
    end.
Proof.
  intros Hinh. unfold countGram, Obj.hasA. rewrite Hinh, orb_false_r.
  destruct (Obj.lookupA result gram) as [[n|]|] eqn:E.
  - rewrite bool_decide_true by eauto. apply lookupA_setA_eq.
  - by rewrite bool_decide_true by eauto.
  - rewrite bool_decide_false by (by intros [? ?]). apply lookupA_setA_eq.
Qed.

Lemma occurrences_cons_eq gram grams : occurrences gram (gram :: grams) = S (occurrences gram grams).
Proof. unfold occurrences. by rewrite filter_cons_True. Qed.

Lemma occurrences_cons_ne gram x grams :
  x ≠ gram → occurrences gram (x :: grams) = occurrences gram grams.
Proof. intros. unfold occurrences. by rewrite filter_cons_False. Qed.

Lemma countGrams_count grams result gram :
  Obj.inherited gram = false →
  (∀ v, Obj.lookupA result gram = Some v → ∃ n, v = Num n) →
  Obj.lookupA (fold_left countGram grams result) gram
  = match occurrences gram grams, Obj.lookupA result gram with
    | 0, r => r
    | S k, Some (Num n) => Some (Num (n + S k))
    | S k, _ => Some (Num (S k))
    end.
Proof.
  intros Hinh. revert result. induction grams as [|x grams IH]; intros result Hnum.
  - done.
  - cbn [fold_left]. destruct (decide (x = gram)) as [->|Hne].
    + rewrite occurrences_cons_eq, IH.
      * rewrite countGram_same by done. cbv beta iota.
        destruct (Obj.lookupA result gram) as [[n|]|] eqn:E.
        -- destruct (occurrences gram grams); [by rewrite Nat.add_1_r|].
           do 2 f_equal. lia.
        -- by destruct (Hnum _ eq_refl).
        -- by destruct (occurrences gram grams).
      * intros v. rewrite countGram_same by done.
        destruct (Obj.lookupA result gram) as [[n|]|] eqn:E;
          [intros [= <-]; eauto| |intros [= <-]; eauto].
        by destruct (Hnum _ eq_refl).
    + rewrite occurrences_cons_ne by done. rewrite IH; rewrite countGram_other by done; done.
Qed.

(** X15: the gram counter counts occurrences.  For a gram that is not a
    name a plain object inherits, the count [_gramCounter] keeps is the
    number of times the gram occurs among the grams of the string, and a
    gram that does not occur has no entry. *)
Theorem _gramCounter_counts_occurrences value gramSize gram :
  Obj.inherited gram = false →
  Obj.lookupA (_gramCounter value gramSize) gram
  = match occurrences gram (_iterateGrams value gramSize) with
    | 0 => None
    | c => Some (Num c)
    end.
Proof.
  intros Hinh. unfold _gramCounter.
  rewrite countGrams_count by done.
  rewrite (_iterateGrams_orTwo value (orTwo gramSize) gramSize) by apply orTwo_idem.
  by destruct (occurrences _ _).
Qed.

Lemma _gramCounter_counts_occurrences_witness :
  Obj.lookupA (_gramCounter "banana" 2) "an" = Some (Num 2).
Proof.
  apply (_gramCounter_counts_occurrences "banana" 2 "an"). reflexivity.
Defined.

(** ** Scores are dot products *)

Lemma weighted_setA_new f (o : list (string * count)) k v :
  Obj.lookupA o k = None → weighted f (Obj.setA o k v) = weighted f o + countValue v * f k.
Proof.
  unfold weighted. induction o as [|[k' v'] o IH]; simpl; [lia|].
  case_bool_decide; [done|]. intros Hnone. simpl. rewrite IH by done. lia.
Qed.

Lemma weighted_setA_old f (o : list (string * count)) k v v' :
  Obj.lookupA o k = Some v →
  weighted f (Obj.setA o k v') + countValue v * f k = weighted f o + countValue v' * f k.
Proof.
  unfold weighted. induction o as [|[k' v0] o IH]; simpl; [done|].
  case_bool_decide as Hk.
  - intros [= ->]. subst k'. simpl. lia.
  - intros Hsome. simpl. specialize (IH Hsome). lia.
Qed.

Lemma countGram_weighted f result x :
  (Obj.inherited x = true → x = "__proto__") → goodCounts result →
  weighted f (countGram result x)
  = weighted f result + (if Obj.inherited x then 0 else f x).
Proof.
  intros Hx Hgood. unfold countGram, Obj.hasA.
  destruct (Obj.lookupA result x) as [v|] eqn:E.
  - destruct (Hgood (x, v)) as [Hinh [n Hn]]; [by apply lookupA_elem|].
    simpl in Hinh, Hn. subst v.
    rewrite Hinh, bool_decide_true by eauto. simpl.
    pose proof (weighted_setA_old f result x (Num n) (Num (n + 1)) E) as H. simpl in H. lia.
  - rewrite bool_decide_false by (by intros [? ?]). simpl.
    destruct (Obj.inherited x) eqn:Ei.
    + rewrite bool_decide_true by auto. lia.
    + rewrite weighted_setA_new by done. simpl. lia.
Qed.

Lemma grams_inherited value gramSize gram :
  gramSize ≠ 11 → gram ∈ _iterateGrams value gramSize →
  Obj.inherited gram = true → gram = "__proto__".
Proof.
  intros Hsize Hgram Hinh. apply _iterateGrams_shape in Hgram as [Hlen Hlow].
  destruct (inherited_lower gram Hinh Hlow) as [-> | ->]; [|done].
  simpl in Hlen. unfold orTwo in Hlen. destruct (Nat.eqb_spec gramSize 0); lia.
Qed.

Lemma countGrams_weighted f grams result :
  (∀ x, x ∈ grams → Obj.inherited x = true → x = "__proto__") → goodCounts result →
  weighted f (fold_left countGram grams result)
  = weighted f result + sum_list_with (λ x, if Obj.inherited x then 0 else f x) grams.
Proof.
  revert result. induction grams as [|x grams IH]; intros result Hgrams Hgood; simpl; [lia|].
  rewrite IH.
  - rewrite countGram_weighted; [lia| |done]. apply Hgrams. by left.
  - intros y ?. apply Hgrams. by right.
  - apply countGram_good; [|done]. apply Hgrams. by left.
Qed.

Lemma _gramCounter_weighted f value gramSize :
  gramSize ≠ 11 →
  weighted f (_gramCounter value gramSize)
  = sum_list_with (λ x, if Obj.inherited x then 0 else f x) (_iterateGrams value gramSize).
Proof.
  intros Hsize. unfold _gramCounter.
  rewrite (_iterateGrams_orTwo value (orTwo gramSize) gramSize) by apply orTwo_idem.
  rewrite countGrams_weighted; [done| |by intros ? ?%elem_of_nil].
  intros x. by apply grams_inherited.
Qed.

Lemma sum_at gram grams :
  Obj.inherited gram = false →
  sum_list_with (λ x, if Obj.inherited x then 0 else at_ gram x) grams = occurrences gram grams.
Proof.
  intros Hinh. induction grams as [|x grams IH]; [done|]. cbn [sum_list_with]. rewrite IH.
  unfold at_. destruct (decide (x = gram)) as [->|Hne].
  - by rewrite Hinh, occurrences_cons_eq.
  - rewrite occurrences_cons_ne by done. by destruct (Obj.inherited x).
Qed.

Lemma sum_list_with_ext {A} (f g : A → nat) l :
  (∀ x, x ∈ l → f x = g x) → sum_list_with f l = sum_list_with g l.
Proof.
  induction l as [|x l IH]; intros H; simpl; [done|].
  rewrite (H x) by (by left). rewrite IH; [done|]. intros y ?. apply H. by right.
Qed.

Lemma sum_list_with_zero {A} (f : A → nat) l :
  (∀ x, x ∈ l → f x = 0) → sum_list_with f l = 0.
Proof.
  induction l as [|x l IH]; intros H; simpl; [done|].
  rewrite (H x) by (by left). rewrite IH; [done|]. intros y ?. apply H. by right.
Qed.

Lemma sum_list_with_single {A} `{EqDecision A} (f : A → nat) l a :
  NoDup l → a ∈ l → (∀ x, x ∈ l → x ≠ a → f x = 0) → sum_list_with f l = f a.
Proof.
  induction l as [|x l IH]; intros Hnd Hin Hz; [by apply elem_of_nil in Hin|].
  apply NoDup_cons in Hnd as [Hx Hnd]. simpl.
  destruct (decide (x = a)) as [->|Hne].
  - rewrite sum_list_with_zero; [lia|]. intros y Hy. apply Hz; [by right|]. by intros ->.
  - rewrite (Hz x); [|by left|done]. apply elem_of_cons in Hin as [->|Hin]; [done|].
    rewrite IH; [done..|]. intros y ? ?. apply Hz; [by right|done].
Qed.

(** *** Match lists *)

Lemma weightAt_cons i e l :
  weightAt i (e :: l) = (if decide (fst e = i) then snd e else 0) + weightAt i l.
Proof. unfold weightAt. rewrite filter_cons. by destruct (decide (e.1 = i)). Qed.

Lemma weightAt_nil i : weightAt i [] = 0.
Proof. done. Qed.

Lemma weightAt_app i l k : weightAt i (l ++ k) = weightAt i l + weightAt i k.
Proof. unfold weightAt. by rewrite filter_app, sum_list_with_app. Qed.

Lemma weightAt_addMatch i matches index v :
  weightAt i (addMatch matches index v)
  = weightAt i matches + (if decide (index = i) then v else 0).
Proof.
  induction matches as [|[j m] matches IH]; simpl.
  - rewrite weightAt_cons. simpl. unfold weightAt. simpl. lia.
  - destruct (Nat.ltb_spec index j); [rewrite !weightAt_cons; simpl; lia|].
    destruct (Nat.eqb_spec index j) as [->|Hne].
    + rewrite !weightAt_cons. simpl. destruct (decide (j = i)); lia.
    + rewrite !weightAt_cons, IH. simpl. lia.
Qed.

Lemma weightAt_addMatches i gramCount postings matches :
  weightAt i (fold_left (λ matches '(index, otherGramCount),
                           addMatch matches index (gramCount * otherGramCount))
                        postings matches)
  = weightAt i matches + gramCount * weightAt i postings.
Proof.
  revert matches. induction postings as [|[index other] postings IH]; intros matches; simpl.
  - unfold weightAt at 3. simpl. lia.
  - rewrite IH, weightAt_addMatch, weightAt_cons. simpl. destruct (decide (index = i)); lia.
Qed.

Lemma scoreGram_weight md s matches gram c s' matches' i :
  Obj.inherited gram = false →
  scoreGram md (s, matches) (gram, Num c) = Ret (s', matches') →
  weightAt i matches' = weightAt i matches + c * weightAt i (default [] (md !! gram)).
Proof.
  intros Hinh. unfold scoreGram, Obj.has. rewrite Hinh, orb_false_r.
  destruct (md !! gram) as [ps|] eqn:E.
  - rewrite bool_decide_true by eauto. intros [= <- <-]. apply weightAt_addMatches.
  - rewrite bool_decide_false by (by intros [? ?]). intros [= <- <-].
    simpl. unfold weightAt at 3. simpl. lia.
Qed.

Lemma forM_scoreGram_weight md kvs s matches s' matches' i :
  goodCounts kvs →
  forM (scoreGram md) (s, matches) kvs = Ret (s', matches') →
  weightAt i matches'
  = weightAt i matches + weighted (λ gram, weightAt i (default [] (md !! gram))) kvs.
Proof.
  revert s matches. induction kvs as [|[gram cnt] kvs IH]; intros s matches Hgood Hrun.
  - simpl in Hrun. injection Hrun as <- <-. unfold weighted. simpl. lia.
  - simpl in Hrun. apply bind_Ret in Hrun as ([s1 m1] & Hstep & Hrun).
    destruct (Hgood (gram, cnt)) as [Hinh [c Hc]]; [by left|]. simpl in Hinh, Hc. subst cnt.
    assert (Hgood' : goodCounts kvs) by (intros kv ?; apply Hgood; by right).
    rewrite (IH _ _ Hgood' Hrun).
    rewrite (scoreGram_weight _ _ _ _ _ _ _ i Hinh Hstep).
    unfold weighted. simpl. lia.
Qed.

Lemma weightAt_sorted i v matches :
  StronglySorted lt matches.*1 → (i, v) ∈ matches → weightAt i matches = v.
Proof.
  induction matches as [|[j m] matches IH]; simpl; intros Hs Hin; [by apply elem_of_nil in Hin|].
  apply StronglySorted_inv in Hs as [Hs Hall]. rewrite Forall_forall in Hall.
  assert (Hzero : ∀ k, (∀ x, x ∈ matches.*1 → k ≠ x) → weightAt k matches = 0).
  { intros k Hk. unfold weightAt. rewrite sum_list_with_zero; [done|].
    intros [x y] [Hx ?]%list_elem_of_filter. simpl in Hx. subst x.
    exfalso. apply (Hk k); [|done]. apply list_elem_of_fmap. by exists (k, y). }
  rewrite weightAt_cons. simpl. apply elem_of_cons in Hin as [[= -> ->]|Hin].
  - rewrite decide_True by done. rewrite Hzero; [lia|]. intros x Hx. specialize (Hall x Hx). lia.
  - assert (j < i) by (apply Hall, list_elem_of_fmap; by exists (i, v)).
    rewrite decide_False by lia. by rewrite IH.
Qed.

Lemma weightAt_pos i matches : 0 < weightAt i matches → ∃ v, (i, v) ∈ matches.
Proof.
  induction matches as [|[j m] matches IH]; [unfold weightAt; simpl; lia|].
  rewrite weightAt_cons. simpl. destruct (decide (j = i)) as [->|Hne].
  - intros _. exists m. by left.
  - intros [v ?]%IH. exists v. by right.
Qed.

(** *** Posting lists *)

Lemma forM_addGram_weight index kvs s md s' md' gram i :
  forM (addGram index) (s, md) kvs = Ret (s', md') →
  weightAt i (default [] (md' !! gram))
  = weightAt i (default [] (md !! gram))
    + (if decide (index = i) then weighted (at_ gram) kvs else 0).
Proof.
  revert s md. induction kvs as [|[gram0 cnt] kvs IH]; intros s md Hrun.
  - simpl in Hrun. injection Hrun as <- <-. unfold weighted. simpl. destruct (decide _); lia.
  - simpl in Hrun. apply bind_Ret in Hrun as ([s1 md1] & Hstep & Hrun).
    apply addGram_Ret in Hstep as (c & -> & -> & ->).
    rewrite (IH _ _ Hrun). unfold weighted. cbn [sum_list_with fst snd countValue].
    fold (weighted (at_ gram) kvs). unfold at_ at 2.
    destruct (decide (gram0 = gram)) as [->|Hne].
    + rewrite lookup_insert_eq. cbn [default from_option]. unfold id at 1.
      rewrite weightAt_app, weightAt_cons, weightAt_nil. simpl.
      destruct (decide (index = i)); lia.
    + rewrite lookup_insert_ne by done. destruct (decide (index = i)); lia.
Qed.

Lemma weightAt_below i l : (∀ e, e ∈ l → fst e < i) → weightAt i l = 0.
Proof.
  intros H. unfold weightAt. rewrite sum_list_with_zero; [done|].
  intros e [Hi He]%list_elem_of_filter. specialize (H e He). lia.
Qed.

Lemma add_exact st names value st' :
  invariant st names → postingsExact st names →
  add st value = Ret st' →
  st' = st ∨ postingsExact st' (names ++ [_normalizeStr value]).
Proof.
  intros Hinv Hexact Hadd.
  destruct (add_invariant _ _ _ _ Hinv Hadd) as [[-> _]|(Hhas & Hle & _ & Hinv')];
    [by left|right].
  unfold add in Hadd. rewrite Hhas in Hadd.
  apply Obj_has_false in Hhas as [Hnone Hinh].
  set (n := _normalizeStr value) in *.
  set (sizes := gramSizes (gramSizeLower st) (gramSizeUpper st)) in *.
  assert (Hgen : ∀ seen s,
    (∃ todo, sizes = seen ++ todo) → forM (λ st i, _add st value i) st seen = Ret s →
    ∀ gram i,
      weightAt i (default [] (matchDict s !! gram))
      = weightAt i (default [] (matchDict st !! gram))
        + (if decide (length names = i)
           then sum_list_with (λ g, weighted (at_ gram) (_gramCounter n g)) seen else 0)).
  { induction seen as [|x seen IH] using rev_ind; intros s [todo Htodo] Hrun gram i.
    - injection Hrun as <-. simpl. destruct (decide _); lia.
    - rewrite forM_app in Hrun. apply bind_Ret in Hrun as (s1 & Hrun1 & Hstep).
      simpl in Hstep. apply bind_Ret in Hstep as (s2 & Hstep & [= ->]).
      assert (Hnd : NoDup (seen ++ [x])).
      { pose proof (gramSizes_NoDup (gramSizeLower st) (gramSizeUpper st)) as Hnd.
        fold sizes in Hnd. rewrite Htodo in Hnd. by apply NoDup_app in Hnd as [? _]. }
      assert (Hin : ∀ g, g ∈ seen ++ [x] → g ∈ sizes).
      { intros g ?. rewrite Htodo. apply elem_of_app. by left. }
      destruct (add_loop st names value seen s1 Hinv Hinh) as (_ & _ & _ & _ & _ & Hrest & _).
      { by apply NoDup_app in Hnd as [? _]. }
      { intros g ?. apply gramSizes_elem, Hin, elem_of_app. by left. }
      { done. }
      apply _add_Ret in Hstep as (md' & Hloop & _ & ->). simpl. fold n in Hloop.
      assert (Hx : x ∉ seen).
      { apply NoDup_app in Hnd as (_ & Hfresh & _). intros ?. eapply Hfresh; [done|by left]. }
      destruct (inv_items _ _ Hinv x) as (l & Hl & Hnames & _).
      { apply gramSizes_elem, Hin, elem_of_app. right. by left. }
      rewrite (Hrest x Hx), Hl in Hloop. cbn [default from_option] in Hloop.
      unfold id in Hloop.
      replace (length l) with (length names) in Hloop by (by rewrite <- Hnames, length_map).
      rewrite (forM_addGram_weight _ _ _ _ _ _ gram i Hloop).
      assert (Hpre : ∃ todo', sizes = seen ++ todo').
      { exists ([x] ++ todo). by rewrite Htodo, <- app_assoc. }
      rewrite (IH s1 Hpre Hrun1 gram i), sum_list_with_app. simpl.
      unfold weighted at 2. rewrite (sum_list_with_Permutation_proper _ _ _ (forIn_perm _)).
      fold (weighted (at_ gram) (_gramCounter n x)).
      destruct (decide (length names = i)); lia. }
  assert (Hlo : gramSizeLower st' = gramSizeLower st ∧ gramSizeUpper st' = gramSizeUpper st).
  { destruct (add_loop st names value sizes st' Hinv Hinh) as (? & ? & _);
      [apply gramSizes_NoDup|intros g; apply gramSizes_elem|done|done]. }
  destruct Hlo as [Hlo Hup].
  assert (Hall : ∃ todo, sizes = sizes ++ todo) by (exists []; by rewrite app_nil_r).
  intros gram i. rewrite Hlo, Hup, (Hgen sizes st' Hall Hadd gram i). fold sizes.
  unfold countAt. destruct (decide (length names = i)) as [<-|Hne].
  - rewrite weightAt_below; cycle 1.
    { intros e He. destruct (matchDict st !! gram) as [ps|] eqn:E; [|by apply elem_of_nil in He].
      by apply (inv_valid _ _ Hinv gram ps). }
    by rewrite lookup_app_r, Nat.sub_diag by done.
  - rewrite Hexact. fold sizes. rewrite Nat.add_0_r. apply sum_list_with_ext. intros g _.
    unfold countAt. destruct (decide (i < length names)).
    + by rewrite lookup_app_l.
    + rewrite (lookup_ge_None_2 names i) by lia.
      rewrite lookup_ge_None_2; [done|]. rewrite length_app. simpl. lia.
Qed.


Lemma reachable_postings st :
  reachable st →
  ∃ names, invariant st names ∧ postingsSound st names ∧ postingsExact st names.
Proof.
  induction 1 as [useLev lower upper|st value st' _ (names & Hinv & Hsound & Hexact) Hadd].
  - exists []. split_and!; [apply emptyIndex_invariant| |].
    + intros gram ps i c Hps. simpl in Hps. by rewrite lookup_empty in Hps.
    + intros gram i. simpl. rewrite lookup_empty. simpl.
      rewrite sum_list_with_zero; [done|]. intros g _. unfold countAt. by rewrite lookup_nil.
  - destruct (add_exact _ _ _ _ Hinv Hexact Hadd) as [-> |Hexact']; [eauto|].
    destruct (add_sound _ _ _ _ Hinv Hsound Hadd) as [[-> ?]|[? ?]]; eauto.
Qed.

(** *** The gram counter keeps one positive count per gram *)

Lemma setA_keys {V} (o : list (string * V)) k v :
  (Obj.setA o k v).*1
  = match Obj.lookupA o k with Some _ => o.*1 | None => o.*1 ++ [k] end.
Proof.
  induction o as [|[k' v'] o IH]; [done|]. cbn [Obj.setA Obj.lookupA].
  case_bool_decide; rewrite !fmap_cons; [done|]. rewrite IH.
  by destruct (Obj.lookupA o k).
Qed.

Lemma lookupA_None_keys {V} (o : list (string * V)) k : Obj.lookupA o k = None → k ∉ o.*1.
Proof.
  intros Hnone (kv & -> & Hin)%list_elem_of_fmap. destruct kv as [k v].
  by apply (lookupA_None_elem o k v).
Qed.

Lemma NoDup_lookupA {V} (o : list (string * V)) k v :
  NoDup o.*1 → (k, v) ∈ o → Obj.lookupA o k = Some v.
Proof.
  induction o as [|[k' v'] o IH]; simpl; [by intros _ ?%elem_of_nil|].
  intros [Hk Hnd]%NoDup_cons [[= -> ->]|Hin]%elem_of_cons.
  - by rewrite bool_decide_true.
  - rewrite bool_decide_false; [by apply IH|]. intros ->. apply Hk.
    apply list_elem_of_fmap. by exists (k, v).
Qed.

Lemma countGram_NoDup result x : NoDup result.*1 → NoDup (countGram result x).*1.
Proof.
  intros Hnd.
  assert (Hset : ∀ v, NoDup (Obj.setA result x v).*1).
  { intros v. rewrite setA_keys. destruct (Obj.lookupA result x) eqn:E; [done|].
    apply NoDup_app. split_and!; [done| |apply NoDup_singleton].
    intros k Hk Hx%list_elem_of_singleton. subst k. by apply (lookupA_None_keys result x). }
  unfold countGram. destruct (Obj.hasA result x); [|done].
  destruct (Obj.lookupA result x) as [[n|]|]; [done..|]. by case_bool_decide.
Qed.

Lemma countGram_positive result x :
  (∀ kv, kv ∈ result → snd kv ≠ Num 0) → ∀ kv, kv ∈ countGram result x → snd kv ≠ Num 0.
Proof.
  intros Hpos.
  assert (Hset : ∀ n kv, kv ∈ Obj.setA result x (Num (S n)) → snd kv ≠ Num 0).
  { intros n kv [-> |?]%elem_of_setA; [done|by apply Hpos]. }
  unfold countGram. destruct (Obj.hasA result x); [|apply (Hset 0)].
  destruct (Obj.lookupA result x) as [[n|]|]; [|done|].
  - rewrite Nat.add_1_r. apply Hset.
  - case_bool_decide; [done|]. intros kv [-> |?]%elem_of_setA; [done|by apply Hpos].
Qed.

Lemma _gramCounter_NoDup value gramSize :
  NoDup (_gramCounter value gramSize).*1
  ∧ ∀ kv, kv ∈ _gramCounter value gramSize → snd kv ≠ Num 0.
Proof.
  unfold _gramCounter. generalize (_iterateGrams value (orTwo gramSize)).
  assert (H0 : NoDup (@nil (string * count)).*1 ∧ ∀ kv, kv ∈ @nil (string * count) → snd kv ≠ Num 0).
  { split; [constructor|by intros ? ?%elem_of_nil]. }
  revert H0. generalize (@nil (string * count)).
  intros result H grams. revert result H.
  induction grams as [|x grams IH]; intros result [Hnd Hpos]; simpl; [done|].
  apply IH. split; [by apply countGram_NoDup|by apply countGram_positive].
Qed.

Lemma occurrences_zero gram grams : gram ∉ grams → occurrences gram grams = 0.
Proof.
  intros Hnot. induction grams as [|x grams IH]; [done|].
  rewrite occurrences_cons_ne; [apply IH|]; set_solver.
Qed.

Lemma _gramCounter_value value gramSize k v :
  gramSize ≠ 11 → (k, v) ∈ _gramCounter value gramSize →
  Obj.inherited k = false ∧ v = Num (occurrences k (_iterateGrams value gramSize)).
Proof.
  intros Hsize Hin.
  destruct (_gramCounter_good value gramSize Hsize (k, v) Hin) as [Hinh _]. simpl in Hinh.
  split; [done|].
  apply NoDup_lookupA in Hin; [|apply _gramCounter_NoDup].
  unfold _gramCounter in Hin. rewrite countGrams_count in Hin by done. simpl in Hin.
  rewrite (_iterateGrams_orTwo value (orTwo gramSize) gramSize) in Hin by apply orTwo_idem.
  destruct (occurrences k (_iterateGrams value gramSize)); congruence.
Qed.

Lemma sumSquares_weighted f o :
  (∀ k v, (k, v) ∈ o → countValue v = f k) → sumSquares o = weighted f o.
Proof.
  induction o as [|[k v] o IH]; intros H; [done|].
  unfold sumSquares, weighted in *. cbn [foldr sum_list_with fst snd].
  rewrite IH by (intros k' v' ?; apply H; by right).
  rewrite <- (H k v) by (by left). by rewrite Nat.pow_2_r.
Qed.

Lemma sumSquares_dot value gramSize :
  gramSize ≠ 11 →
  sumSquares (_gramCounter value gramSize)
  = dot (_iterateGrams value gramSize) (_iterateGrams value gramSize).
Proof.
  intros Hsize. unfold dot.
  rewrite <- (_gramCounter_weighted (λ x, occurrences x (_iterateGrams value gramSize))) by done.
  apply sumSquares_weighted. intros k v Hin.
  by destruct (_gramCounter_value value gramSize k v Hsize Hin) as [_ ->].
Qed.

(** *** The matches of a query *)

Lemma countAt_occurrences names i g gram :
  g ≠ 11 → Obj.inherited gram = false →
  countAt names i g gram
  = match names !! i with
    | Some n => occurrences gram (_iterateGrams n g)
    | None => 0
    end.
Proof.
  intros Hg Hinh. unfold countAt. destruct (names !! i) as [n|]; [|done].
  by rewrite _gramCounter_weighted, sum_at.
Qed.

Lemma collectMatches_dot st names q g s matches i :
  invariant st names → postingsExact st names →
  1 ≤ gramSizeLower st →
  (∀ g', gramSizeLower st ≤ g' ≤ gramSizeUpper st → g' ≠ 11) →
  gramSizeLower st ≤ g ≤ gramSizeUpper st →
  collectMatches st q g = Ret (s, matches) →
  weightAt i matches
  = match names !! i with
    | Some n => dot (_iterateGrams q g) (_iterateGrams n g)
    | None => 0
    end.
Proof.
  intros Hinv Hexact Hlower Hsizes Hg Hrun. unfold collectMatches in Hrun.
  assert (Hg11 : g ≠ 11) by (by apply Hsizes).
  apply (forM_scoreGram_weight _ _ _ _ _ _ i) in Hrun;
    [|by apply goodCounts_forIn, _gramCounter_good].
  rewrite Hrun, weightAt_nil. simpl. unfold weighted at 1.
  rewrite (sum_list_with_Permutation_proper _ _ _ (forIn_perm _)).
  fold (weighted (λ gram, weightAt i (default [] (matchDict st !! gram))) (_gramCounter q g)).
  rewrite _gramCounter_weighted by done.
  transitivity (sum_list_with
    (λ x, if Obj.inherited x then 0
          else match names !! i with
               | Some n => occurrences x (_iterateGrams n g)
               | None => 0
               end) (_iterateGrams q g)).
  - apply sum_list_with_ext. intros x Hx. destruct (Obj.inherited x) eqn:Hinh; [done|].
    rewrite Hexact.
    rewrite (sum_list_with_single _ _ g); [by apply countAt_occurrences|apply gramSizes_NoDup
                                           |by apply gramSizes_elem|].
    intros g' Hg'%gramSizes_elem Hne.
    rewrite countAt_occurrences by auto. destruct (names !! i) as [n|]; [|done].
    apply occurrences_zero. intros Hx'.
    apply _iterateGrams_shape in Hx as [Hlen _]. apply _iterateGrams_shape in Hx' as [Hlen' _].
    unfold orTwo in Hlen, Hlen'.
    destruct (Nat.eqb_spec g 0), (Nat.eqb_spec g' 0); lia.
  - destruct (names !! i) as [n|]; [done|].
    apply sum_list_with_zero. intros x _. by destruct (Obj.inherited x).
Qed.

Lemma addMatch_positive matches index v :
  0 < v → Forall (λ e, 0 < snd e) matches → Forall (λ e, 0 < snd e) (addMatch matches index v).
Proof.
  intros Hv. induction matches as [|[j m] matches IH]; simpl; intros Hall.
  - by repeat constructor.
  - apply Forall_cons in Hall as [Hm Hall]. simpl in Hm.
    destruct (index <? j); [by repeat constructor|].
    destruct (index =? j); constructor; simpl; auto with lia.
Qed.

Lemma collectMatches_positive st names q g s matches :
  postingsSound st names →
  collectMatches st q g = Ret (s, matches) → Forall (λ e, 0 < snd e) matches.
Proof.
  intros Hsound Hrun. unfold collectMatches in Hrun.
  apply (forM_invariant _ (λ _ acc, Forall (λ e, 0 < snd e) (snd acc))) in Hrun; [done|..].
  - constructor.
  - intros seen [gram cnt] todo [s1 m1] [s2 m2] Heq Hall Hstep. simpl in *.
    assert (Hkv : (gram, cnt) ∈ _gramCounter q g).
    { apply forIn_elem. rewrite Heq. apply elem_of_app. right. by left. }
    destruct cnt as [c|]; [|done].
    assert (0 < c).
    { destruct (_gramCounter_NoDup q g) as [_ Hpos]. specialize (Hpos _ Hkv). simpl in Hpos.
      destruct c; [done|lia]. }
    unfold scoreGram in Hstep. destruct (Obj.has (matchDict st) gram); [|by injection Hstep as <- <-].
    destruct (matchDict st !! gram) as [ps|] eqn:Eps.
    + injection Hstep as <- <-.
      assert (Hps : ∀ e, e ∈ ps → 0 < snd e).
      { intros [i' c'] He. destruct (Hsound gram ps i' c' Eps He) as (g' & n & _ & _ & Hgc).
        destruct (_gramCounter_NoDup n g') as [_ Hpos]. specialize (Hpos _ Hgc). simpl in *.
        destruct c'; [done|lia]. }
      clear Eps. revert m1 Hall. induction ps as [|[i' c'] ps IH]; intros m1 Hall; simpl; [done|].
      apply IH; [intros e ?; apply Hps; by right|].
      apply addMatch_positive; [|done]. specialize (Hps (i', c')). simpl in Hps.
      assert (0 < c') by (apply Hps; by left). nia.
    + destruct (Obj.inheritedLength gram) as [[|k]|]; [|done|]; by injection Hstep as <- <-.
Qed.

(** What [__get] scores at one gram size, before the threshold: the
    entries that share a countable gram with the query, each with the
    cosine of the two gram-count vectors. *)
Lemma scored_entries st names value g s matches records results :
  invariant st names → postingsSound st names → postingsExact st names →
  1 ≤ gramSizeLower st →
  (∀ g', gramSizeLower st ≤ g' ≤ gramSizeUpper st → g' ≠ 11) →
  gramSizeLower st ≤ g ≤ gramSizeUpper st →
  collectMatches st (_normalizeStr value) g = Ret (s, matches) →
  items st !! g = Some records →
  scoreMatches (Some records) s matches = Ret results →
  (matches = [] ↔ results = [])
  ∧ ∀ score w, (score, w) ∈ results ↔
      w ∈ names
      ∧ 0 < dot (_iterateGrams value g) (_iterateGrams w g)
      ∧ score = cosine (_iterateGrams value g) (_iterateGrams w g).
Proof.
  intros Hinv Hsound Hexact Hlower Hsizes Hg Hcollect Hrec Hscore.
  assert (Hg11 : g ≠ 11) by (by apply Hsizes).
  pose proof (collectMatches_sorted _ _ _ _ _ Hcollect) as Hsorted.
  pose proof (collectMatches_positive _ _ _ _ _ _ Hsound Hcollect) as Hpos.
  assert (Hdot := λ i, collectMatches_dot _ _ _ _ _ _ i Hinv Hexact Hlower Hsizes Hg Hcollect).
  unfold _normalizeStr in Hdot.
  destruct (collectMatches_Ret _ _ _ _ _ _ Hinv Hcollect) as (Hs & _ & Hvalid).
  rewrite sumSquares_dot in Hs by done. unfold _normalizeStr in Hs.
  rewrite _iterateGrams_lower in Hs.
  destruct (inv_items _ _ Hinv g Hg) as (records' & Hrec' & Hnames & Hnorms).
  assert (records' = records) as -> by congruence.
  destruct (scoreMatches_total records s matches) as (results' & Hscore' & Hall).
  { intros i Hi. rewrite <- Hnames, length_map in Hvalid. by apply Hvalid. }
  assert (results' = results) as -> by congruence.
  assert (Hentry : ∀ i v sc w, (i, v) ∈ matches → (∃ norm,
              records !! i = Some (norm, w)
              ∧ sc = (float_of_nat v / (PrimFloat.sqrt (float_of_nat s) * norm))%float) →
            names !! i = Some w
            ∧ v = dot (_iterateGrams value g) (_iterateGrams w g)
            ∧ sc = cosine (_iterateGrams value g) (_iterateGrams w g)).
  { intros i v sc w Hin (norm & Hi & ->).
    assert (Hw : names !! i = Some w) by (by rewrite <- Hnames, list_lookup_fmap, Hi).
    assert (Hv : v = dot (_iterateGrams value g) (_iterateGrams w g)).
    { rewrite <- (weightAt_sorted i v matches Hsorted Hin), Hdot, Hw.
      by rewrite _iterateGrams_lower. }
    split_and!; [done..|].
    pose proof (Hnorms (norm, w) (list_elem_of_lookup_2 _ _ _ Hi)) as Hn. simpl in Hn.
    rewrite Hn, sumSquares_dot by done. unfold cosine. by rewrite <- Hv, <- Hs. }
  split.
  { split; intros ->; [by apply Forall2_nil_inv_l in Hall|by apply Forall2_nil_inv_r in Hall]. }
  intros score w. split.
  - intros Hin. apply list_elem_of_lookup in Hin as [j Hj].
    destruct (Forall2_lookup_r _ _ _ _ _ Hall Hj) as ([i v] & Hm & Hrel). simpl in Hrel.
    apply list_elem_of_lookup_2 in Hm.
    destruct (Hentry i v score w Hm Hrel) as (Hw & Hv & Hsc).
    split_and!; [by eapply list_elem_of_lookup_2| |done].
    rewrite <- Hv. rewrite Forall_forall in Hpos. apply (Hpos (i, v) Hm).
  - intros (Hw & Hpos' & ->). apply list_elem_of_lookup in Hw as [i Hi].
    assert (Hweight : 0 < weightAt i matches).
    { by rewrite Hdot, Hi, _iterateGrams_lower. }
    apply weightAt_pos in Hweight as [v Hm].
    pose proof Hm as Hm'. apply list_elem_of_lookup in Hm' as [j Hj].
    destruct (Forall2_lookup_l _ _ _ _ _ Hall Hj) as ([sc w'] & Hr & norm & Hrecw & Hsc).
    simpl in Hrecw, Hsc.
    destruct (Hentry i v sc w' Hm) as (Hw' & _ & Hsc'); [by exists norm|].
    assert (w' = w) as -> by congruence. rewrite <- Hsc'.
    by eapply list_elem_of_lookup_2.
Qed.

Lemma __get_cosine st names value g m r :
  invariant st names → postingsSound st names → postingsExact st names →
  useLevenshtein st = false →
  1 ≤ gramSizeLower st →
  (∀ g', gramSizeLower st ≤ g' ≤ gramSizeUpper st → g' ≠ 11) →
  gramSizeLower st ≤ g ≤ gramSizeUpper st →
  __get st value g m = Ret r →
  (∀ x, x ∈ default [] r ↔ cosineMatch st value g m x)
  ∧ (r = None ↔ ∀ w, w ∈ names → dot (_iterateGrams value g) (_iterateGrams w g) = 0).
Proof.
  intros Hinv Hsound Hexact Hlev Hlower Hsizes Hg Hget.
  unfold __get in Hget. apply bind_Ret in Hget as ([s matches] & Hcollect & Hget).
  destruct (inv_items _ _ Hinv g Hg) as (records & Hrec & Hnames & _). rewrite Hrec in Hget.
  destruct (collectMatches_Ret _ _ _ _ _ _ Hinv Hcollect) as (_ & _ & Hvalid).
  destruct (scoreMatches_total records s matches) as (results & Hscore & _).
  { intros i Hi. rewrite <- Hnames, length_map in Hvalid. by apply Hvalid. }
  destruct (scored_entries _ _ _ _ _ _ _ _ Hinv Hsound Hexact Hlower Hsizes Hg
              Hcollect Hrec Hscore) as [Hnil Hres].
  assert (Hfinal : ∀ x, x ∈ finalResults st m (sortDesc results) ↔ cosineMatch st value g m x).
  { intros [score word]. unfold finalResults, cosineMatch. simpl. split.
    - intros ([sc w] & [= -> ->] & [Hpass Hin]%list_elem_of_filter)%list_elem_of_fmap.
      rewrite sortDesc_perm in Hin. apply Hres in Hin as (Hw & Hpos & Hsc).
      apply (inv_exact _ _ Hinv) in Hw as [original Hcat]. exists original.
      pose proof (inv_norm _ _ Hinv _ _ Hcat) as Hn. unfold _normalizeStr in Hn. subst w.
      rewrite _iterateGrams_lower in Hpos, Hsc. by split_and!.
    - intros (original & -> & Hcat & Hpos & -> & Hpass).
      apply list_elem_of_fmap.
      exists (cosine (_iterateGrams value g) (_iterateGrams original g), Str.toLowerCase original).
      split; [by rewrite Hcat|]. apply list_elem_of_filter. split; [done|].
      rewrite sortDesc_perm. apply Hres. rewrite _iterateGrams_lower. split_and!; [|done..].
      apply (inv_exact _ _ Hinv). eauto. }
  assert (Hnone : matches = [] ↔
            ∀ w, w ∈ names → dot (_iterateGrams value g) (_iterateGrams w g) = 0).
  { rewrite Hnil. split.
    - intros -> w Hw.
      destruct (dot (_iterateGrams value g) (_iterateGrams w g)) as [|k] eqn:E; [done|].
      exfalso. eapply elem_of_nil, Hres. split_and!; [done| |done]. rewrite E. lia.
    - intros Hzero. destruct results as [|[sc w] results]; [done|].
      destruct (Hres sc w) as [(Hw & Hpos & _) _]; [by left|].
      rewrite (Hzero w Hw) in Hpos. lia. }
  case_bool_decide as Hm.
  - injection Hget as <-. simpl. split; [|by rewrite <- Hnone].
    intros x. split; [by intros ?%elem_of_nil|].
    intros HR%Hfinal. apply Hnil in Hm. subst results. by apply elem_of_nil in HR.
  - rewrite Hscore in Hget. simpl in Hget. unfold refine in Hget. rewrite Hlev in Hget.
    simpl in Hget. injection Hget as <-. split; [exact Hfinal|].
    rewrite <- Hnone. by split.
Qed.

(** X16: without edit-distance refinement the score is the cosine
    similarity.  On a reachable index with gram sizes from 1 on, 11 not
    among them, [__get] at a configured gram size returns exactly the
    original strings of the catalog that share a countable gram with the
    query and whose cosine similarity with it reaches the threshold, each
    with that cosine as its score; it returns [null] exactly when no string
    of the catalog shares a countable gram with the query. *)
Theorem scores_are_cosines st value g m r :
  reachable st →
  useLevenshtein st = false →
  1 ≤ gramSizeLower st →
  (∀ g', gramSizeLower st ≤ g' ≤ gramSizeUpper st → g' ≠ 11) →
  gramSizeLower st ≤ g ≤ gramSizeUpper st →
  __get st value g m = Ret r →
  (∀ x, x ∈ default [] r ↔ cosineMatch st value g m x)
  ∧ (r = None ↔
     ∀ original, exactSet st !! Str.toLowerCase original = Some original →
       dot (_iterateGrams value g) (_iterateGrams original g) = 0).
Proof.
  intros (names & Hinv & Hsound & Hexact)%reachable_postings Hlev Hlower Hsizes Hg Hget.
  destruct (__get_cosine _ _ _ _ _ _ Hinv Hsound Hexact Hlev Hlower Hsizes Hg Hget)
    as [Hres Hnone].
  split; [done|]. rewrite Hnone. split.
  - intros Hzero original Hcat. rewrite <- (_iterateGrams_lower original).
    apply Hzero, (inv_exact _ _ Hinv). eauto.
  - intros Hzero w [original Hcat]%(inv_exact _ _ Hinv).
    pose proof (inv_norm _ _ Hinv _ _ Hcat) as Hn. unfold _normalizeStr in Hn. subst w.
    rewrite _iterateGrams_lower. by apply Hzero.
Qed.

Lemma scores_are_cosines_witness :
  (∀ x, x ∈ default [] (Some [(cosine (_iterateGrams "ab" 2) (_iterateGrams "ac" 2), Some "ac");
                               (cosine (_iterateGrams "ab" 2) (_iterateGrams "cb" 2), Some "cb")])
        ↔ cosineMatch plainIndex "ab" 2 0.25 x)
  ∧ (Some [(cosine (_iterateGrams "ab" 2) (_iterateGrams "ac" 2), Some "ac");
           (cosine (_iterateGrams "ab" 2) (_iterateGrams "cb" 2), Some "cb")] = None ↔
     ∀ original, exactSet plainIndex !! Str.toLowerCase original = Some original →
       dot (_iterateGrams "ab" 2) (_iterateGrams original 2) = 0).
Proof.
  apply (scores_are_cosines plainIndex "ab" 2 0.25).
  - apply (FuzzySet_reachable ["ac"; "cb"; "abzzzzzzzz"] (Some false) None None).
    vm_compute. reflexivity.
  - reflexivity.
  - vm_compute. lia.
  - intros g' Hg'. change (2 ≤ g' ≤ 3) in Hg'. lia.
  - vm_compute. lia.
  - vm_compute. reflexivity.
Defined.

(** X17: [get] without edit-distance refinement is cosine search with
    fall-back.  When it returns results, they are exactly the cosine matches
    at one configured gram size, and no larger configured gram size has a
    cosine match. *)
Theorem get_is_cosine_search {D} st value (d : option D) m rs :
  reachable st →
  useLevenshtein st = false →
  1 ≤ gramSizeLower st →
  (∀ g', gramSizeLower st ≤ g' ≤ gramSizeUpper st → g' ≠ 11) →
  get st value d m = Ret (Results rs) →
  ∃ g, gramSizeLower st ≤ g ≤ gramSizeUpper st
       ∧ (∀ x, x ∈ rs ↔ cosineMatch st value g (default defaultMinMatchScore m) x)
       ∧ ∀ g' x, g < g' ≤ gramSizeUpper st →
           ¬ cosineMatch st value g' (default defaultMinMatchScore m) x.
Proof.
  intros (names & Hinv & Hsound & Hexact)%reachable_postings Hlev Hlower Hsizes Hget.
  unfold get in Hget. apply bind_Ret in Hget as (r & Hget & Hr).
  destruct r as [rs'|]; [|by destruct d]. injection Hr as <-.
  unfold _get in Hget.
  apply _getLoop_Some in Hget as (_ & before & g & a & Heq & Hg & Hbefore).
  apply gramSizesDown_before in Heq as [Hrange Hlater].
  exists g. split; [done|].
  destruct (__get_cosine _ _ _ _ _ _ Hinv Hsound Hexact Hlev Hlower Hsizes Hrange Hg)
    as [Hres _].
  split; [exact Hres|]. intros g' x Hg' Hmatch.
  assert (Hrange' : gramSizeLower st ≤ g' ≤ gramSizeUpper st) by lia.
  destruct (Hbefore g') as [Hnone|Hnone]; [by apply Hlater|..];
    destruct (__get_cosine _ _ _ _ _ _ Hinv Hsound Hexact Hlev Hlower Hsizes Hrange' Hnone)
      as [Hres' _];
    apply Hres' in Hmatch; by apply elem_of_nil in Hmatch.
Qed.

Lemma get_is_cosine_search_witness :
  ∃ g, gramSizeLower plainIndex ≤ g ≤ gramSizeUpper plainIndex
       ∧ (∀ x, x ∈ [(cosine (_iterateGrams "ab" 2) (_iterateGrams "ac" 2), Some "ac");
                    (cosine (_iterateGrams "ab" 2) (_iterateGrams "cb" 2), Some "cb")]
               ↔ cosineMatch plainIndex "ab" g (default defaultMinMatchScore (Some 0.25%float)) x)
       ∧ ∀ g' x, g < g' ≤ gramSizeUpper plainIndex →
           ¬ cosineMatch plainIndex "ab" g' (default defaultMinMatchScore (Some 0.25%float)) x.
Proof.
  apply (get_is_cosine_search (D := unit) plainIndex "ab" None (Some 0.25%float)).
  - apply (FuzzySet_reachable ["ac"; "cb"; "abzzzzzzzz"] (Some false) None None).
    vm_compute. reflexivity.
  - reflexivity.
  - vm_compute. lia.
  - intros g' Hg'. change (2 ≤ g' ≤ 3) in Hg'. lia.
  - vm_compute. reflexivity.
Defined.

(** ** Scores with edit-distance refinement *)

Lemma refine_scores n results out :
  refine true n results = Ret out →
  ∀ r, r ∈ out → _distance (Some (snd r)) (Some n) = Ret (fst r).
Proof.
  unfold refine. intros (newResults & Hnew & [= <-])%bind_Ret r Hr.
  apply mapM_Ret in Hnew. rewrite sortDesc_perm in Hr.
  apply list_elem_of_lookup in Hr as [j Hj].
  destruct (Forall2_lookup_r _ _ _ _ _ Hnew Hj) as (r' & _ & (d & Hd & [= <-])%bind_Ret).
  done.
Qed.

(** X18: with edit-distance refinement on, the score of every result of
    [get] on a reachable index is the edit-distance similarity
    [1 - d / max(len)] between the lower-cased catalog string and the
    lower-cased query, [d] being their Levenshtein distance. *)
Theorem get_scores_are_edit_similarities {D} st value (d : option D) m rs :
  reachable st →
  useLevenshtein st = true →
  get st value d m = Ret (Results rs) →
  Forall (λ r, ∃ original,
            snd r = Some original
            ∧ exactSet st !! Str.toLowerCase original = Some original
            ∧ fst r = (1 - float_of_nat (levenshtein (Str.toLowerCase original)
                                                     (Str.toLowerCase value))
                           / float_of_nat (Nat.max (String.length original)
                                                   (String.length value)))%float) rs.
Proof.
  intros [names Hinv]%reachable_invariant Hlev (_ & g & Hg & Hget)%get_Results.
  apply Forall_forall. intros [score word] Hin.
  unfold __get in Hget. apply bind_Ret in Hget as ([s matches] & _ & Hget).
  case_bool_decide; [done|].
  destruct (inv_items _ _ Hinv g Hg) as (records & Hrec & Hnames & _). rewrite Hrec in Hget.
  apply bind_Ret in Hget as (results & Hscore & Hget).
  apply bind_Ret in Hget as (refined & Href & [= <-]).
  unfold finalResults in Hin. apply list_elem_of_fmap in Hin as ([sc w] & [= -> ->] & Hin).
  apply list_elem_of_filter in Hin as [_ Hin]. rewrite Hlev in Href.
  pose proof (refine_scores _ _ _ Href _ Hin) as Hd. simpl in Hd.
  apply refine_Ret in Href as (_ & _ & Hwords).
  destruct (Hwords _ Hin) as ([sc' w'] & Hr' & Hw). simpl in Hw. subst w'.
  rewrite sortDesc_perm in Hr'.
  apply scoreMatches_words in Hscore as [_ Hrecs].
  specialize (Hrecs _ Hr'). simpl in Hrecs. rewrite Hnames in Hrecs.
  apply (inv_exact _ _ Hinv) in Hrecs as [original Hcat]. exists original. simpl.
  pose proof (inv_norm _ _ Hinv _ _ Hcat) as Hn. unfold _normalizeStr in *. subst w.
  split_and!; [done..|].
  unfold _distance in Hd. rewrite !toLowerCase_length in Hd.
  destruct (Nat.ltb_spec (String.length value) (String.length original));
    injection Hd as <-; [by rewrite Nat.max_l by lia|by rewrite Nat.max_r by lia].
Qed.

Lemma get_scores_are_edit_similarities_witness :
  Forall (λ r, ∃ original,
            snd r = Some original
            ∧ exactSet appleIndex !! Str.toLowerCase original = Some original
            ∧ fst r = (1 - float_of_nat (levenshtein (Str.toLowerCase original)
                                                     (Str.toLowerCase "apple"))
                           / float_of_nat (Nat.max (String.length original)
                                                   (String.length "apple")))%float)
         [(1%float, Some "Apple")].
Proof.
  apply (get_scores_are_edit_similarities (D := unit) appleIndex "apple" None None).
  - apply (reachable_add (emptyIndex None None None) "Apple");
      [apply reachable_new|vm_compute; reflexivity].
  - reflexivity.
  - vm_compute. reflexivity.
Defined.
